(** * News analysis engine: similarity comparator and timeline aggregator

    A shallow embedding of the three service classes of the backend
    ([NLPProcessor], [SimilarityAnalyzer], [TimelineGenerator]) together
    with the properties the specification states about them.

    Conventions of the embedding.
    - A Python [str] is a list of Unicode code points ([list N]).
    - A Python [float] is an exact rational ([Q]); rounding is not modelled,
      so every numeric statement below is about the exact value of the
      expression the code evaluates.
    - A raised exception is [None] in the option monad.
    - A key that the code reads with [dict.get(key, default)] and that is
      absent is represented by that default.
    - Python's [set] and the key view of a [dict] are [gset]/[gmap]; the
      order in which a set of strings is iterated, where the result
      depends on which elements come first, is left to the interpreter
      ([set_iteration]); a [dict] whose insertion order is observable is
      an association list. *)

From Stdlib Require Import ZArith NArith QArith Qminmax Qabs Lqa Lia String Ascii.
From stdpp Require Import base list gmap sets option strings numbers sorting.

Open Scope Q_scope.
Open Scope nat_scope.

(** ** Unicode text *)

Abbreviation char := N (only parsing).
Abbreviation str := (list N) (only parsing).

Module Text.

(** An ASCII literal of the source as a sequence of code points. *)
Definition lit (s : string) : str := map N_of_ascii (list_ascii_of_string s).

Definition in_range (lo hi c : char) : bool := ((lo <=? c) && (c <=? hi))%N.

(** [str.isspace] on one code point, which is also the class [\s] of [re]
    for [str] patterns and the set removed by [str.strip()]. *)
Definition isspace (c : char) : bool :=
  in_range 9 13 c || in_range 28 32 c || (c =? 133)%N || (c =? 160)%N
  || (c =? 5760)%N || in_range 8192 8202 c || (c =? 8232)%N || (c =? 8233)%N
  || (c =? 8239)%N || (c =? 8287)%N || (c =? 12288)%N.

Definition is_ascii (c : char) : bool := (c <? 128)%N.

Definition ascii_isalnum (c : char) : bool :=
  in_range 48 57 c || in_range 65 90 c || in_range 97 122 c.

Definition ascii_lower (c : char) : char :=
  if in_range 65 90 c then (c + 32)%N else c.

(** What the interpreter and scikit-learn provide and the repository only
    calls: the Unicode character database beyond ASCII, the TF-IDF
    vectoriser followed by the cosine of the two rows, and the order in
    which a set of strings is iterated. *)
Class PyLibs := {
  (** [str.isalnum] for a code point above 127. *)
  unicode_isalnum : char -> bool;
  (** [str.lower] for a string with a code point above 127. *)
  unicode_lower : str -> str;
  (** [cosine_similarity] of the two rows of
      [TfidfVectorizer(max_features=1000, ngram_range=(1, 2), stop_words=...)
       .fit_transform([d1, d2])]; the flag says whether [stop_words] is
      ['english']; [None] when the vectoriser raises (empty vocabulary). *)
  tfidf_cosine : bool -> str -> str -> option Q;
  (** [list(s)] for a set of strings: its elements, each once, in the
      order of the hash table, which follows the hashes of the strings
      and differs from one run of the interpreter to the next. *)
  set_iteration : gset str -> list str;
  set_iteration_perm : forall s, set_iteration s ≡ₚ elements s
}.

Section WithLibs.
Context `{PyLibs}.

(** The class [\w] of [re] for [str] patterns. *)
Definition is_word (c : char) : bool :=
  if is_ascii c then ascii_isalnum c || (c =? 95)%N else unicode_isalnum c.

(** [s.lower()] *)
Definition lower (s : str) : str :=
  if forallb is_ascii s then map ascii_lower s else unicode_lower s.

End WithLibs.

(** [s.strip()] *)
Fixpoint dropwhile (p : char -> bool) (s : str) : str :=
  match s with
  | [] => []
  | c :: s' => if p c then dropwhile p s' else s
  end.

Definition lstrip (s : str) : str := dropwhile isspace s.
Definition rstrip (s : str) : str := reverse (dropwhile isspace (reverse s)).
Definition strip (s : str) : str := rstrip (lstrip s).

(** [re.sub(r'\s+', ' ', text)]: every maximal run of white space becomes
    one space. *)
Fixpoint collapse_spaces (in_run : bool) (s : str) : str :=
  match s with
  | [] => []
  | c :: s' =>
      if isspace c
      then (if in_run then collapse_spaces true s'
            else 32%N :: collapse_spaces true s')
      else c :: collapse_spaces false s'
  end.

(** [re.split(r'[.!?]', content)] and [re.split(r'[.!?]+', content)]. *)
Definition is_terminator (c : char) : bool :=
  (c =? 46)%N || (c =? 33)%N || (c =? 63)%N.

(** [split_each cur s]: [cur] holds, reversed, the characters of the piece
    being read. *)
Fixpoint split_each (cur : str) (s : str) : list str :=
  match s with
  | [] => [reverse cur]
  | c :: s' =>
      if is_terminator c then reverse cur :: split_each [] s'
      else split_each (c :: cur) s'
  end.

Fixpoint split_runs (in_run : bool) (cur : str) (s : str) : list str :=
  match s with
  | [] => [reverse cur]
  | c :: s' =>
      if is_terminator c
      then (if in_run then split_runs true cur s'
            else reverse cur :: split_runs true [] s')
      else split_runs false (c :: cur) s'
  end.

End Text.

Import Text.

(** ** Languages *)

Inductive Language := th | en | mixed.

#[global] Instance Language_eq_dec : EqDecision Language.
Proof. solve_decision. Defined.

(** ** NLPProcessor *)

Module NLPProcessor.

(** [[ก-ฮ]]: U+0E01 .. U+0E2E. *)
Definition is_thai_char (c : char) : bool := in_range 3585 3630 c.

(** [[a-zA-Z]] *)
Definition is_english_char (c : char) : bool :=
  in_range 97 122 c || in_range 65 90 c.

Definition thai_chars (text : str) : nat := length (filter is_thai_char text).
Definition english_chars (text : str) : nat :=
  length (filter is_english_char text).

Definition _detect_language (text : str) : Language :=
  if english_chars text <? thai_chars text then th
  else if thai_chars text <? english_chars text then en
  else mixed.

End NLPProcessor.

(** ** Data model *)

(** A [datetime.datetime]: the local calendar fields and the UTC offset of
    its [tzinfo] in seconds, [None] for a naive value. *)
Record datetime := {
  year : Z; month : Z; day : Z;
  hour : Z; minute : Z; second : Z; microsecond : Z;
  utcoffset : option Z
}.

(** An entry of [keywords]: a [{'keyword': .., 'score': ..}] dict, or a bare
    string (the branch [isinstance(kw, dict)] of the code is false). *)
Inductive Keyword :=
  | KwDict (keyword : str) (score : Q)
  | KwStr (s : str).

Record ContentDate := {
  date_string : str;
  parsed_date : datetime;
  position : nat
}.

(** The enriched article, with the keys the comparator and the timeline
    generator read, and [timeline_date], the key the timeline generator
    writes ([None]: the key is absent). *)
Record Article := {
  _id : option str;
  url : str;
  source : str;
  title : str;
  content : str;
  published_date : option datetime;
  scraped_at : option datetime;
  language : Language;
  tokens : list str;
  entities : gmap str (list str);
  keywords : list Keyword;
  content_dates : list ContentDate;
  word_count : nat;
  timeline_date : option datetime
}.

(** [sum(len(entities) for entities in entities.values())], which both
    services compute. *)
Definition total_entities (entities : gmap str (list str)) : nat :=
  sum_list (length <$> (map_to_list entities).*2).

Definition Qnat (n : nat) : Q := inject_Z (Z.of_nat n).

(** ** SimilarityAnalyzer *)

Module SimilarityAnalyzer.

Inductive polarity := POSITIVE | NEGATIVE | NEUTRAL.

(** [self.sentiment_keywords[polarity][language]]; the inner dicts have the
    keys ['th'] and ['en'] only, any other key raises [KeyError]. *)
Definition sentiment_keywords (p : polarity) (l : Language)
  : option (list str) :=
  match l, p with
  | th, POSITIVE => Some
      [[3604; 3637]; [3626; 3635; 3648; 3619; 3655; 3592];
       [3611; 3619; 3632; 3626; 3610; 3612; 3621; 3626; 3635; 3648; 3619;
        3655; 3592];
       [3585; 3657; 3634; 3623; 3627; 3609; 3657; 3634];
       [3614; 3633; 3602; 3609; 3634]; [3648; 3592; 3619; 3636; 3597];
       [3618; 3636; 3609; 3604; 3637]; [3594; 3639; 3656; 3609; 3594; 3617]]%N
  | en, POSITIVE => Some
      [lit "good"; lit "great"; lit "excellent"; lit "successful";
       lit "positive"; lit "progress"; lit "development"; lit "achievement"]
  | th, NEGATIVE => Some
      [[3649; 3618; 3656]; [3621; 3657; 3617; 3648; 3627; 3621; 3623];
       [3648; 3626; 3637; 3618; 3627; 3634; 3618]; [3623; 3636; 3585; 3620; 3605];
       [3611; 3633; 3597; 3627; 3634]; [3629; 3633; 3609; 3605; 3619; 3634; 3618];
       [3648; 3626; 3637; 3618; 3651; 3592]; [3650; 3585; 3619; 3608]]%N
  | en, NEGATIVE => Some
      [lit "bad"; lit "terrible"; lit "failed"; lit "crisis"; lit "problem";
       lit "danger"; lit "sad"; lit "angry"; lit "negative"]
  | th, NEUTRAL => Some
      [[3611; 3585; 3605; 3636]; [3608; 3619; 3619; 3617; 3604; 3634];
       [3648; 3593; 3618; 3654]; [3588; 3591; 3607; 3637; 3656]]%N
  | en, NEUTRAL => Some
      [lit "normal"; lit "ordinary"; lit "neutral"; lit "stable";
       lit "unchanged"]
  | mixed, _ => None
  end.

Record Sentiment := { positive : Q; neutral : Q; negative : Q }.

Record SentimentComparison := {
  sc_article1 : Sentiment;
  sc_article2 : Sentiment;
  sentiment_difference : Sentiment
}.

Record EntityComparison := {
  common_entities : list str;
  different_entities1 : list str;
  different_entities2 : list str;
  entity_similarity : Q;
  ec_total_common : nat;
  ec_total_different_1 : nat;
  ec_total_different_2 : nat
}.

Record KeywordComparison := {
  common_keywords : list str;
  different_keywords1 : list str;
  different_keywords2 : list str;
  keyword_similarity : Q;
  kc_total_common : nat;
  kc_total_different_1 : nat;
  kc_total_different_2 : nat
}.

Inductive difference_type := removed | added.

#[global] Instance difference_type_eq_dec : EqDecision difference_type.
Proof. solve_decision. Defined.

Record Difference := {
  d_type : difference_type;
  d_text : str;
  d_article : nat
}.

(** [comparison_metadata] without [compared_at], a reading of the clock. *)
Record Metadata := {
  article1_id : option str;
  article2_id : option str;
  article1_source : str;
  article2_source : str
}.

Record ComparisonResult := {
  similarity_score : Q;
  content_similarity : Q;
  entity_comparison : EntityComparison;
  keyword_comparison : KeywordComparison;
  sentiment_analysis : SentimentComparison;
  content_differences : list Difference;
  comparison_metadata : Metadata
}.

Record PairComparison := {
  article1_index : nat;
  article2_index : nat;
  pc_similarity_score : Q;
  comparison : ComparisonResult
}.

Record Distribution := { high : nat; medium : nat; low : nat }.

Record MultiComparison := {
  comparisons : list PairComparison;
  similarity_matrix : list (list Q);
  most_similar_pair : PairComparison;
  most_different_pair : PairComparison;
  average_similarity : Q;
  similarity_distribution : Distribution
}.

(** What [compare_multiple_articles] returns: the [{'error': ..}] dict or
    the full result. *)
Inductive MultiResult :=
  | MultiError (msg : str)
  | MultiOk (r : MultiComparison).

Definition Qsum (l : list Q) : Q := foldr Qplus 0%Q l.

Definition Qabs_diff (x y : Q) : Q := Qabs (x - y).

Section WithLibs.
Context `{PyLibs}.

Definition _preprocess_text (text : str) (language : Language) : str :=
  match text with
  | [] => []
  | _ =>
      let text := collapse_spaces false text in
      let text :=
        map (fun c => if negb (is_word c || isspace c) then 32%N else c) text in
      strip (lower text)
  end.

Definition _calculate_content_similarity
    (content1 content2 : str) (language : Language) : Q :=
  match content1, content2 with
  | [], _ | _, [] => 0%Q
  | _, _ =>
      let processed_content1 := _preprocess_text content1 language in
      let processed_content2 := _preprocess_text content2 language in
      match processed_content1, processed_content2 with
      | [], _ | _, [] => 0%Q
      | _, _ =>
          match tfidf_cosine (bool_decide (language = en))
                  processed_content1 processed_content2 with
          | Some similarity => similarity
          | None => 0%Q
          end
      end
  end.

End WithLibs.

(** [set(entities.get(entity_type, []))] *)
Definition entity_set (entities : gmap str (list str)) (entity_type : str)
  : gset str :=
  list_to_set (default [] (entities !! entity_type)).

Definition _compare_entities (entities1 entities2 : gmap str (list str))
  : EntityComparison :=
  let all_entity_types := elements (dom entities1 ∪ dom entities2) in
  let common_entities :=
    all_entity_types ≫= (fun t =>
      elements (entity_set entities1 t ∩ entity_set entities2 t)) in
  let different1 :=
    all_entity_types ≫= (fun t =>
      elements (entity_set entities1 t ∖ entity_set entities2 t)) in
  let different2 :=
    all_entity_types ≫= (fun t =>
      elements (entity_set entities2 t ∖ entity_set entities1 t)) in
  let total_entities_1 := total_entities entities1 in
  let total_entities_2 := total_entities entities2 in
  let total := total_entities_1 + total_entities_2 in
  let entity_similarity :=
    if 0 <? total
    then (Qnat (2 * length common_entities) / Qnat total)%Q
    else 0%Q in
  {| common_entities := common_entities;
     different_entities1 := different1;
     different_entities2 := different2;
     entity_similarity := entity_similarity;
     ec_total_common := length common_entities;
     ec_total_different_1 := length different1;
     ec_total_different_2 := length different2 |}.

Definition keyword_string (kw : Keyword) : str :=
  match kw with
  | KwDict keyword _ => keyword
  | KwStr s => s
  end.

(** The set built by the two loops of [_compare_keywords], after the
    comprehension [{kw for kw in keywords if kw.strip()}]. *)
Definition keyword_set (keywords : list Keyword) : gset str :=
  filter (fun kw => strip kw ≠ []) (list_to_set (keyword_string <$> keywords)).

Definition _compare_keywords (keywords1 keywords2 : list Keyword)
  : KeywordComparison :=
  let keywords_1 := keyword_set keywords1 in
  let keywords_2 := keyword_set keywords2 in
  let common_keywords := elements (keywords_1 ∩ keywords_2) in
  let different1 := elements (keywords_1 ∖ keywords_2) in
  let different2 := elements (keywords_2 ∖ keywords_1) in
  let total_keywords := size keywords_1 + size keywords_2 in
  let keyword_similarity :=
    if 0 <? total_keywords
    then (Qnat (2 * length common_keywords) / Qnat total_keywords)%Q
    else 0%Q in
  {| common_keywords := common_keywords;
     different_keywords1 := different1;
     different_keywords2 := different2;
     keyword_similarity := keyword_similarity;
     kc_total_common := length common_keywords;
     kc_total_different_1 := length different1;
     kc_total_different_2 := length different2 |}.

Section WithLibs.
Context `{PyLibs}.

(** *** Whole-word counting: [len(re.findall(r'\b' + re.escape(kw) + r'\b', text))] *)

Definition is_word_at (c : option char) : bool :=
  match c with
  | Some c => is_word c
  | None => false
  end.

(** [\b] holds between two neighbours exactly when one of them is a word
    character and the other is not (or is an end of the string). *)
Definition word_boundary (before after : option char) : bool :=
  xorb (is_word_at before) (is_word_at after).

Fixpoint starts_with (kw s : str) : bool :=
  match kw, s with
  | [], _ => true
  | k :: kw', c :: s' => (k =? c)%N && starts_with kw' s'
  | _ :: _, [] => false
  end.

Definition match_here (kw : str) (before : option char) (s : str) : bool :=
  word_boundary before (head s)
  && starts_with kw s
  && word_boundary (last kw) (head (drop (length kw) s)).

(** The scan of [re.findall]: leftmost matches, the search resuming at the
    end of each match; [skip] counts the characters of the current match
    still to be passed over, [before] is the character just read. *)
Fixpoint findall_count (kw : str) (before : option char) (skip : nat)
    (s : str) : nat :=
  match s with
  | [] => 0
  | c :: s' =>
      match skip with
      | S k => findall_count kw (Some c) k s'
      | O =>
          if match_here kw before s
          then S (findall_count kw (Some c) (length kw - 1) s')
          else findall_count kw (Some c) 0 s'
      end
  end.

Definition count_keywords (kws : list str) (content_lower : str) : nat :=
  sum_list ((fun kw => findall_count (lower kw) None 0 content_lower) <$> kws).

Definition _analyze_sentiment (content : str) (language : Language)
  : option Sentiment :=
  match content with
  | [] => Some {| positive := 0.0%Q; neutral := 1.0%Q; negative := 0.0%Q |}
  | _ =>
      let content_lower := lower content in
      kws ← sentiment_keywords POSITIVE language;
      let positive_count := count_keywords kws content_lower in
      kws ← sentiment_keywords NEGATIVE language;
      let negative_count := count_keywords kws content_lower in
      kws ← sentiment_keywords NEUTRAL language;
      let neutral_count := count_keywords kws content_lower in
      let total_sentiment_words :=
        positive_count + negative_count + neutral_count in
      if total_sentiment_words =? 0
      then Some {| positive := 0.3%Q; neutral := 0.4%Q; negative := 0.3%Q |}
      else Some
        {| positive := (Qnat positive_count / Qnat total_sentiment_words)%Q;
           neutral := (Qnat neutral_count / Qnat total_sentiment_words)%Q;
           negative := (Qnat negative_count / Qnat total_sentiment_words)%Q |}
  end.

Definition _analyze_sentiment_comparison
    (content1 content2 : str) (language : Language)
  : option SentimentComparison :=
  sentiment1 ← _analyze_sentiment content1 language;
  sentiment2 ← _analyze_sentiment content2 language;
  Some {| sc_article1 := sentiment1;
          sc_article2 := sentiment2;
          sentiment_difference :=
            {| positive := Qabs_diff (positive sentiment1) (positive sentiment2);
               neutral := Qabs_diff (neutral sentiment1) (neutral sentiment2);
               negative :=
                 Qabs_diff (negative sentiment1) (negative sentiment2) |} |}.

End WithLibs.

Definition _split_sentences (content : str) (language : Language)
  : list str :=
  let sentences :=
    if bool_decide (language = th) then split_each [] content
    else split_runs false [] content in
  strip <$> filter (fun s => 10 <? length (strip s)) sentences.

Section WithLibs.
Context `{PyLibs}.

(** [list(only_in)[:5]] filtered and wrapped: the first five sentences in
    the iteration order of the set, those longer than 30 characters kept. *)
Definition significant (kind : difference_type) (article : nat)
    (only_in : gset str) : list Difference :=
  (fun sentence =>
     {| d_type := kind; d_text := strip sentence; d_article := article |})
  <$> filter (fun sentence => 30 <? length (strip sentence))
        (take 5 (set_iteration only_in)).

Definition _find_content_differences
    (content1 content2 : str) (language : Language) : list Difference :=
  let sentences1 := _split_sentences content1 language in
  let sentences2 := _split_sentences content2 language in
  let set1 : gset str := list_to_set sentences1 in
  let set2 : gset str := list_to_set sentences2 in
  significant removed 1 (set1 ∖ set2) ++ significant added 2 (set2 ∖ set1).

End WithLibs.

Definition _calculate_overall_similarity
    (content_sim entity_sim keyword_sim : Q) : Q :=
  let overall :=
    (content_sim * 0.5 + entity_sim * 0.3 + keyword_sim * 0.2)%Q in
  Qmin (Qmax overall 0.0%Q) 1.0%Q.

Section WithLibs.
Context `{PyLibs}.

Definition compare_articles (article1 article2 : Article)
  : option ComparisonResult :=
  let content_similarity :=
    _calculate_content_similarity
      (content article1) (content article2) (language article1) in
  let entity_comparison :=
    _compare_entities (entities article1) (entities article2) in
  let keyword_comparison :=
    _compare_keywords (keywords article1) (keywords article2) in
  sentiment_analysis ←
    _analyze_sentiment_comparison
      (content article1) (content article2) (language article1);
  let content_differences :=
    _find_content_differences
      (content article1) (content article2) (language article1) in
  let overall_similarity :=
    _calculate_overall_similarity content_similarity
      (entity_similarity entity_comparison)
      (keyword_similarity keyword_comparison) in
  Some {| similarity_score := overall_similarity;
          content_similarity := content_similarity;
          entity_comparison := entity_comparison;
          keyword_comparison := keyword_comparison;
          sentiment_analysis := sentiment_analysis;
          content_differences := content_differences;
          comparison_metadata :=
            {| article1_id := _id article1;
               article2_id := _id article2;
               article1_source := source article1;
               article2_source := source article2 |} |}.

(** [similarity_matrix[i][j] = v] *)
Definition set_cell (m : list (list Q)) (i j : nat) (v : Q)
  : list (list Q) :=
  alter (fun row => <[j:=v]> row) i m.

(** The index pairs the two nested [for] loops visit, in order. *)
Definition index_pairs (n : nat) : list (nat * nat) :=
  i ← seq 0 n; j ← seq (i + 1) (n - (i + 1)); [(i, j)].

(** The body of the inner loop run over the pairs still to visit. *)
Fixpoint compare_pairs (articles : list Article) (pairs : list (nat * nat))
    (comparisons : list PairComparison) (similarity_matrix : list (list Q))
  : option (list PairComparison * list (list Q)) :=
  match pairs with
  | [] => Some (comparisons, similarity_matrix)
  | (i, j) :: pairs' =>
      article_i ← articles !! i;
      article_j ← articles !! j;
      comparison ← compare_articles article_i article_j;
      let similarity_score := similarity_score comparison in
      let similarity_matrix := set_cell similarity_matrix i j similarity_score in
      let similarity_matrix := set_cell similarity_matrix j i similarity_score in
      compare_pairs articles pairs'
        (comparisons ++
           [{| article1_index := i;
               article2_index := j;
               pc_similarity_score := similarity_score;
               comparison := comparison |}])
        similarity_matrix
  end.

End WithLibs.

Definition Qlt_bool (x y : Q) : bool := negb (Qle_bool y x).

(** [np.argmax] / [np.argmin]: the first index of an extreme element. *)
Fixpoint arg_best (better : Q -> Q -> bool) (l : list Q)
    (i best_i : nat) (best : Q) : nat :=
  match l with
  | [] => best_i
  | x :: l' =>
      if better x best then arg_best better l' (S i) i x
      else arg_best better l' (S i) best_i best
  end.

Definition argmax (l : list Q) : option nat :=
  match l with
  | [] => None
  | x :: l' => Some (arg_best (fun x best => Qlt_bool best x) l' 1 0 x)
  end.

Definition argmin (l : list Q) : option nat :=
  match l with
  | [] => None
  | x :: l' => Some (arg_best (fun x best => Qlt_bool x best) l' 1 0 x)
  end.

Section WithLibs.
Context `{PyLibs}.

Definition compare_multiple_articles (articles : list Article)
  : option MultiResult :=
  let n := length articles in
  if n <? 2
  then Some (MultiError (lit "Need at least 2 articles for comparison"))
  else
    '(comparisons, similarity_matrix) ←
      compare_pairs articles (index_pairs n) []
        (replicate n (replicate n 0%Q));
    let similarities := pc_similarity_score <$> comparisons in
    most_similar_idx ← argmax similarities;
    most_different_idx ← argmin similarities;
    most_similar_pair ← comparisons !! most_similar_idx;
    most_different_pair ← comparisons !! most_different_idx;
    Some (MultiOk
      {| comparisons := comparisons;
         similarity_matrix := similarity_matrix;
         most_similar_pair := most_similar_pair;
         most_different_pair := most_different_pair;
         average_similarity :=
           (Qsum similarities / Qnat (length similarities))%Q;
         similarity_distribution :=
           {| high := length (filter (fun s => Qlt_bool 0.7%Q s) similarities);
              medium :=
                length (filter (fun s => Qle_bool 0.3%Q s && Qle_bool s 0.7%Q)
                          similarities);
              low := length (filter (fun s => Qlt_bool s 0.3%Q) similarities)
           |} |}).

End WithLibs.

End SimilarityAnalyzer.

(** ** TimelineGenerator *)

Module TimelineGenerator.

(** *** Ordering of [datetime] values, as [datetime.__lt__] decides it *)

Definition _days_before_year (y : Z) : Z :=
  let y := (y - 1)%Z in (y * 365 + y / 4 - y / 100 + y / 400)%Z.

Definition _is_leap (y : Z) : bool :=
  ((y mod 4 =? 0) && (negb (y mod 100 =? 0) || (y mod 400 =? 0)))%Z.

Definition _days_before_month (y m : Z) : Z :=
  (nth (Z.to_nat m) [0; 0; 31; 59; 90; 120; 151; 181; 212; 243; 273; 304; 334] 0
   + (if (2 <? m) && _is_leap y then 1 else 0))%Z.

Definition toordinal (d : datetime) : Z :=
  (_days_before_year (year d) + _days_before_month (year d) (month d)
   + day d)%Z.

Definition fields (d : datetime) : list Z :=
  [year d; month d; day d; hour d; minute d; second d; microsecond d].

(** Comparison of two tuples of integers. *)
Fixpoint tuple_cmp (a b : list Z) : comparison :=
  match a, b with
  | [], [] => Eq
  | [], _ :: _ => Lt
  | _ :: _, [] => Gt
  | x :: a', y :: b' =>
      match (x ?= y)%Z with
      | Eq => tuple_cmp a' b'
      | c => c
      end
  end.

(** Microseconds since the start of year 1 of the instant, in UTC. *)
Definition utc_microseconds (d : datetime) (offset : Z) : Z :=
  (((toordinal d * 86400 + hour d * 3600 + minute d * 60 + second d) - offset)
   * 1000000 + microsecond d)%Z.

(** [datetime._cmp]: equal offsets (two naive values included) compare the
    local fields; a naive and an aware value raise [TypeError]; two aware
    values with different offsets compare their instants. *)
Definition datetime_cmp (a b : datetime) : option comparison :=
  if decide (utcoffset a = utcoffset b)
  then Some (tuple_cmp (fields a) (fields b))
  else
    match utcoffset a, utcoffset b with
    | Some offset_a, Some offset_b =>
        Some (utc_microseconds a offset_a ?= utc_microseconds b offset_b)%Z
    | _, _ => None
    end.

Definition datetime_lt (a b : datetime) : option bool :=
  (fun c => bool_decide (c = Lt)) <$> datetime_cmp a b.

(** The day key [d.strftime('%Y-%m-%d')], represented by the calendar day
    it spells. *)
Abbreviation date_key := (Z * Z * Z)%type (only parsing).

Definition strftime_ymd (d : datetime) : date_key := (year d, month d, day d).

(** *** Configuration *)

Definition entities_count_weight : Q := 0.3.
Definition keywords_count_weight : Q := 0.2.
Definition content_length_weight : Q := 0.2.
Definition source_credibility_weight : Q := 0.3.

Definition source_credibility_table : list (str * Q) :=
  [(lit "Bangkok Post", 0.9); (lit "The Nation Thailand", 0.9);
   (lit "Thai PBS", 0.95); (lit "Thairath", 0.8); (lit "Khaosod", 0.8);
   (lit "Matichon", 0.85); (lit "Manager", 0.7); (lit "Sanook", 0.6);
   (lit "Kapook", 0.6); (lit "Daily News", 0.7)]%Q.

Definition source_credibility : gmap str Q :=
  list_to_map source_credibility_table.

(** *** Results *)

(** The [id] of an article reference: the stored [_id], or the fallback
    [f"article_{i}"], represented by [i]. *)
Inductive ArticleId :=
  | StoredId (s : str)
  | PositionalId (i : nat).

Record ArticleRef := {
  ref_id : ArticleId;
  ref_title : str;
  ref_source : str;
  ref_url : str
}.

(** A timeline event. The keys [title], [description], [entities] and
    [keywords], which are computed from the group by functions that cannot
    raise and that nothing else reads, are left out. *)
Record TimelineEvent := {
  event_id : nat;
  date : date_key;
  intensity : Q;
  sources : list str;
  article_count : nat;
  articles : list ArticleRef
}.

(** The timeline, with [events] and [total_articles]; [chart_data],
    [statistics], [date_range] and [generated_at] are left out. *)
Record Timeline := {
  events : list TimelineEvent;
  total_articles : nat
}.

(** *** Date resolution, filtering and sorting *)

(** The chain [if published_date / elif content_dates / elif scraped_at] of
    [_filter_and_sort_articles]. *)
Definition resolve_date (article : Article) : option datetime :=
  match published_date article with
  | Some d => Some d
  | None =>
      match content_dates article with
      | first :: _ => Some (parsed_date first)
      | [] => scraped_at article
      end
  end.

(** [article['timeline_date'] = article_date] *)
Definition set_timeline_date (article_date : datetime) (article : Article)
  : Article :=
  {| _id := _id article;
     url := url article;
     source := source article;
     title := title article;
     content := content article;
     published_date := published_date article;
     scraped_at := scraped_at article;
     language := language article;
     tokens := tokens article;
     entities := entities article;
     keywords := keywords article;
     content_dates := content_dates article;
     word_count := word_count article;
     timeline_date := Some article_date |}.

(** The loop of [_filter_and_sort_articles]. It returns the articles of the
    caller as the loop leaves them (the assignment to [timeline_date] is
    made on the caller's dict) and the list [dated_articles]. *)
Fixpoint date_articles (articles : list Article)
  : list Article * list Article :=
  match articles with
  | [] => ([], [])
  | article :: rest =>
      let '(rest', dated_articles) := date_articles rest in
      match resolve_date article with
      | Some article_date =>
          let article' := set_timeline_date article_date article in
          (article' :: rest', article' :: dated_articles)
      | None => (article :: rest', dated_articles)
      end
  end.

(** [sorted(dated_articles, key=lambda x: x['timeline_date'])]: a stable
    sort that only asks [<] of the keys; it raises what a comparison
    raises. *)
Fixpoint insert_by_date (x : Article) (key_x : datetime) (s : list Article)
  : option (list Article) :=
  match s with
  | [] => Some [x]
  | y :: s' =>
      key_y ← timeline_date y;
      y_first ← datetime_lt key_y key_x;
      if (y_first : bool)
      then s'' ← insert_by_date x key_x s'; Some (y :: s'')
      else Some (x :: y :: s')
  end.

Fixpoint sorted_by_timeline_date (l : list Article) : option (list Article) :=
  match l with
  | [] => Some []
  | x :: l' =>
      s ← sorted_by_timeline_date l';
      key_x ← timeline_date x;
      insert_by_date x key_x s
  end.

Definition _filter_and_sort_articles (articles : list Article)
  : list Article * option (list Article) :=
  let '(articles', dated_articles) := date_articles articles in
  (articles', sorted_by_timeline_date dated_articles).

(** *** Grouping *)

(** [date_groups[date_key].append(article)] on a dict that keeps the order
    in which its keys were first inserted. *)
Fixpoint group_append (key : date_key) (article : Article)
    (date_groups : list (date_key * list Article))
  : list (date_key * list Article) :=
  match date_groups with
  | [] => [(key, [article])]
  | (k, group) :: date_groups' =>
      if decide (k = key) then (k, group ++ [article]) :: date_groups'
      else (k, group) :: group_append key article date_groups'
  end.

Fixpoint group_loop (articles : list Article)
    (date_groups : list (date_key * list Article))
  : option (list (date_key * list Article)) :=
  match articles with
  | [] => Some date_groups
  | article :: rest =>
      d ← timeline_date article;
      group_loop rest (group_append (strftime_ymd d) article date_groups)
  end.

Definition _group_articles_by_date (articles : list Article)
  : option (list (date_key * list Article)) :=
  group_loop articles [].

(** *** Intensity *)

Definition article_score (article : Article) : Q :=
  let score := 0.0%Q in
  let entity_count := total_entities (entities article) in
  let score := (score + Qnat entity_count * entities_count_weight)%Q in
  let keyword_count := length (keywords article) in
  let score := (score + Qnat keyword_count * keywords_count_weight)%Q in
  let content_length := word_count article in
  let normalized_length := Qmin (Qnat content_length / 1000) 1.0%Q in
  let score := (score + normalized_length * content_length_weight)%Q in
  let credibility := default 0.5%Q (source_credibility !! source article) in
  (score + credibility * source_credibility_weight)%Q.

Definition _calculate_event_intensity (articles : list Article) : Q :=
  match articles with
  | [] => 0.0%Q
  | _ =>
      let total_score :=
        foldl (fun total article => (total + article_score article)%Q)
          0.0%Q articles in
      let average_score := (total_score / Qnat (length articles))%Q in
      Qmin (average_score * 2) 10.0%Q
  end.

(** *** Events *)

Definition article_ref (i : nat) (article : Article) : ArticleRef :=
  {| ref_id := match _id article with
               | Some s => StoredId s
               | None => PositionalId i
               end;
     ref_title := title article;
     ref_source := source article;
     ref_url := url article |}.

Definition timeline_event (i : nat) (group : date_key * list Article)
  : TimelineEvent :=
  let '(date_str, articles) := group in
  {| event_id := S i;
     date := date_str;
     intensity := _calculate_event_intensity articles;
     sources := elements (list_to_set (source <$> articles) : gset str);
     article_count := length articles;
     articles := imap article_ref articles |}.

Definition _extract_timeline_events
    (date_groups : list (date_key * list Article)) : list TimelineEvent :=
  imap timeline_event date_groups.

(** [generate_timeline] returns its result next to the state in which it
    leaves the articles it was given. *)
Definition generate_timeline (processed_articles : list Article)
  : list Article * option Timeline :=
  let '(articles', sorted_articles) :=
    _filter_and_sort_articles processed_articles in
  (articles',
   dated_articles ← sorted_articles;
   date_groups ← _group_articles_by_date dated_articles;
   let timeline_events := _extract_timeline_events date_groups in
   Some {| events := timeline_events;
           total_articles := length processed_articles |}).

(** ** The rest of the result: merged entities and keywords, chart,
    statistics and date range *)

(** *** Counters and sorting *)

(** [counts[key] += amount] on a [defaultdict] whose missing entries are
    [zero]: the entry of a key already there is updated in place, a new key
    goes to the end. *)
Fixpoint add_to {V} (plus : V -> V -> V) (zero : V) (key : str) (amount : V)
    (counts : list (str * V)) : list (str * V) :=
  match counts with
  | [] => [(key, plus zero amount)]
  | (k, v) :: counts' =>
      if decide (k = key) then (k, plus v amount) :: counts'
      else (k, v) :: add_to plus zero key amount counts'
  end.

(** [sorted(l, key=...)], with or without [reverse=True]: a stable sort,
    in which an element goes behind those that strictly precede it and
    stays ahead of the later elements it ties with. *)
Fixpoint insert_stable {A} (precedes : A -> A -> bool) (x : A) (s : list A)
  : list A :=
  match s with
  | [] => [x]
  | y :: s' =>
      if precedes y x then y :: insert_stable precedes x s' else x :: y :: s'
  end.

Definition sorted_stable {A} (precedes : A -> A -> bool) (l : list A)
  : list A :=
  foldr (insert_stable precedes) [] l.

(** The order of [sorted(items, key=lambda x: x[1], reverse=True)]. *)
Definition higher_count (y x : str * nat) : bool := x.2 <? y.2.
Definition higher_score (y x : str * Q) : bool := SimilarityAnalyzer.Qlt_bool x.2 y.2.

(** *** Merged entities and keywords *)

(** The loop that counts the entities of the articles, type by type, as
    [_merge_entities] and [_generate_statistics] both run it. A dict
    lists its keys in the order of their insertion, which the finite map
    of the model does not keep: the types of an article are visited in the
    order of [map_to_list], which matters only for the order among
    entities that are listed equally often. *)
Definition count_entity_list (entity_counts : list (str * nat))
    (entity_list : list str) : list (str * nat) :=
  foldl (fun entity_counts entity => add_to Nat.add 0 entity 1 entity_counts)
    entity_counts entity_list.

Definition count_article_entities (entity_counts : list (str * nat))
    (article : Article) : list (str * nat) :=
  foldl (fun entity_counts '(entity_type, entity_list) =>
           count_entity_list entity_counts entity_list)
    entity_counts (map_to_list (entities article)).

Definition _merge_entities (articles : list Article) : list str :=
  let entity_counts := foldl count_article_entities [] articles in
  let sorted_entities := sorted_stable higher_count entity_counts in
  (take 15 sorted_entities).*1.

(** The keyword and the score read from an entry of [keywords]. *)
Definition keyword_and_score (keyword_data : Keyword) : str * Q :=
  match keyword_data with
  | KwDict keyword score => (keyword, score)
  | KwStr s => (s, 1.0%Q)
  end.

Definition score_article_keywords (keyword_scores : list (str * Q))
    (article : Article) : list (str * Q) :=
  foldl (fun keyword_scores keyword_data =>
           let '(keyword, score) := keyword_and_score keyword_data in
           add_to Qplus 0.0%Q keyword score keyword_scores)
    keyword_scores (keywords article).

Definition _merge_keywords (articles : list Article) : list Keyword :=
  let keyword_scores := foldl score_article_keywords [] articles in
  let sorted_keywords := sorted_stable higher_score keyword_scores in
  (fun '(keyword, score) => KwDict keyword score) <$> sorted_keywords.

(** *** The day as the string [strftime('%Y-%m-%d')] returns *)

Definition digit (n : Z) : N := (48 + Z.to_N n)%N.

(** [%m] and [%d]: two digits. *)
Definition two_digits (n : Z) : str := [digit (n / 10); digit (n mod 10)].

(** [%Y]: the year in decimal. For a year below 1000 the C library decides
    whether zeros are put in front; none is put here, as glibc does. *)
Fixpoint decimal_digits (fuel : nat) (n : Z) (acc : str) : str :=
  match fuel with
  | O => acc
  | S fuel' =>
      let acc := digit (n mod 10) :: acc in
      if (n / 10 =? 0)%Z then acc else decimal_digits fuel' (n / 10) acc
  end.

Definition decimal (n : Z) : str :=
  decimal_digits (S (Z.to_nat (Z.log2 n))) n [].

Definition date_string (key : Z * Z * Z) : str :=
  let '(y, m, d) := key in
  decimal y ++ [45%N] ++ two_digits m ++ [45%N] ++ two_digits d.

(** [a < b] on two [str]: the order of the code points, a proper prefix
    coming first. *)
Fixpoint str_lt (a b : str) : bool :=
  match a, b with
  | _, [] => false
  | [], _ :: _ => true
  | x :: a', y :: b' => (x <? y)%N || ((x =? y)%N && str_lt a' b')
  end.

(** *** Chart data *)

(** The [data] of a dataset: the intensities, numbers, or the article
    counts, integers. *)
Inductive Series :=
  | Intensities (data : list Q)
  | ArticleCounts (data : list nat).

(** A dataset, without its colours and its [tension], which are
    constants. *)
Record Dataset := {
  ds_label : str;
  ds_data : Series;
  ds_yAxisID : str
}.

Record ChartData := {
  labels : list (Z * Z * Z);
  datasets : list Dataset
}.

(** The order of [sorted(timeline_events, key=lambda x: x['date'])]: that
    of the date strings. *)
Definition earlier_date (y x : TimelineEvent) : bool :=
  str_lt (date_string (date y)) (date_string (date x)).

Definition _generate_chart_data (timeline_events : list TimelineEvent)
  : ChartData :=
  match timeline_events with
  | [] => {| labels := []; datasets := [] |}
  | _ =>
      let sorted_events := sorted_stable earlier_date timeline_events in
      let labels := date <$> sorted_events in
      let intensities := intensity <$> sorted_events in
      let article_counts := article_count <$> sorted_events in
      {| labels := labels;
         datasets :=
           [ {| ds_label := lit "Event Intensity";
                ds_data := Intensities intensities;
                ds_yAxisID := lit "y" |};
             {| ds_label := lit "Article Count";
                ds_data := ArticleCounts article_counts;
                ds_yAxisID := lit "y1" |} ] |}
  end.

(** *** Statistics *)

Record Statistics := {
  total_events : nat;
  stat_total_articles : nat;
  unique_sources : nat;
  top_entities : list (str * nat);
  top_keywords : list (str * Q);
  source_distribution : list (str * nat);
  average_intensity : Q
}.

(** What [_generate_statistics] returns: the empty dict, or the
    statistics. *)
Inductive StatisticsResult :=
  | NoStatistics
  | SomeStatistics (s : Statistics).

Definition _generate_statistics (all_articles : list Article)
    (timeline_events : list TimelineEvent) : StatisticsResult :=
  match all_articles with
  | [] => NoStatistics
  | _ =>
      let '(all_entities, all_keywords, sources) :=
        foldl (fun '(all_entities, all_keywords, sources) article =>
                 (count_article_entities all_entities article,
                  score_article_keywords all_keywords article,
                  add_to Nat.add 0 (source article) 1 sources))
          ([], [], []) all_articles in
      let top_entities := take 10 (sorted_stable higher_count all_entities) in
      let top_keywords := take 10 (sorted_stable higher_score all_keywords) in
      SomeStatistics
        {| total_events := length timeline_events;
           stat_total_articles := length all_articles;
           unique_sources := length sources;
           top_entities := top_entities;
           top_keywords := top_keywords;
           source_distribution := sources;
           average_intensity :=
             match timeline_events with
             | [] => 0%Q
             | _ =>
                 (foldl Qplus 0%Q (intensity <$> timeline_events)
                  / Qnat (length timeline_events))%Q
             end |}
  end.

(** *** Date range *)

Record DateRange := {
  range_start : option (Z * Z * Z);
  range_end : option (Z * Z * Z)
}.

(** [min(dates)] and [max(dates)]: the first date is kept until a later
    one is strictly smaller (strictly greater); a comparison that raises
    makes them raise. *)
Fixpoint min_date (smallest : datetime) (dates : list datetime)
  : option datetime :=
  match dates with
  | [] => Some smallest
  | d :: dates' =>
      c ← datetime_cmp d smallest;
      min_date (if bool_decide (c = Lt) then d else smallest) dates'
  end.

Fixpoint max_date (greatest : datetime) (dates : list datetime)
  : option datetime :=
  match dates with
  | [] => Some greatest
  | d :: dates' =>
      c ← datetime_cmp d greatest;
      max_date (if bool_decide (c = Gt) then d else greatest) dates'
  end.

Definition _get_date_range (articles : list Article) : option DateRange :=
  match articles with
  | [] => Some {| range_start := None; range_end := None |}
  | _ =>
      dates ← mapM timeline_date articles;
      match dates with
      | [] => None
      | d :: dates' =>
          first_date ← min_date d dates';
          last_date ← max_date d dates';
          Some {| range_start := Some (strftime_ymd first_date);
                  range_end := Some (strftime_ymd last_date) |}
      end
  end.

(** *** The whole result *)

(** The dict that [generate_timeline] returns, with the keys that
    [Timeline] leaves out, [generated_at] apart. *)
Record TimelineReport := {
  report_timeline : Timeline;
  chart_data : ChartData;
  statistics : StatisticsResult;
  date_range : DateRange
}.

Definition generate_timeline_report (processed_articles : list Article)
  : list Article * option TimelineReport :=
  let '(articles', sorted_articles) :=
    _filter_and_sort_articles processed_articles in
  (articles',
   dated_articles ← sorted_articles;
   date_groups ← _group_articles_by_date dated_articles;
   let timeline_events := _extract_timeline_events date_groups in
   let chart_data := _generate_chart_data timeline_events in
   let statistics := _generate_statistics articles' timeline_events in
   date_range ← _get_date_range dated_articles;
   Some {| report_timeline :=
             {| events := timeline_events;
                total_articles := length processed_articles |};
           chart_data := chart_data;
           statistics := statistics;
           date_range := date_range |}).

End TimelineGenerator.

Import NLPProcessor SimilarityAnalyzer TimelineGenerator.

(** * Sample data

    Concrete articles and a stand-in for the libraries, on which the
    functions above are run in the examples below. *)

Module Samples.

(** Libraries for the examples: Thai letters and signs count as
    alphanumeric, [lower] leaves non-ASCII text alone, the cosine of a
    document with itself is 1, with another document 0, and a set is
    iterated in the order of [elements]. *)
Definition demo_libs : PyLibs :=
  {| unicode_isalnum := fun c => in_range 3585 3642 c || in_range 3648 3662 c;
     unicode_lower := fun s => s;
     tfidf_cosine := fun _ d1 d2 =>
       Some (if bool_decide (d1 = d2) then 1%Q else 0%Q);
     set_iteration := elements;
     set_iteration_perm := fun _ => reflexivity _ |}.

Definition naive (y m d hh mm : Z) : datetime :=
  {| year := y; month := m; day := d; hour := hh; minute := mm; second := 0;
     microsecond := 0; utcoffset := None |}.

Definition aware (y m d hh mm offset_hours : Z) : datetime :=
  {| year := y; month := m; day := d; hour := hh; minute := mm; second := 0;
     microsecond := 0; utcoffset := Some (offset_hours * 3600)%Z |}.

Definition no_entities : gmap str (list str) :=
  list_to_map [(lit "PERSON", []); (lit "ORGANIZATION", []);
               (lit "LOCATION", []); (lit "MISC", [])].

Definition make_article (source title : string) (content : str)
    (lang : Language) (entities : gmap str (list str))
    (keywords : list Keyword) (published : option datetime) : Article :=
  {| _id := None;
     url := lit "https://example.org/" ++ lit title;
     source := lit source;
     title := lit title;
     content := content;
     published_date := published;
     scraped_at := None;
     language := lang;
     tokens := [];
     entities := entities;
     keywords := keywords;
     content_dates := [];
     word_count := 4;
     timeline_date := None |}.

(** An English article as the enrichment step leaves it: keywords, and no
    entity of any type. *)
Definition english_article : Article :=
  make_article "Bangkok Post" "Flood warning"
    (lit "Flood warning issued for the northern provinces today") en
    no_entities
    [KwDict (lit "flood") 0.5%Q; KwDict (lit "warning") 0.5%Q]
    (Some (naive 2024 1 1 9 0)).

(** A Thai article (a person met in Bangkok, the outcome was good) with one
    person, one place and two keywords. *)
Definition thai_content : str :=
  [3609; 3634; 3618; 3626; 3617; 3594; 3634; 3618; 32; 3611; 3619; 3632; 3594;
   3640; 3617; 3607; 3637; 3656; 3585; 3619; 3640; 3591; 3648; 3607; 3614; 32;
   3612; 3621; 3585; 3634; 3619; 3611; 3619; 3632; 3594; 3640; 3617; 3604;
   3637]%N.

Definition thai_person : str :=
  [3609; 3634; 3618; 3626; 3617; 3594; 3634; 3618]%N.

Definition thai_place : str := [3585; 3619; 3640; 3591; 3648; 3607; 3614]%N.

Definition thai_meeting : str := [3611; 3619; 3632; 3594; 3640; 3617]%N.

Definition thai_article : Article :=
  make_article "Thai PBS" "Cabinet meeting" thai_content th
    (list_to_map [(lit "PERSON", [thai_person]);
                  (lit "LOCATION", [thai_place])])
    [KwDict thai_meeting 0.6%Q; KwDict thai_place 0.4%Q]
    (Some (naive 2024 1 1 18 30)).

(** An article whose only keyword is a blank string. *)
Definition blank_keyword_article : Article :=
  make_article "Sanook" "Untitled" (lit "Nothing to report here") en
    no_entities [KwDict (lit " ") 1%Q] None.

(** An article whose content holds neither a Thai nor a Latin letter, which
    [_detect_language] labels ['mixed']. *)
Definition digits_article : Article :=
  make_article "Kapook" "Lottery" (lit "12 34 56") mixed no_entities [] None.

(** The vectoriser on documents made of English stop words only: with
    [stop_words='english'] no term is left and [fit_transform] raises
    (empty vocabulary); without, the two rows are equal and their cosine
    is 1 when the documents are the same. *)
Definition stopword_libs : PyLibs :=
  {| unicode_isalnum := fun _ => false;
     unicode_lower := fun s => s;
     tfidf_cosine := fun english_stop_words d1 d2 =>
       if english_stop_words then None
       else Some (if bool_decide (d1 = d2) then 1%Q else 0%Q);
     set_iteration := elements;
     set_iteration_perm := fun _ => reflexivity _ |}.

(** Two articles with the same content, two English stop words, one
    labelled English and one labelled Thai. *)
Definition stopwords_en : Article :=
  make_article "Bangkok Post" "Stop words" (lit "the and") en no_entities []
    None.

Definition stopwords_th : Article :=
  make_article "Thairath" "Stop words" (lit "the and") th no_entities []
    None.

(** The Thai word for chair followed by its English translation:
    seven characters of the Thai script, two of them consonants, a space
    and five Latin letters. *)
Definition chair_text : str :=
  [3648; 3585; 3657; 3634; 3629; 3637; 3657; 32; 99; 104; 97; 105; 114]%N.

(** The Thai vowel SARA AA alone. *)
Definition vowel_text : str := [3634]%N.

(** Three articles of 1 and 2 January 2024 whose published dates carry
    a UTC offset: two published in the evening of 1 January, UTC, and one
    published half an hour after midnight of 2 January, Bangkok time, which
    is 17:30 of 1 January, UTC. *)
Definition utc_article (title : string) (d : datetime) : Article :=
  make_article "Bangkok Post" title
    (lit "Parliament passed the budget bill") en
    no_entities [KwDict (lit "budget") 1%Q] (Some d).

Definition evening_utc : Article :=
  utc_article "Budget vote" (aware 2024 1 1 20 0 0).

Definition night_utc : Article :=
  utc_article "Budget passed" (aware 2024 1 1 21 0 0).

Definition midnight_bangkok : Article :=
  make_article "Thai PBS" "Budget reaction"
    (lit "Reaction to the budget vote") en
    no_entities [KwDict (lit "budget") 1%Q] (Some (aware 2024 1 2 0 30 7)).

(** The same three days with naive dates. *)
Definition morning_naive : Article :=
  utc_article "Budget debate" (naive 2024 1 2 8 0).

(** An article with no published date, no date in its content and no time
    of scraping. *)
Definition undated_article : Article :=
  make_article "Sanook" "No date" (lit "An article without any date") en
    no_entities [] None.

(** An article whose only date is the naive time at which it was scraped. *)
Definition scraped_article : Article :=
  {| _id := None;
     url := lit "https://example.org/scraped";
     source := lit "Sanook";
     title := lit "Scraped";
     content := lit "An article dated by its time of scraping";
     published_date := None;
     scraped_at := Some (naive 2024 1 3 10 0);
     language := en;
     tokens := [];
     entities := no_entities;
     keywords := [];
     content_dates := [];
     word_count := 8;
     timeline_date := None |}.

(** Three articles to compare with one another. *)
Definition three_articles : list Article :=
  [english_article; thai_article; english_article].

(** The three articles of 1 and 2 January 2024 whose dates carry an
    offset. *)
Definition offset_articles : list Article :=
  [evening_utc; night_utc; midnight_bangkok].

(** Four articles with naive dates, one of them without any date. *)
Definition naive_articles : list Article :=
  [english_article; thai_article; morning_naive; undated_article].

End Samples.

(** * The specification's formulas

    Definitions written from the specification's words, against which the
    functions above are compared. *)

Module Spec.

(** The credibility of a source: its entry of the fixed table, 0.5 for a
    source the table does not list. *)
Definition spec_credibility (source : str) : Q :=
  default 0.5%Q (source_credibility !! source).

(** [0.3 * entity_count + 0.2 * keyword_count
     + 0.2 * min(word_count / 1000, 1) + 0.3 * source_credibility] *)
Definition spec_article_score (a : Article) : Q :=
  (0.3 * Qnat (total_entities (entities a))
   + 0.2 * Qnat (length (keywords a))
   + 0.2 * Qmin (Qnat (word_count a) / 1000) 1
   + 0.3 * spec_credibility (source a))%Q.



(** Per-type entity lists without repetition. *)
Definition duplicate_free (e : gmap str (list str)) : Prop :=
  map_Forall (fun _ l => NoDup l) e.

(** The Dice coefficient [2 * common / (n1 + n2)], 0 when both sets are
    empty. *)
Definition dice (common n1 n2 : nat) : Q :=
  if n1 + n2 =? 0 then 0%Q else (2 * Qnat common / (Qnat n1 + Qnat n2))%Q.

(** The number of entities of an article: the sizes of its per-type sets
    added up. *)
Definition spec_entity_count (e : gmap str (list str)) : nat :=
  sum_list_with (fun t => size (entity_set e t))
    (elements (dom e)).

(** The number of common entities, counted type by type. *)
Definition spec_common_entities (e1 e2 : gmap str (list str)) : nat :=
  sum_list_with
    (fun t => size (entity_set e1 t
                    ∩ entity_set e2 t))
    (elements (dom e1 ∪ dom e2)).

(** The set of the keyword strings of an article. *)
Definition spec_keyword_strings (kws : list Keyword) : gset str :=
  list_to_set (keyword_string <$> kws).

(** No keyword is empty or made of white space only. *)
Definition no_blank (kws : list Keyword) : Prop :=
  Forall (fun kw => strip (keyword_string kw) <> []) kws.



(** The three shares of a sentiment lie between 0 and 1. *)
Definition shares_in_unit (s : Sentiment) : Prop :=
  (0 <= positive s <= 1 /\ 0 <= neutral s <= 1 /\ 0 <= negative s <= 1)%Q.

(** 1 for true, 0 for false. *)
Definition indicator (b : bool) : Q := if b then 1%Q else 0%Q.

(** The article has at least one entity. *)
Definition has_entities (a : Article) : bool :=
  0 <? spec_entity_count (entities a).

(** The article has at least one keyword that is not blank. *)
Definition has_keywords (a : Article) : bool :=
  0 <? size (keyword_set (keywords a)).

(** [m[i][j]], [None] outside the matrix. *)
Definition cell (m : list (list Q)) (i j : nat) : option Q :=
  row ← m !! i; row !! j.

(** [n] rows of [n] entries. *)
Definition square (n : nat) (m : list (list Q)) : Prop :=
  length m = n /\ Forall (fun row => length row = n) m.

Definition symmetric (m : list (list Q)) : Prop :=
  forall i j, cell m i j = cell m j i.

Definition zero_diagonal (n : nat) (m : list (list Q)) : Prop :=
  forall i, i < n -> cell m i i = Some 0%Q.

(** A character of the Thai script: U+0E01 .. U+0E3A (consonants, vowels
    and vowel signs) and U+0E40 .. U+0E5B (leading vowels, tone marks, digits
    and punctuation). *)
Definition is_thai_script (c : char) : bool :=
  in_range 3585 3642 c || in_range 3648 3675 c.

Definition thai_script_chars (text : str) : nat :=
  length (filter is_thai_script text).

(** The first of the three dates that is present: the published date, else
    the first date found in the content, else the time of scraping. *)
Definition spec_resolved_date (a : Article) : option datetime :=
  head (omap id [published_date a;
                 parsed_date <$> head (content_dates a);
                 scraped_at a]).

(** The two records agree on every key but [timeline_date]. *)
Definition same_but_timeline_date (a a' : Article) : Prop :=
  _id a = _id a' /\ url a = url a' /\ source a = source a'
  /\ title a = title a' /\ content a = content a'
  /\ published_date a = published_date a' /\ scraped_at a = scraped_at a'
  /\ language a = language a' /\ tokens a = tokens a'
  /\ entities a = entities a' /\ keywords a = keywords a'
  /\ content_dates a = content_dates a' /\ word_count a = word_count a'.

(** The two records agree on every key that is not a date. *)
Definition same_but_dates (a a' : Article) : Prop :=
  _id a = _id a' /\ url a = url a' /\ source a = source a'
  /\ title a = title a' /\ content a = content a'
  /\ language a = language a' /\ tokens a = tokens a'
  /\ entities a = entities a' /\ keywords a = keywords a'
  /\ word_count a = word_count a'.

(** The article as the loop of [_filter_and_sort_articles] leaves it. *)
Definition stamped (a : Article) : Article :=
  match resolve_date a with
  | Some d => set_timeline_date d a
  | None => a
  end.

End Spec.

(** * Orders and groups

    Notions in which the properties of the timeline are stated and
    proved. *)

Module Order.

(** The first day is earlier than the second. *)
Definition date_before (k1 k2 : Z * Z * Z) : Prop :=
  (k1.1.1 < k2.1.1
   \/ (k1.1.1 = k2.1.1
       /\ (k1.1.2 < k2.1.2 \/ (k1.1.2 = k2.1.2 /\ k1.2 < k2.2))))%Z.

(** All the dates the articles resolve to carry the same UTC offset, or
    none does. *)
Definition same_offset (offset : option Z) (l : list Article) : Prop :=
  Forall (fun a => forall d, resolve_date a = Some d -> utcoffset d = offset)
    l.

(** The day of the date an article resolves to. *)
Definition resolved_day (a : Article) : option (Z * Z * Z) :=
  strftime_ymd <$> resolve_date a.

(** The first tuple does not come after the second. *)
Definition tuple_le (a b : list Z) : Prop := tuple_cmp a b <> Gt.

(** The first day is the second or an earlier one. *)
Definition day_le (k1 k2 : Z * Z * Z) : Prop :=
  k1 = k2 \/ date_before k1 k2.

(** The article carries a timeline date of the given offset. *)
Definition dated_with (offset : option Z) (a : Article) : Prop :=
  exists d, timeline_date a = Some d /\ utcoffset d = offset.

(** The timeline date of the first article does not come after that of
    the second, as naive dates compare. *)
Definition article_le (a b : Article) : Prop :=
  exists da db,
    timeline_date a = Some da /\ timeline_date b = Some db
    /\ tuple_le (fields da) (fields db).

(** The articles of the group of a day, none when the day has no group. *)
Fixpoint group_of (key : Z * Z * Z)
    (date_groups : list ((Z * Z * Z) * list Article)) : list Article :=
  match date_groups with
  | [] => []
  | (k, group) :: date_groups' =>
      if decide (k = key) then group else group_of key date_groups'
  end.

(** The day of the timeline date of an article. *)
Definition article_day (a : Article) : option (Z * Z * Z) :=
  strftime_ymd <$> timeline_date a.

End Order.

(** * Notions for the results

    What the entries of the records returned say, in the terms of the
    articles given. *)

Module Views.

(** The two indices of an entry of [comparisons]. *)
Definition pair_indices (pc : PairComparison) : nat * nat :=
  (article1_index pc, article2_index pc).

(** The entry holds the comparison of the two articles it names. *)
Definition records_pair `{PyLibs} (articles : list Article)
    (pc : PairComparison) : Prop :=
  exists a1 a2,
    articles !! article1_index pc = Some a1
    /\ articles !! article2_index pc = Some a2
    /\ compare_articles a1 a2 = Some (comparison pc)
    /\ pc_similarity_score pc = similarity_score (comparison pc).

(** The score of the comparison of the articles at two positions, [None]
    when a position is outside the list or the comparison raises. *)
Definition pair_score `{PyLibs} (articles : list Article) (i j : nat)
  : option Q :=
  a1 ← articles !! i; a2 ← articles !! j;
  similarity_score <$> compare_articles a1 a2.

(** The text occurs in the content as a run of consecutive characters. *)
Definition occurs_in (s content : str) : Prop :=
  exists before after, content = before ++ s ++ after.

(** What a difference says about the two lists of sentences: a ['removed']
    one is a sentence of the first list that the second has not, an
    ['added'] one a sentence of the second that the first has not. *)
Definition difference_of (sentences1 sentences2 : list str)
    (d : Difference) : Prop :=
  match d_type d with
  | removed =>
      d_article d = 1 /\ d_text d ∈ sentences1 /\ d_text d ∉ sentences2
  | added =>
      d_article d = 2 /\ d_text d ∈ sentences2 /\ d_text d ∉ sentences1
  end.

(** A lower-case letter, a digit, an underscore or a space. *)
Definition is_clean_char (c : N) : bool :=
  in_range 97 122 c || in_range 48 57 c || (c =? 95)%N || (c =? 32)%N.

(** What an article reference says of its article, the [id] aside. *)
Definition ref_fields (r : ArticleRef) : str * str * str :=
  (ref_title r, ref_source r, ref_url r).

Definition article_fields (a : Article) : str * str * str :=
  (title a, source a, url a).

(** The article has a date to be placed by. *)
Definition has_date (a : Article) : Prop := is_Some (resolve_date a).

(** The value a counter holds for a key, [zero] for a key it has not. *)
Fixpoint entry {V} (zero : V) (key : str) (counts : list (str * V)) : V :=
  match counts with
  | [] => zero
  | (k, v) :: counts' =>
      if decide (k = key) then v else entry zero key counts'
  end.

(** The entities of the articles, each as often as it is listed. *)
Definition entity_mentions (articles : list Article) : list str :=
  article ← articles;
  entity_list ← (map_to_list (entities article)).*2;
  entity_list.

(** How often an entity is listed. *)
Definition mentions (articles : list Article) (entity : str) : nat :=
  length (filter (fun e => e = entity) (entity_mentions articles)).

(** The keywords of the articles with their scores, 1 for a keyword given
    as a bare string. *)
Definition keyword_mentions (articles : list Article) : list (str * Q) :=
  article ← articles; keyword_and_score <$> keywords article.

(** The scores of a keyword added up. *)
Definition total_score (articles : list Article) (keyword : str) : Q :=
  Qsum (snd <$> filter (fun p => p.1 = keyword) (keyword_mentions articles)).

(** A day of a year written with four digits. *)
Definition four_digit_day (key : Z * Z * Z) : Prop :=
  (1000 <= key.1.1 <= 9999 /\ 1 <= key.1.2 <= 12 /\ 1 <= key.2 <= 31)%Z.

(** The date carries a UTC offset. *)
Definition aware_date (d : datetime) : bool :=
  match utcoffset d with
  | Some _ => true
  | None => false
  end.

End Views.

(** * Properties *)

Import Spec Samples Order Views.

#[local] Set Warnings "-clear-no-such-hyp".

(** ** Language detection *)

Lemma thai_not_english (c : char) :
  is_thai_char c = true -> is_english_char c = false.
Proof.
  unfold is_thai_char, is_english_char, in_range. intros Hc.
  apply andb_true_iff in Hc as [Hlo Hhi].
  apply N.leb_le in Hlo.
  apply orb_false_iff; split; apply andb_false_iff; right;
    apply N.leb_gt; lia.
Qed.

Lemma english_not_thai (c : char) :
  is_english_char c = true -> is_thai_char c = false.
Proof.
  intros Hc. destruct (is_thai_char c) eqn:Ht; [|done].
  apply thai_not_english in Ht. congruence.
Qed.

Lemma count_all (p q : char -> bool) (text : str) :
  (forall c, p c = true -> q c = false) ->
  Forall (fun c => p c = true) text ->
  length (filter p text) = length text /\ length (filter q text) = 0.
Proof.
  intros Hpq Hall. induction Hall as [|c text Hc _ [IHp IHq]]; [done|].
  rewrite !filter_cons. rewrite Hc, (Hpq c Hc). simpl.
  rewrite IHp, IHq. done.
Qed.

(** C6, as amended. [_detect_language] answers by strict majority between
    the characters of the class [ก-ฮ] (U+0E01 .. U+0E2E, the Thai consonants;
    no vowel, tone mark or digit of the script is counted) and the Latin
    letters [a-zA-Z]: ['th'] when the former outnumber the latter, ['en']
    in the opposite case and ['mixed'] on a tie, both counts being zero
    included; a non-empty text made only of characters of the class [ก-ฮ]
    is ['th'], one made only of Latin letters is ['en']. *)
Theorem detect_language_majority (text : str) :
  (english_chars text < thai_chars text -> _detect_language text = th) /\
  (thai_chars text < english_chars text -> _detect_language text = en) /\
  (thai_chars text = english_chars text -> _detect_language text = mixed) /\
  _detect_language [] = mixed /\
  (text <> [] -> Forall (fun c => is_thai_char c = true) text ->
   _detect_language text = th) /\
  (text <> [] -> Forall (fun c => is_english_char c = true) text ->
   _detect_language text = en).
Proof.
  unfold _detect_language.
  repeat split.
  - intros Hlt. apply Nat.ltb_lt in Hlt. by rewrite Hlt.
  - intros Hlt.
    destruct (english_chars text <? thai_chars text) eqn:E.
    + apply Nat.ltb_lt in E. lia.
    + apply Nat.ltb_lt in Hlt. by rewrite Hlt.
  - intros Heq. rewrite Heq, Nat.ltb_irrefl. done.
  - intros Hne Hall.
    destruct (count_all is_thai_char is_english_char text thai_not_english Hall)
      as [Ht He].
    unfold thai_chars, english_chars. rewrite Ht, He.
    destruct text; [done|]. done.
  - intros Hne Hall.
    destruct (count_all is_english_char is_thai_char text english_not_thai Hall)
      as [He Ht].
    unfold thai_chars, english_chars. rewrite Ht, He.
    destruct text; [done|]. done.
Qed.

(** C6, as stated, fails: a text with seven characters of the Thai script
    and five Latin letters is labelled ['en'], only its two consonants
    being counted; and a text made of one Thai vowel letter is labelled
    ['mixed']. *)
Lemma detect_language_counterexample :
  thai_script_chars chair_text = 7
  /\ english_chars chair_text = 5
  /\ _detect_language chair_text = en
  /\ thai_script_chars vowel_text = length vowel_text
  /\ _detect_language vowel_text = mixed.
Proof. repeat split; by vm_compute. Qed.

(** ** Event intensity *)

Lemma Qnat_nonneg (n : nat) : (0 <= Qnat n)%Q.
Proof. unfold Qnat, Qle. simpl. lia. Qed.

Lemma Qnat_pos (n : nat) : 0 < n -> (0 < Qnat n)%Q.
Proof. unfold Qnat, Qlt. simpl. lia. Qed.

Lemma credibility_in_table (s : str) (q : Q) :
  source_credibility !! s = Some q -> (s, q) ∈ source_credibility_table.
Proof. apply elem_of_list_to_map_2. Qed.

Lemma credibility_nonneg (s : str) :
  (0 <= default 0.5 (source_credibility !! s))%Q.
Proof.
  destruct (source_credibility !! s) as [q|] eqn:E; simpl; [|lra].
  apply credibility_in_table in E.
  unfold source_credibility_table in E.
  repeat (apply elem_of_cons in E as [E|E]; [injection E as _ ->; lra|]).
  by apply elem_of_nil in E.
Qed.

Lemma article_score_spec (a : Article) :
  (article_score a == spec_article_score a)%Q.
Proof.
  unfold article_score, spec_article_score, spec_credibility,
    entities_count_weight, keywords_count_weight, content_length_weight,
    source_credibility_weight.
  assert (Qmin (Qnat (word_count a) / 1000) 1.0
          == Qmin (Qnat (word_count a) / 1000) 1)%Q as ->
    by (apply Q.min_compat; lra).
  lra.
Qed.

Lemma article_score_nonneg (a : Article) : (0 <= article_score a)%Q.
Proof.
  rewrite article_score_spec. unfold spec_article_score, spec_credibility.
  pose proof (Qnat_nonneg (total_entities (entities a))) as He.
  pose proof (Qnat_nonneg (length (keywords a))) as Hk.
  pose proof (credibility_nonneg (source a)) as Hc.
  assert (0 <= Qmin (Qnat (word_count a) / 1000) 1)%Q as Hw.
  { apply Q.min_glb; [|lra].
    pose proof (Qnat_nonneg (word_count a)).
    apply Qle_shift_div_l; lra. }
  lra.
Qed.

Lemma foldl_score_sum (f : Article -> Q) (l : list Article) (acc : Q) :
  (foldl (fun total article => total + f article) acc l
   == acc + Qsum (f <$> l))%Q.
Proof.
  revert acc. induction l as [|a l IH]; intros acc.
  - cbn. ring.
  - cbn [foldl]. rewrite IH, fmap_cons.
    change (Qsum (f a :: (f <$> l))) with (f a + Qsum (f <$> l))%Q. ring.
Qed.

Lemma Qsum_nonneg (l : list Q) : Forall (fun q => 0 <= q)%Q l -> (0 <= Qsum l)%Q.
Proof.
  induction 1 as [|q l Hq _ IH]; simpl; [lra|]. lra.
Qed.


Lemma intensity_unfold (group : list Article) :
  group <> [] ->
  _calculate_event_intensity group
  = Qmin (foldl (fun total article => (total + article_score article)%Q)
            0.0%Q group / Qnat (length group) * 2) 10.0%Q.
Proof. by destruct group. Qed.



(** ** Entity and keyword similarity *)

Lemma sum_list_with_ext {A} (f g : A -> nat) (l : list A) :
  (forall x, x ∈ l -> f x = g x) -> sum_list_with f l = sum_list_with g l.
Proof.
  induction l as [|x l IH]; intros Hfg; simpl; [done|].
  rewrite (Hfg x) by left. rewrite IH; [done|].
  intros y Hy. apply Hfg. by right.
Qed.

Lemma length_bind_sum {A B} (f : A -> list B) (l : list A) :
  length (l ≫= f) = sum_list_with (fun x => length (f x)) l.
Proof.
  induction l as [|x l IH]; [done|].
  rewrite bind_cons, length_app, IH. done.
Qed.

Lemma total_entities_dom (e : gmap str (list str)) :
  total_entities e
  = sum_list_with (fun t => length (default [] (e !! t))) (elements (dom e)).
Proof.
  unfold total_entities.
  induction e as [|t l e Hfresh IH] using map_ind.
  - by rewrite map_to_list_empty, dom_empty_L, elements_empty.
  - rewrite map_to_list_insert by done.
    rewrite dom_insert_L.
    rewrite elements_union_singleton by (by apply not_elem_of_dom).
    cbn. rewrite IH, lookup_insert_eq. cbn. f_equal.
    apply sum_list_with_ext. intros t' Ht'.
    apply elem_of_elements, elem_of_dom in Ht' as [l' Hl'].
    rewrite lookup_insert_ne by congruence. done.
Qed.

Lemma Qnat_add (n m : nat) : (Qnat (n + m) == Qnat n + Qnat m)%Q.
Proof. unfold Qnat. rewrite Nat2Z.inj_add, inject_Z_plus. reflexivity. Qed.

Lemma Qnat_double (n : nat) : (Qnat (2 * n) == 2 * Qnat n)%Q.
Proof.
  unfold Qnat. rewrite Nat2Z.inj_mul, inject_Z_mult. reflexivity.
Qed.

Lemma code_dice (c n1 n2 : nat) :
  ((if 0 <? n1 + n2 then Qnat (2 * c) / Qnat (n1 + n2) else 0)
   == dice c n1 n2)%Q.
Proof.
  unfold dice. destruct (n1 + n2) as [|k] eqn:E; [reflexivity|].
  cbn [Nat.ltb Nat.leb Nat.eqb]. rewrite <- E.
  rewrite Qnat_double, Qnat_add. reflexivity.
Qed.

Lemma dice_same (n : nat) : 0 < n -> (dice n n n == 1)%Q.
Proof.
  intros Hn. unfold dice. destruct (n + n =? 0) eqn:E.
  - apply Nat.eqb_eq in E. lia.
  - pose proof (Qnat_pos n Hn). field. lra.
Qed.

Lemma entity_set_outside (e : gmap str (list str)) (t : str) :
  t ∉ dom e -> entity_set e t = ∅.
Proof.
  intros Ht. apply not_elem_of_dom in Ht. unfold entity_set. by rewrite Ht.
Qed.

Lemma total_entities_spec (e : gmap str (list str)) :
  duplicate_free e -> total_entities e = spec_entity_count e.
Proof.
  intros Hnd. rewrite total_entities_dom. unfold spec_entity_count.
  apply sum_list_with_ext. intros t Ht.
  apply elem_of_elements, elem_of_dom in Ht as [l Hl].
  unfold entity_set. rewrite Hl. cbn.
  symmetry. apply size_list_to_set. by apply (Hnd t l).
Qed.

Lemma sum_list_with_zero {A} (f : A -> nat) (l : list A) :
  (forall x, x ∈ l -> f x = 0) -> sum_list_with f l = 0.
Proof.
  induction l as [|x l IH]; intros Hf; simpl; [done|].
  rewrite (Hf x) by left. rewrite IH; [done|].
  intros y Hy. apply Hf. by right.
Qed.

Lemma sum_over_union_l (f : str -> nat) (X Y : gset str) :
  (forall t, t ∉ X -> f t = 0) ->
  sum_list_with f (elements (X ∪ Y)) = sum_list_with f (elements X).
Proof.
  intros Hf.
  assert (X ∪ Y = X ∪ (Y ∖ X)) as ->.
  { apply set_eq. intros t. destruct (decide (t ∈ X)); set_solver. }
  rewrite elements_disj_union by set_solver.
  rewrite sum_list_with_app, (sum_list_with_zero f (elements (Y ∖ X))); [lia|].
  intros t Ht. apply Hf. set_solver.
Qed.

Lemma entity_similarity_dice (e1 e2 : gmap str (list str)) :
  duplicate_free e1 -> duplicate_free e2 ->
  (entity_similarity (_compare_entities e1 e2)
   == dice (spec_common_entities e1 e2)
        (spec_entity_count e1) (spec_entity_count e2))%Q.
Proof.
  intros H1 H2. unfold _compare_entities. cbn [entity_similarity].
  rewrite length_bind_sum.
  rewrite (total_entities_spec e1 H1), (total_entities_spec e2 H2).
  apply code_dice.
Qed.

Lemma keyword_similarity_dice (k1 k2 : list Keyword) :
  (keyword_similarity (_compare_keywords k1 k2)
   == dice (size (keyword_set k1 ∩ keyword_set k2))
        (size (keyword_set k1)) (size (keyword_set k2)))%Q.
Proof.
  unfold _compare_keywords. cbn [keyword_similarity]. apply code_dice.
Qed.

Lemma identical_entities_counts (e1 e2 : gmap str (list str)) :
  (forall t, entity_set e1 t = entity_set e2 t) ->
  spec_common_entities e1 e2 = spec_entity_count e1 /\
  spec_entity_count e2 = spec_entity_count e1.
Proof.
  intros Hsame. unfold spec_common_entities, spec_entity_count.
  assert (sum_list_with (fun t => size (entity_set e1 t))
            (elements (dom e1 ∪ dom e2))
          = sum_list_with (fun t => size (entity_set e1 t)) (elements (dom e1)))
    as Hl.
  { apply sum_over_union_l. intros t Ht.
    by rewrite entity_set_outside, size_empty. }
  assert (sum_list_with (fun t => size (entity_set e1 t))
            (elements (dom e1 ∪ dom e2))
          = sum_list_with (fun t => size (entity_set e2 t)) (elements (dom e2)))
    as Hr.
  { rewrite (union_comm_L (dom e1) (dom e2)).
    rewrite <- (sum_over_union_l _ (dom e2) (dom e1)).
    - apply sum_list_with_ext. intros t _. by rewrite Hsame.
    - intros t Ht. by rewrite entity_set_outside, size_empty. }
  split.
  - rewrite <- Hl. apply sum_list_with_ext. intros t _.
    rewrite <- Hsame. f_equal. set_solver.
  - by rewrite <- Hr, Hl.
Qed.

Lemma keyword_set_no_blank (kws : list Keyword) :
  no_blank kws -> keyword_set kws = spec_keyword_strings kws.
Proof.
  intros Hnb. unfold keyword_set, spec_keyword_strings.
  apply set_eq. intros kw. rewrite elem_of_filter.
  split; [by intros [_ ?]|]. intros Hin. split; [|done].
  apply elem_of_list_to_set, list_elem_of_fmap in Hin as (k & -> & Hk).
  unfold no_blank in Hnb. rewrite Forall_forall in Hnb. by apply Hnb.
Qed.

(** C7, as amended. For two articles whose per-type entity lists are free of
    repetitions, the entity similarity is the Dice coefficient
    [2 * common / (n1 + n2)] of the per-type entity sets, and the keyword
    similarity is the Dice coefficient of the two sets of keyword strings
    that are not blank; each is 0 when both sets are empty and 1 when the
    sets are equal and not empty. Where no keyword is blank, the set the
    code compares is the plain set of the keyword strings. *)
Theorem dice_similarity (a1 a2 : Article) :
  duplicate_free (entities a1) -> duplicate_free (entities a2) ->
  let ec := _compare_entities (entities a1) (entities a2) in
  let kc := _compare_keywords (keywords a1) (keywords a2) in
  (entity_similarity ec
   == dice (spec_common_entities (entities a1) (entities a2))
        (spec_entity_count (entities a1)) (spec_entity_count (entities a2)))%Q
  /\ (keyword_similarity kc
      == dice (size (keyword_set (keywords a1) ∩ keyword_set (keywords a2)))
           (size (keyword_set (keywords a1)))
           (size (keyword_set (keywords a2))))%Q
  /\ (spec_entity_count (entities a1) = 0 ->
      spec_entity_count (entities a2) = 0 -> (entity_similarity ec == 0)%Q)
  /\ (keyword_set (keywords a1) = ∅ -> keyword_set (keywords a2) = ∅ ->
      (keyword_similarity kc == 0)%Q)
  /\ ((forall t, entity_set (entities a1) t = entity_set (entities a2) t) ->
      0 < spec_entity_count (entities a1) -> (entity_similarity ec == 1)%Q)
  /\ (keyword_set (keywords a1) = keyword_set (keywords a2) ->
      keyword_set (keywords a1) <> ∅ -> (keyword_similarity kc == 1)%Q)
  /\ (no_blank (keywords a1) ->
      keyword_set (keywords a1) = spec_keyword_strings (keywords a1)).
Proof.
  intros H1 H2 ec kc.
  pose proof (entity_similarity_dice _ _ H1 H2) as He.
  pose proof (keyword_similarity_dice (keywords a1) (keywords a2)) as Hk.
  fold ec in He. fold kc in Hk.
  split; [exact He|]. split; [exact Hk|].
  split; [|split; [|split; [|split]]].
  - intros E1 E2. rewrite He, E1, E2. reflexivity.
  - intros E1 E2. rewrite Hk, E1, E2. rewrite size_empty. reflexivity.
  - intros Hsame Hpos. rewrite He.
    destruct (identical_entities_counts _ _ Hsame) as [-> ->].
    by apply dice_same.
  - intros Hsame Hne. rewrite Hk, <- Hsame.
    replace (keyword_set (keywords a1) ∩ keyword_set (keywords a1))
      with (keyword_set (keywords a1)) by set_solver.
    apply dice_same.
    destruct (size (keyword_set (keywords a1))) eqn:E; [|lia].
    apply size_empty_inv in E. exfalso. apply Hne. by apply leibniz_equiv.
  - apply keyword_set_no_blank.
Qed.

Lemma thai_article_duplicate_free : duplicate_free (entities thai_article).
Proof.
  unfold duplicate_free, thai_article, make_article. cbn [entities].
  intros t l Hl. apply elem_of_list_to_map_2 in Hl.
  repeat (apply elem_of_cons in Hl as [Hl|Hl];
          [injection Hl as _ ->; apply NoDup_singleton|]).
  by apply elem_of_nil in Hl.
Qed.

Lemma dice_similarity_witness :
  (entity_similarity
     (_compare_entities (entities thai_article) (entities thai_article)) == 1)%Q.
Proof.
  pose proof (dice_similarity thai_article thai_article
                thai_article_duplicate_free thai_article_duplicate_free) as H.
  cbv zeta in H.
  destruct H as (_ & _ & _ & _ & Hsame & _).
  apply Hsame; [done|]. vm_compute. lia.
Defined.

(** C7, as stated, fails: two articles whose only keyword is the string of
    one space have equal, non-empty sets of keyword strings, for which the
    Dice coefficient is 1, and the keyword similarity the code returns
    is 0. *)
Lemma dice_similarity_counterexample :
  spec_keyword_strings (keywords blank_keyword_article) = {[ lit " " ]}
  /\ (dice (size (spec_keyword_strings (keywords blank_keyword_article)))
        (size (spec_keyword_strings (keywords blank_keyword_article)))
        (size (spec_keyword_strings (keywords blank_keyword_article))) == 1)%Q
  /\ keyword_similarity
       (_compare_keywords (keywords blank_keyword_article)
          (keywords blank_keyword_article)) = 0%Q.
Proof.
  split; [|split].
  - by vm_compute.
  - by vm_compute.
  - by vm_compute.
Qed.

(** ** Sentiment *)

Section Sentiment.
Context `{PyLibs}.

Lemma analyze_sentiment_returns (content : str) (lang : Language) :
  lang <> mixed -> is_Some (_analyze_sentiment content lang).
Proof.
  intros Hlang. unfold _analyze_sentiment.
  destruct content as [|c content]; [by eexists|].
  destruct lang; [| |done]; cbn [sentiment_keywords mbind option_bind];
    match goal with |- context [?t =? 0] => destruct (t =? 0) end;
    by eexists.
Qed.

Lemma hit_share_range (c n : nat) :
  0 < n -> c <= n -> (0 <= Qnat c / Qnat n <= 1)%Q.
Proof.
  intros Hpos Hle. pose proof (Qnat_pos _ Hpos) as Hn.
  pose proof (Qnat_nonneg c) as Hc.
  assert (Qnat c <= Qnat n)%Q as Hcn
    by (unfold Qnat; rewrite <- Zle_Qle; lia).
  split.
  - apply Qle_shift_div_l; [done|]. lra.
  - apply Qle_shift_div_r; [done|]. lra.
Qed.


End Sentiment.



(** The sentiment lists have no entry for ['mixed']: on a non-empty content
    the analysis raises [KeyError], and so does a comparison whose first
    article is in that language. *)
Lemma sentiment_mixed_raises `{PyLibs} (content : str) :
  content <> [] -> _analyze_sentiment content mixed = None.
Proof. by destruct content. Qed.

(** ** Pairwise comparison *)

Section Compare.
Context `{PyLibs}.

Lemma overall_similarity_range (c e k : Q) :
  (0 <= _calculate_overall_similarity c e k <= 1)%Q.
Proof.
  unfold _calculate_overall_similarity. split.
  - apply Q.min_glb; [|lra].
    apply Qle_trans with 0.0%Q; [lra | apply Q.le_max_r].
  - apply Qle_trans with 1.0%Q; [apply Q.le_min_r | lra].
Qed.

Lemma sentiment_comparison_returns (c1 c2 : str) (lang : Language) :
  lang <> mixed -> is_Some (_analyze_sentiment_comparison c1 c2 lang).
Proof.
  intros Hlang. unfold _analyze_sentiment_comparison.
  destruct (analyze_sentiment_returns c1 lang Hlang) as [s1 ->].
  destruct (analyze_sentiment_returns c2 lang Hlang) as [s2 ->].
  by eexists.
Qed.

(** What [compare_articles] returns when it returns. *)
Lemma compare_articles_inv (a b : Article) (r : ComparisonResult) :
  compare_articles a b = Some r ->
  content_similarity r
  = _calculate_content_similarity (content a) (content b) (language a)
  /\ entity_comparison r = _compare_entities (entities a) (entities b)
  /\ keyword_comparison r = _compare_keywords (keywords a) (keywords b)
  /\ content_differences r
     = _find_content_differences (content a) (content b) (language a)
  /\ similarity_score r
     = _calculate_overall_similarity (content_similarity r)
         (entity_similarity (entity_comparison r))
         (keyword_similarity (keyword_comparison r)).
Proof.
  unfold compare_articles. intros Hr.
  destruct (_analyze_sentiment_comparison _ _ _); [|done].
  injection Hr as <-. done.
Qed.

Lemma compare_articles_returns (a b : Article) :
  language a <> mixed -> is_Some (compare_articles a b).
Proof.
  intros Hlang. unfold compare_articles.
  destruct (sentiment_comparison_returns (content a) (content b) _ Hlang)
    as [s ->].
  by eexists.
Qed.

Lemma no_differences_with_itself (c : str) (lang : Language) :
  _find_content_differences c c lang = [].
Proof.
  unfold _find_content_differences, significant.
  rewrite difference_diag_L.
  pose proof (set_iteration_perm ∅) as Hnil.
  rewrite elements_empty in Hnil. apply Permutation_nil_r in Hnil.
  by rewrite Hnil.
Qed.

Lemma entity_similarity_self (a : Article) :
  duplicate_free (entities a) ->
  (entity_similarity (_compare_entities (entities a) (entities a))
   == indicator (has_entities a))%Q.
Proof.
  intros Hnd. rewrite (entity_similarity_dice _ _ Hnd Hnd).
  destruct (identical_entities_counts (entities a) (entities a)) as [-> _];
    [done|].
  unfold has_entities.
  destruct (spec_entity_count (entities a)) as [|n] eqn:E.
  - reflexivity.
  - apply dice_same. lia.
Qed.

Lemma keyword_similarity_self (a : Article) :
  (keyword_similarity (_compare_keywords (keywords a) (keywords a))
   == indicator (has_keywords a))%Q.
Proof.
  rewrite keyword_similarity_dice. unfold has_keywords.
  replace (keyword_set (keywords a) ∩ keyword_set (keywords a))
    with (keyword_set (keywords a)) by (by rewrite intersection_idemp_L).
  destruct (size (keyword_set (keywords a))) as [|n] eqn:E.
  - reflexivity.
  - apply dice_same. lia.
Qed.

Lemma overall_similarity_compat (c e e' k k' : Q) :
  (e == e')%Q -> (k == k')%Q ->
  (_calculate_overall_similarity c e k
   == Qmin (Qmax (0.5 * c + 0.3 * e' + 0.2 * k') 0) 1)%Q.
Proof.
  intros He Hk. unfold _calculate_overall_similarity.
  apply Q.min_compat; [|lra]. apply Q.max_compat; lra.
Qed.

Lemma self_comparison_score (a : Article) (r : ComparisonResult) :
  duplicate_free (entities a) ->
  compare_articles a a = Some r ->
  (similarity_score r
   == Qmin (Qmax (0.5 * content_similarity r
                  + 0.3 * indicator (has_entities a)
                  + 0.2 * indicator (has_keywords a)) 0) 1)%Q.
Proof.
  intros Hnd Hr.
  destruct (compare_articles_inv a a r Hr) as (_ & He & Hk & _ & Hs).
  rewrite Hs, He, Hk.
  apply overall_similarity_compat;
    [by apply entity_similarity_self | apply keyword_similarity_self].
Qed.

Lemma content_similarity_le (bound : Q) (c1 c2 : str) (lang : Language) :
  (0 <= bound)%Q ->
  (forall flag d1 d2 q, tfidf_cosine flag d1 d2 = Some q -> (q <= bound)%Q) ->
  (_calculate_content_similarity c1 c2 lang <= bound)%Q.
Proof.
  intros Hbound Hcos. unfold _calculate_content_similarity.
  destruct c1 as [|x1 c1], c2 as [|x2 c2]; try lra.
  destruct (_preprocess_text (x1 :: c1) lang),
    (_preprocess_text (x2 :: c2) lang); try lra.
  match goal with |- context [tfidf_cosine ?f ?a ?b] =>
    destruct (tfidf_cosine f a b) as [q|] eqn:E; [|cbn; lra] end.
  by apply Hcos in E.
Qed.

(** Without an entity the entity term of the score is 0: the comparison of
    an article with itself scores at most half the bound of its content
    similarity, and 0.2. *)
Lemma no_entity_self_score (a : Article) (r : ComparisonResult) (bound : Q) :
  duplicate_free (entities a) -> has_entities a = false ->
  compare_articles a a = Some r ->
  (0 <= bound)%Q -> (content_similarity r <= bound)%Q ->
  (similarity_score r <= 0.5 * bound + 0.2)%Q.
Proof.
  intros Hnd E Hr Hbound Hle.
  rewrite (self_comparison_score a r Hnd Hr), E. cbn [indicator].
  eapply Qle_trans; [apply Q.le_min_l|].
  apply Q.max_lub; [|lra].
  destruct (has_keywords a); cbn [indicator]; lra.
Qed.

Lemma content_similarity_self (c : str) (lang : Language) :
  _calculate_content_similarity c c lang
  = match _preprocess_text c lang with
    | [] => 0%Q
    | cleaned =>
        default 0%Q (tfidf_cosine (bool_decide (lang = en)) cleaned cleaned)
    end.
Proof.
  unfold _calculate_content_similarity. destruct c as [|x c]; [done|].
  destruct (_preprocess_text (x :: c) lang) as [|y cleaned]; [done|].
  by destruct (tfidf_cosine _ _ _).
Qed.

(** C1, as amended. For an article whose language is ['th'] or ['en'] and
    whose per-type entity lists are free of repetitions, the comparison
    with itself returns, reports no content difference, and scores
    [min(max(0.5 * c + 0.3 * e + 0.2 * k, 0), 1)], where [c], the content
    similarity, is 0 when the cleaned content is empty and otherwise the
    cosine the vectoriser returns for the cleaned content against itself
    (0 when it raises), [e] is 1 when the article has an entity and 0
    otherwise, and [k] is 1 when it has a keyword that is not blank and 0
    otherwise; the score is at least 0.95 when the article has entities
    and keywords and [c] is at least 0.9, and at most 0.7 when the article
    has no entity and [c] is at most 1. *)
Theorem self_comparison (a : Article) :
  language a <> mixed -> duplicate_free (entities a) ->
  exists r,
    compare_articles a a = Some r
    /\ content_differences r = []
    /\ content_similarity r
       = match _preprocess_text (content a) (language a) with
         | [] => 0%Q
         | cleaned =>
             default 0%Q
               (tfidf_cosine (bool_decide (language a = en)) cleaned cleaned)
         end
    /\ (similarity_score r
        == Qmin (Qmax (0.5 * content_similarity r
                       + 0.3 * indicator (has_entities a)
                       + 0.2 * indicator (has_keywords a)) 0) 1)%Q
    /\ (has_entities a = true -> has_keywords a = true ->
        (0.9 <= content_similarity r)%Q -> (0.95 <= similarity_score r)%Q)
    /\ (has_entities a = false ->
        (content_similarity r <= 1)%Q -> (similarity_score r <= 0.7)%Q).
Proof.
  intros Hlang Hnd.
  destruct (compare_articles_returns a a Hlang) as [r Hr].
  exists r. split; [done|].
  destruct (compare_articles_inv a a r Hr) as (Hc & He & Hk & Hd & Hs).
  pose proof (self_comparison_score a r Hnd Hr) as Hscore.
  split; [by rewrite Hd, no_differences_with_itself|].
  split; [by rewrite Hc, content_similarity_self|]. split; [done|]. split.
  - intros E K Hge. rewrite Hscore, E, K. cbn [indicator].
    apply Q.min_glb; [|lra].
    eapply Qle_trans; [|apply Q.le_max_l]. lra.
  - intros E Hle.
    pose proof (no_entity_self_score a r 1 Hnd E Hr) as Hbound. lra.
Qed.

Lemma content_similarity_range (c1 c2 : str) (lang : Language) :
  (forall flag d1 d2 q, tfidf_cosine flag d1 d2 = Some q -> (0 <= q <= 1)%Q) ->
  (0 <= _calculate_content_similarity c1 c2 lang <= 1)%Q.
Proof.
  intros Hcos. unfold _calculate_content_similarity.
  destruct c1 as [|x1 c1], c2 as [|x2 c2]; try lra.
  destruct (_preprocess_text (x1 :: c1) lang),
    (_preprocess_text (x2 :: c2) lang); try lra.
  match goal with |- context [tfidf_cosine ?f ?a ?b] =>
    destruct (tfidf_cosine f a b) as [q|] eqn:E; [|lra] end.
  by apply Hcos in E.
Qed.

Lemma content_similarity_sym (c1 c2 : str) (l1 l2 : Language) :
  (forall flag d1 d2, tfidf_cosine flag d1 d2 = tfidf_cosine flag d2 d1) ->
  bool_decide (l1 = en) = bool_decide (l2 = en) ->
  _calculate_content_similarity c1 c2 l1 = _calculate_content_similarity c2 c1 l2.
Proof.
  intros Hsym Hflag. unfold _calculate_content_similarity, _preprocess_text.
  rewrite Hflag.
  destruct c1 as [|x1 c1], c2 as [|x2 c2]; try done.
  destruct (strip _) eqn:E1, (strip (lower (map _ (collapse_spaces false (x2 :: c2))))) eqn:E2;
    try done.
  by rewrite Hsym.
Qed.

Lemma compare_entities_sym (e1 e2 : gmap str (list str)) :
  entity_similarity (_compare_entities e1 e2)
  = entity_similarity (_compare_entities e2 e1).
Proof.
  unfold _compare_entities. cbn [entity_similarity].
  rewrite (union_comm_L (dom e2) (dom e1)).
  rewrite (Nat.add_comm (total_entities e2) (total_entities e1)).
  rewrite !length_bind_sum.
  rewrite (sum_list_with_ext
             (fun t => length (elements (entity_set e2 t ∩ entity_set e1 t)))
             (fun t => length (elements (entity_set e1 t ∩ entity_set e2 t))));
    [done|].
  intros t _. by rewrite (intersection_comm_L (entity_set e2 t)).
Qed.

Lemma compare_keywords_sym (k1 k2 : list Keyword) :
  keyword_similarity (_compare_keywords k1 k2)
  = keyword_similarity (_compare_keywords k2 k1).
Proof.
  unfold _compare_keywords. cbn [keyword_similarity].
  rewrite (intersection_comm_L (keyword_set k2)).
  by rewrite (Nat.add_comm (size (keyword_set k2))).
Qed.

(** C2, as amended. Every score [compare_articles] returns lies between 0
    and 1. For two articles whose languages are ['th'] or ['en'] both
    comparisons return, and when the two languages are the same (each
    comparison configures the vectoriser from the language of its first
    argument) and the cosine the vectoriser yields does not depend on the
    order of the two documents, the two scores are equal. *)
Theorem comparison_symmetry (a b : Article) :
  (forall x y r, compare_articles x y = Some r ->
     (0 <= similarity_score r <= 1)%Q)
  /\ (language a <> mixed -> language b <> mixed ->
      exists r1 r2,
        compare_articles a b = Some r1
        /\ compare_articles b a = Some r2
        /\ (language a = language b ->
            (forall flag d1 d2,
               tfidf_cosine flag d1 d2 = tfidf_cosine flag d2 d1) ->
            similarity_score r1 = similarity_score r2)).
Proof.
  split.
  { intros x y r Hr.
    destruct (compare_articles_inv x y r Hr) as (_ & _ & _ & _ & ->).
    apply overall_similarity_range. }
  intros Ha Hb.
  destruct (compare_articles_returns a b Ha) as [r1 H1].
  destruct (compare_articles_returns b a Hb) as [r2 H2].
  exists r1, r2. split; [done|]. split; [done|].
  destruct (compare_articles_inv a b r1 H1) as (Hc1 & He1 & Hk1 & _ & Hs1).
  destruct (compare_articles_inv b a r2 H2) as (Hc2 & He2 & Hk2 & _ & Hs2).
  intros Hlang Hsym. rewrite Hs1, Hs2, Hc1, Hc2, He1, He2, Hk1, Hk2.
  rewrite (compare_entities_sym (entities b)), (compare_keywords_sym (keywords b)).
  by rewrite (content_similarity_sym (content a) (content b)
                (language a) (language b) Hsym) by (by rewrite Hlang).
Qed.

Lemma comparison_uses_first_language (a b : Article) (r1 r2 : ComparisonResult) :
  language a = en -> language b = th ->
  compare_articles a b = Some r1 -> compare_articles b a = Some r2 ->
  content_similarity r1
  = _calculate_content_similarity (content a) (content b) en
  /\ content_similarity r2
     = _calculate_content_similarity (content b) (content a) th.
Proof.
  intros Ha Hb H1 H2.
  destruct (compare_articles_inv a b r1 H1) as (-> & _).
  destruct (compare_articles_inv b a r2 H2) as (-> & _).
  by rewrite Ha, Hb.
Qed.

End Compare.

Lemma no_entities_duplicate_free : duplicate_free no_entities.
Proof.
  intros t l Hl. apply elem_of_list_to_map_2 in Hl.
  repeat (apply elem_of_cons in Hl as [Hl|Hl];
          [injection Hl as _ ->; apply NoDup_nil_2|]).
  by apply elem_of_nil in Hl.
Qed.

Lemma demo_cosine_symmetric (flag : bool) (d1 d2 : str) :
  @tfidf_cosine demo_libs flag d1 d2 = @tfidf_cosine demo_libs flag d2 d1.
Proof.
  cbn. rewrite (bool_decide_ext (d1 = d2) (d2 = d1)); [done|].
  split; congruence.
Qed.

Lemma self_comparison_witness :
  exists r,
    @compare_articles demo_libs thai_article thai_article = Some r
    /\ content_differences r = []
    /\ (0.95 <= similarity_score r)%Q.
Proof.
  destruct (@self_comparison demo_libs thai_article)
    as (r & Hr & Hd & Hc & _ & Hge & _);
    [done | apply thai_article_duplicate_free|].
  exists r. split; [done|]. split; [done|].
  apply Hge; [by vm_compute | by vm_compute|].
  rewrite Hc. by vm_compute.
Defined.

(** C1, as stated, fails: an English article, for which the enrichment
    finds no entity, has a non-empty content and compares with itself at
    0.7005 at most, whatever cosine the vectoriser returns for its content
    against itself: 1, or 1 and a rounding error (here up to 0.001). *)
Lemma self_comparison_counterexample :
  content english_article <> []
  /\ total_entities (entities english_article) = 0
  /\ forall libs : PyLibs,
       (forall flag d1 d2 q,
          @tfidf_cosine libs flag d1 d2 = Some q -> (q <= 1.001)%Q) ->
       exists r,
         @compare_articles libs english_article english_article = Some r
         /\ (similarity_score r <= 0.7005)%Q.
Proof.
  split; [done|]. split; [by vm_compute|]. intros libs Hcos.
  destruct (@compare_articles_returns libs english_article english_article)
    as [r Hr]; [done|].
  exists r. split; [done|].
  pose proof (@no_entity_self_score libs english_article r 1.001
                no_entities_duplicate_free) as Hscore.
  destruct (@compare_articles_inv libs _ _ r Hr) as (Hc & _).
  assert (similarity_score r <= 0.5 * 1.001 + 0.2)%Q as Hle; [|lra].
  apply Hscore; [by vm_compute | done | lra|].
  rewrite Hc. apply content_similarity_le; [lra | done].
Qed.

Lemma comparison_symmetry_witness :
  exists r1 r2,
    @compare_articles demo_libs english_article blank_keyword_article = Some r1
    /\ @compare_articles demo_libs blank_keyword_article english_article
       = Some r2
    /\ similarity_score r1 = similarity_score r2.
Proof.
  destruct (@comparison_symmetry demo_libs english_article
              blank_keyword_article) as [_ Hboth].
  destruct Hboth as (r1 & r2 & H1 & H2 & Heq); [done | done |].
  exists r1, r2. split; [exact H1|]. split; [exact H2|].
  apply Heq; [reflexivity | apply demo_cosine_symmetric].
Defined.

(** C2, as stated, fails. Each comparison sets the stop words of the
    vectoriser from the language of its first argument: of two articles
    with the same content, made of English stop words, the one labelled
    English compared first gives content similarity 0 (the vectoriser
    raises on an empty vocabulary), the one labelled Thai compared first
    gives 1, and the scores are 0 and 0.5. Besides, an article whose content
    has neither a Thai nor a Latin letter is of language ['mixed'];
    compared second it is given a score, compared first the comparison
    raises [KeyError], the sentiment lists having no entry for that
    language. *)
Lemma comparison_symmetry_counterexample :
  (exists r1 r2,
     @compare_articles stopword_libs stopwords_en stopwords_th = Some r1
     /\ @compare_articles stopword_libs stopwords_th stopwords_en = Some r2
     /\ (similarity_score r1 == 0)%Q
     /\ (similarity_score r2 == 0.5)%Q)
  /\ _detect_language (content digits_article) = language digits_article
  /\ (forall libs : PyLibs,
        is_Some (@compare_articles libs english_article digits_article))
  /\ (forall libs : PyLibs,
        @compare_articles libs digits_article english_article = None).
Proof.
  split; [|split; [by vm_compute|split]].
  - do 2 eexists. split; [by vm_compute|]. split; [by vm_compute|].
    split; by vm_compute.
  - intros libs. by apply compare_articles_returns.
  - intros libs. by vm_compute.
Qed.

(** A comparison whose first article is of language ['mixed'] and has a
    content raises [KeyError]: [_analyze_sentiment] looks the language up
    in lists that have the keys ['th'] and ['en'] only. *)
Theorem compare_mixed_raises `{PyLibs} (a b : Article) :
  language a = mixed -> content a <> [] -> compare_articles a b = None.
Proof.
  intros Hlang Hcontent. unfold compare_articles, _analyze_sentiment_comparison.
  by rewrite Hlang, (sentiment_mixed_raises (content a) Hcontent).
Qed.

Lemma compare_mixed_raises_witness :
  @compare_articles demo_libs digits_article english_article = None.
Proof.
  by apply (@compare_mixed_raises demo_libs digits_article english_article).
Defined.

(** ** The similarity matrix *)

Lemma square_set_cell n m i j v : square n m -> square n (set_cell m i j v).
Proof.
  intros [Hlen Hrows]. unfold set_cell. split.
  - by rewrite length_alter.
  - apply Forall_alter; [done|]. intros row _ Hrow. by rewrite length_insert.
Qed.

Lemma cell_set_cell n m i j v i' j' :
  square n m -> i < n -> j < n ->
  cell (set_cell m i j v) i' j'
  = if decide (i' = i /\ j' = j) then Some v else cell m i' j'.
Proof.
  intros [Hlen Hrows] Hi Hj. unfold cell, set_cell.
  rewrite list_lookup_alter.
  destruct (decide (i = i')) as [<-|Hne].
  - destruct (m !! i) as [row|] eqn:E.
    + cbn. rewrite list_lookup_insert.
      assert (length row = n) as Hrow.
      { rewrite Forall_forall in Hrows. apply Hrows.
        by eapply list_elem_of_lookup_2. }
      repeat case_decide; try done; naive_solver lia.
    + apply lookup_ge_None in E. lia.
  - case_decide; [naive_solver|done].
Qed.

Lemma store_pair_invariant n m i j v :
  square n m -> symmetric m -> zero_diagonal n m ->
  i < n -> j < n -> i <> j ->
  let m' := set_cell (set_cell m i j v) j i v in
  square n m' /\ symmetric m' /\ zero_diagonal n m'.
Proof.
  intros Hsq Hsym Hdiag Hi Hj Hne m'.
  assert (square n (set_cell m i j v)) as Hsq1 by by apply square_set_cell.
  assert (forall a b, cell m' a b
            = if decide (a = j /\ b = i) then Some v
              else if decide (a = i /\ b = j) then Some v else cell m a b)
    as Hcell.
  { intros a b. unfold m'.
    rewrite (cell_set_cell n) by done. case_decide; [done|].
    by rewrite (cell_set_cell n). }
  split; [by apply square_set_cell|]. split.
  - intros a b. rewrite !Hcell.
    repeat case_decide; try done; try naive_solver.
  - intros a Ha. rewrite Hcell.
    repeat case_decide; first [naive_solver | by apply Hdiag].
Qed.

Lemma zeros_invariant n :
  let m := replicate n (replicate n 0%Q) in
  square n m /\ symmetric m /\ zero_diagonal n m.
Proof.
  intros m.
  assert (forall i j, cell m i j = if decide (i < n /\ j < n) then Some 0%Q else None)
    as Hcell.
  { intros i j. unfold cell, m.
    destruct (decide (i < n)) as [Hi|Hi].
    - rewrite lookup_replicate_2 by done. cbn.
      destruct (decide (j < n)) as [Hj|Hj].
      + rewrite lookup_replicate_2 by done. by rewrite decide_True.
      + rewrite (proj1 (lookup_replicate_None n _ j)) by lia.
        by rewrite decide_False by lia.
    - rewrite (proj1 (lookup_replicate_None n _ i)) by lia. cbn.
      by rewrite decide_False by lia. }
  split; [|split].
  - split; [apply length_replicate|].
    apply Forall_replicate. apply length_replicate.
  - intros i j. rewrite !Hcell. repeat case_decide; try done; naive_solver.
  - intros i Hi. rewrite Hcell. by rewrite decide_True.
Qed.

Lemma index_pairs_spec (n i j : nat) :
  (i, j) ∈ index_pairs n -> i < j /\ j < n.
Proof.
  unfold index_pairs. intros Hin.
  apply list_elem_of_bind in Hin as (i' & Hin & Hi').
  apply list_elem_of_bind in Hin as (j' & Hin & Hj').
  apply list_elem_of_singleton in Hin. injection Hin as -> ->.
  apply elem_of_seq in Hi', Hj'. lia.
Qed.

Lemma arg_best_bound better l i best_i best :
  best_i < i -> arg_best better l i best_i best < i + length l.
Proof.
  revert i best_i best. induction l as [|x l IH]; intros i best_i best Hlt.
  - cbn. lia.
  - cbn [arg_best length]. destruct (better x best).
    + specialize (IH (S i) i x). lia.
    + specialize (IH (S i) best_i best). lia.
Qed.

Lemma argmax_bound l : l <> [] -> exists i, argmax l = Some i /\ i < length l.
Proof.
  destruct l as [|x l]; [done|]. intros _. eexists. split; [done|].
  pose proof (arg_best_bound (fun x best => Qlt_bool best x) l 1 0 x).
  cbn [length]. lia.
Qed.

Lemma argmin_bound l : l <> [] -> exists i, argmin l = Some i /\ i < length l.
Proof.
  destruct l as [|x l]; [done|]. intros _. eexists. split; [done|].
  pose proof (arg_best_bound (fun x best => Qlt_bool x best) l 1 0 x).
  cbn [length]. lia.
Qed.

Section Multi.
Context `{PyLibs}.

Lemma compare_pairs_returns (articles : list Article)
    (pairs : list (nat * nat)) (comps : list PairComparison)
    (m : list (list Q)) :
  Forall (fun a => language a <> mixed) articles ->
  Forall (fun p => p.1 < length articles /\ p.2 < length articles) pairs ->
  exists comps' m',
    compare_pairs articles pairs comps m = Some (comps', m')
    /\ length comps' = length comps + length pairs.
Proof.
  intros Hlang Hpairs. revert comps m.
  induction Hpairs as [|[i j] pairs [Hi Hj] _ IH]; intros comps m.
  - exists comps, m. cbn. split; [done|lia].
  - cbn [compare_pairs]. cbn in Hi, Hj.
    destruct (lookup_lt_is_Some_2 articles i Hi) as [ai Ei].
    destruct (lookup_lt_is_Some_2 articles j Hj) as [aj Ej].
    rewrite Ei, Ej. cbn [mbind option_bind].
    assert (language ai <> mixed) as Hai.
    { rewrite Forall_forall in Hlang. apply Hlang.
      by eapply list_elem_of_lookup_2. }
    destruct (compare_articles_returns ai aj Hai) as [c ->].
    cbn [mbind option_bind].
    edestruct IH as (comps' & m' & -> & Hlen).
    exists comps', m'. split; [done|].
    rewrite Hlen, length_app. cbn. lia.
Qed.

Lemma index_pairs_nonempty (n : nat) : 2 <= n -> index_pairs n <> [].
Proof.
  intros Hn Hnil.
  assert ((0, 1) ∈ index_pairs n) as Hin.
  { unfold index_pairs. apply list_elem_of_bind. exists 0. split; [|apply elem_of_seq; lia].
    apply list_elem_of_bind. exists 1. split; [by apply list_elem_of_singleton|].
    apply elem_of_seq. lia. }
  rewrite Hnil in Hin. by apply elem_of_nil in Hin.
Qed.

Lemma compare_multiple_returns (articles : list Article) :
  2 <= length articles ->
  Forall (fun a => language a <> mixed) articles ->
  exists r, compare_multiple_articles articles = Some (MultiOk r).
Proof.
  intros Hlen Hlang. unfold compare_multiple_articles.
  destruct (length articles <? 2) eqn:E; [apply Nat.ltb_lt in E; lia|].
  destruct (compare_pairs_returns articles (index_pairs (length articles)) []
              (replicate (length articles) (replicate (length articles) 0%Q))
              Hlang) as (comps & m & -> & Hcomps).
  { apply Forall_forall. intros [i j] Hin.
    apply index_pairs_spec in Hin. cbn. lia. }
  cbn [mbind option_bind].
  assert (pc_similarity_score <$> comps <> []) as Hne.
  { intros Hnil. apply fmap_nil_inv in Hnil. subst comps.
    pose proof (index_pairs_nonempty _ Hlen) as Hp.
    destruct (index_pairs (length articles)); [done|]. cbn in Hcomps. lia. }
  destruct (argmax_bound _ Hne) as (imax & -> & Hmax).
  destruct (argmin_bound _ Hne) as (imin & -> & Hmin).
  cbn [mbind option_bind].
  rewrite length_fmap in Hmax, Hmin.
  destruct (lookup_lt_is_Some_2 comps imax Hmax) as [cmax ->].
  destruct (lookup_lt_is_Some_2 comps imin Hmin) as [cmin ->].
  cbn [mbind option_bind]. by eexists.
Qed.

Lemma compare_pairs_invariant (articles : list Article)
    (pairs : list (nat * nat)) (comps comps' : list PairComparison)
    (m m' : list (list Q)) :
  let n := length articles in
  Forall (fun p => p.1 <> p.2) pairs ->
  square n m -> symmetric m -> zero_diagonal n m ->
  compare_pairs articles pairs comps m = Some (comps', m') ->
  square n m' /\ symmetric m' /\ zero_diagonal n m'.
Proof.
  intros n Hpairs. revert comps m.
  induction Hpairs as [|[i j] pairs Hij _ IH]; intros comps m Hsq Hsym Hdiag Hrun.
  - cbn in Hrun. by injection Hrun as _ <-.
  - cbn [compare_pairs] in Hrun.
    destruct (articles !! i) as [ai|] eqn:Ei; [|done].
    destruct (articles !! j) as [aj|] eqn:Ej; [|done].
    cbn [mbind option_bind] in Hrun.
    destruct (compare_articles ai aj) as [c|]; [|done].
    cbn [mbind option_bind] in Hrun.
    apply lookup_lt_Some in Ei, Ej.
    destruct (store_pair_invariant n m i j (similarity_score c))
      as (Hsq' & Hsym' & Hdiag'); try done.
    by eapply IH.
Qed.

(** The matrix returned for a list of at least two articles has one row
    and one column per article, is symmetric and is 0 on the diagonal. *)
Lemma compare_multiple_matrix (articles : list Article)
    (r : MultiComparison) :
  2 <= length articles ->
  compare_multiple_articles articles = Some (MultiOk r) ->
  square (length articles) (similarity_matrix r)
  /\ symmetric (similarity_matrix r)
  /\ zero_diagonal (length articles) (similarity_matrix r).
Proof.
  intros Hlen Hrun. unfold compare_multiple_articles in Hrun.
  destruct (length articles <? 2) eqn:E; [apply Nat.ltb_lt in E; lia|].
  destruct (compare_pairs articles (index_pairs (length articles)) []
              (replicate (length articles) (replicate (length articles) 0%Q)))
    as [[comps m]|] eqn:Epairs; [|done].
  cbn [mbind option_bind] in Hrun.
  destruct (argmax _) as [imax|]; cbn [mbind option_bind] in Hrun; [|done].
  destruct (argmin _) as [imin|]; cbn [mbind option_bind] in Hrun; [|done].
  destruct (comps !! imax); cbn [mbind option_bind] in Hrun; [|done].
  destruct (comps !! imin); cbn [mbind option_bind] in Hrun; [|done].
  injection Hrun as <-. cbn [similarity_matrix].
  destruct (zeros_invariant (length articles)) as (Hsq & Hsym & Hdiag).
  eapply compare_pairs_invariant; [| | | |exact Epairs]; try done.
  apply Forall_forall. intros [i j] Hin.
  apply index_pairs_spec in Hin. cbn. lia.
Qed.

(** C10, as amended. For a list of at least two articles, the matrix that
    [compare_multiple_articles] returns has one row and one column per
    article, is symmetric, and holds 0 at every diagonal entry (no article
    is compared with itself); the function does return one whenever no
    article is of language ['mixed']. Compared with itself directly, an
    article of the list (of language ['th'] or ['en'], its per-type entity
    lists free of repetitions) scores
    [min(max(0.5 * c + 0.3 * e + 0.2 * k, 0), 1)], where [c] is the content
    similarity, [e] is 1 when the article has an entity and 0 otherwise,
    and [k] is 1 when it has a keyword that is not blank and 0
    otherwise. *)
Theorem similarity_matrix_symmetric (articles : list Article) :
  2 <= length articles ->
  (Forall (fun a => language a <> mixed) articles ->
   exists r, compare_multiple_articles articles = Some (MultiOk r))
  /\ (forall r, compare_multiple_articles articles = Some (MultiOk r) ->
      square (length articles) (similarity_matrix r)
      /\ symmetric (similarity_matrix r)
      /\ zero_diagonal (length articles) (similarity_matrix r))
  /\ Forall (fun a =>
       language a <> mixed -> duplicate_free (entities a) ->
       exists r,
         compare_articles a a = Some r
         /\ (similarity_score r
             == Qmin (Qmax (0.5 * content_similarity r
                            + 0.3 * indicator (has_entities a)
                            + 0.2 * indicator (has_keywords a)) 0) 1)%Q)
     articles.
Proof.
  intros Hlen. split; [by apply compare_multiple_returns|].
  split; [intros r; by apply compare_multiple_matrix|].
  apply Forall_forall. intros a _ Hlang Hnd.
  destruct (compare_articles_returns a a Hlang) as [r Hr].
  exists r. split; [done|]. by apply self_comparison_score.
Qed.

End Multi.

Lemma similarity_matrix_symmetric_witness :
  exists r,
    @compare_multiple_articles demo_libs
      [english_article; thai_article; english_article]
    = Some (MultiOk r)
    /\ symmetric (similarity_matrix r)
    /\ zero_diagonal 3 (similarity_matrix r)
    /\ cell (similarity_matrix r) 0 2 = cell (similarity_matrix r) 2 0.
Proof.
  destruct (@similarity_matrix_symmetric demo_libs
              [english_article; thai_article; english_article])
    as (Hret & Hmat & _); [cbn; lia|].
  destruct Hret as [r Hr]; [repeat constructor; done|].
  exists r. split; [done|].
  destruct (Hmat r Hr) as (_ & Hsym & Hdiag).
  split; [done|]. split; [done|]. apply Hsym.
Defined.

(** C10, as stated, fails in its last clause. The matrix of an English
    article and an article whose only keyword is blank is 0 on the
    diagonal, and neither article scores near 1 against itself: without
    an entity the score is 0.7005 at most, whatever cosine the vectoriser
    returns for a content against itself (1, or 1 and a rounding error,
    here up to 0.001). *)
Lemma similarity_matrix_counterexample :
  (exists r,
     @compare_multiple_articles demo_libs
       [english_article; blank_keyword_article]
     = Some (MultiOk r)
     /\ zero_diagonal 2 (similarity_matrix r))
  /\ forall libs : PyLibs,
       (forall flag d1 d2 q,
          @tfidf_cosine libs flag d1 d2 = Some q -> (q <= 1.001)%Q) ->
       Forall (fun a =>
         exists r,
           @compare_articles libs a a = Some r
           /\ (similarity_score r <= 0.7005)%Q)
         [english_article; blank_keyword_article].
Proof.
  split.
  - destruct (@compare_multiple_returns demo_libs
                [english_article; blank_keyword_article]) as [r Hr];
      [cbn; lia | repeat constructor; done|].
    exists r. split; [done|].
    apply (@compare_multiple_matrix demo_libs
             [english_article; blank_keyword_article] r); [cbn; lia | done].
  - intros libs Hcos.
    assert (forall a, language a <> mixed -> entities a = no_entities ->
            exists r, @compare_articles libs a a = Some r
                      /\ (similarity_score r <= 0.7005)%Q) as Hscore.
    { intros a Hlang He.
      destruct (@compare_articles_returns libs a a Hlang) as [r Hr].
      exists r. split; [done|].
      destruct (@compare_articles_inv libs _ _ r Hr) as (Hc & _).
      assert (similarity_score r <= 0.5 * 1.001 + 0.2)%Q as Hle; [|lra].
      apply (@no_entity_self_score libs a r 1.001).
      - rewrite He. apply no_entities_duplicate_free.
      - unfold has_entities. rewrite He. by vm_compute.
      - done.
      - lra.
      - rewrite Hc. apply content_similarity_le; [lra | done]. }
    repeat constructor; by apply Hscore.
Qed.

(** ** Date resolution and the articles after the timeline is generated *)

Lemma resolve_date_spec (a : Article) : resolve_date a = spec_resolved_date a.
Proof.
  unfold resolve_date, spec_resolved_date.
  destruct (published_date a); [done|].
  destruct (content_dates a); [|done].
  by destruct (scraped_at a).
Qed.

Lemma date_articles_spec (l : list Article) :
  date_articles l
  = (stamped <$> l,
     omap (fun a => (fun d => set_timeline_date d a) <$> resolve_date a) l).
Proof.
  induction l as [|a l IH]; [done|].
  cbn [date_articles]. rewrite IH. unfold stamped. cbn.
  by destruct (resolve_date a).
Qed.

Lemma dated_articles_skip (a : Article) (before after : list Article) :
  resolve_date a = None ->
  (date_articles (before ++ a :: after)).2
  = (date_articles (before ++ after)).2.
Proof.
  intros Hnone. rewrite !date_articles_spec. cbn [snd].
  rewrite !omap_app. cbn. by rewrite Hnone.
Qed.

Lemma generate_timeline_events (l : list Article) :
  events <$> (generate_timeline l).2
  = (dated ← sorted_by_timeline_date (date_articles l).2;
     groups ← _group_articles_by_date dated;
     Some (_extract_timeline_events groups)).
Proof.
  unfold generate_timeline, _filter_and_sort_articles.
  destruct (date_articles l) as [l' dated]. cbn [snd].
  destruct (sorted_by_timeline_date dated) as [s|]; [|done]. cbn.
  by destruct (_group_articles_by_date s).
Qed.

Lemma generate_timeline_store (l : list Article) :
  (generate_timeline l).1 = stamped <$> l.
Proof.
  unfold generate_timeline, _filter_and_sort_articles.
  rewrite date_articles_spec. done.
Qed.

Section Dates.
Context `{PyLibs}.

Lemma compare_ignores_dates (a a' b b' : Article) :
  same_but_dates a a' -> same_but_dates b b' ->
  compare_articles a' b' = compare_articles a b.
Proof.
  intros (Hid & _ & Hsrc & _ & Hc & Hl & _ & He & Hk & _)
         (Hid' & _ & Hsrc' & _ & Hc' & Hl' & _ & He' & Hk' & _).
  unfold compare_articles.
  by rewrite <- Hid, <- Hsrc, <- Hc, <- Hl, <- He, <- Hk,
             <- Hid', <- Hsrc', <- Hc', <- He', <- Hk'.
Qed.

End Dates.

(** C5, at the failing input: an article without any date whose content
    holds no letter, labelled ['mixed'] as [_detect_language] labels it.
    The timeline leaves it out of its events, as the claim says; but the
    comparison with it as first article raises ([KeyError], the sentiment
    lists having no entry for ['mixed']) whatever the second article, so
    it is no valid input to [compare_articles]. *)
Theorem undated_mixed_comparison_failure :
  resolve_date digits_article = None
  /\ events <$> (generate_timeline [english_article; digits_article]).2
     = events <$> (generate_timeline [english_article]).2
  /\ _detect_language (content digits_article) = mixed
  /\ language digits_article = mixed
  /\ forall (libs : PyLibs) (b : Article),
       @compare_articles libs digits_article b = None.
Proof.
  split; [done|]. split; [by vm_compute|]. split; [by vm_compute|].
  split; [done|]. intros libs b.
  unfold compare_articles, _analyze_sentiment_comparison.
  change (language digits_article) with mixed.
  by rewrite (@sentiment_mixed_raises libs (content digits_article)).
Qed.

(** C9, as amended. [generate_timeline] leaves each article it is given
    with every key unchanged but [timeline_date], which it sets to the
    resolved date of the article when there is one. (The comparison is a
    function of the two records: the code reads them with [get] only.) *)
Theorem timeline_writes_timeline_date_only (l : list Article) :
  length (generate_timeline l).1 = length l
  /\ forall i a,
       l !! i = Some a ->
       exists a',
         (generate_timeline l).1 !! i = Some a'
         /\ same_but_timeline_date a a'
         /\ timeline_date a'
            = match spec_resolved_date a with
              | Some d => Some d
              | None => timeline_date a
              end.
Proof.
  rewrite generate_timeline_store. split; [apply length_fmap|].
  intros i a Hi. exists (stamped a).
  split; [by rewrite list_lookup_fmap, Hi|].
  unfold stamped. rewrite <- resolve_date_spec.
  destruct (resolve_date a); by repeat split.
Qed.

(** C9, as stated, fails: an article that enters [generate_timeline]
    without the key [timeline_date] leaves it with that key set to its
    published date. *)
Lemma timeline_writes_counterexample :
  timeline_date english_article = None
  /\ timeline_date <$> (generate_timeline [english_article]).1
     = [published_date english_article]
  /\ is_Some (published_date english_article).
Proof. split; [done|]. split; [by vm_compute | by eexists]. Qed.

(** ** The order and the grouping of the events *)

(** *** Tuples *)

Lemma tuple_cmp_antisym (a b : list Z) :
  tuple_cmp b a = CompOpp (tuple_cmp a b).
Proof.
  revert b. induction a as [|x a IH]; intros [|y b]; try done.
  cbn [tuple_cmp]. rewrite (Z.compare_antisym x y).
  destruct (x ?= y)%Z; cbn; [apply IH|done|done].
Qed.

Lemma tuple_le_trans (a b c : list Z) :
  tuple_le a b -> tuple_le b c -> tuple_le a c.
Proof.
  unfold tuple_le. revert b c.
  induction a as [|x a IH]; intros [|y b] [|z c]; try done.
  cbn [tuple_cmp].
  destruct (Z.compare_spec x y), (Z.compare_spec y z), (Z.compare_spec x z);
    try done; try lia; subst.
  apply IH.
Qed.

Lemma tuple_le_total (a b : list Z) : tuple_cmp a b <> Lt -> tuple_le b a.
Proof.
  unfold tuple_le. rewrite (tuple_cmp_antisym a b).
  by destruct (tuple_cmp a b).
Qed.

Lemma tuple_lt_le (a b : list Z) : tuple_cmp a b = Lt -> tuple_le a b.
Proof. unfold tuple_le. by intros ->. Qed.

Lemma fields_le_day_le (d1 d2 : datetime) :
  tuple_le (fields d1) (fields d2) ->
  day_le (strftime_ymd d1) (strftime_ymd d2).
Proof.
  unfold tuple_le, fields, strftime_ymd, day_le, date_before. cbn.
  destruct (Z.compare_spec (year d1) (year d2)); [|lia|done].
  destruct (Z.compare_spec (month d1) (month d2)); [|lia|done].
  destruct (Z.compare_spec (day d1) (day d2)); [|lia|done].
  intros _. left. congruence.
Qed.

Lemma day_le_neq_before k1 k2 : day_le k1 k2 -> k1 <> k2 -> date_before k1 k2.
Proof. by intros [?|?]. Qed.

(** *** The stable sort *)

Lemma article_le_trans (a b c : Article) :
  article_le a b -> article_le b c -> article_le a c.
Proof.
  intros (da & db & Ha & Hb & Hab) (db' & dc & Hb' & Hc & Hbc).
  simplify_eq. exists da, dc. eauto using tuple_le_trans.
Qed.

Lemma datetime_lt_same_offset (d1 d2 : datetime) :
  utcoffset d1 = utcoffset d2 ->
  datetime_lt d1 d2 = Some (bool_decide (tuple_cmp (fields d1) (fields d2) = Lt)).
Proof.
  intros Hoff. unfold datetime_lt, datetime_cmp. by rewrite decide_True.
Qed.

Lemma insert_by_date_sorted (offset : option Z) (x : Article)
    (key_x : datetime) (s : list Article) :
  timeline_date x = Some key_x -> utcoffset key_x = offset ->
  Forall (dated_with offset) s ->
  StronglySorted article_le s ->
  exists s',
    insert_by_date x key_x s = Some s'
    /\ s' ≡ₚ x :: s
    /\ StronglySorted article_le s'.
Proof.
  intros Hx Hoff Hdated Hsorted.
  induction s as [|y s IH].
  - exists [x]. repeat split; [done|]. repeat constructor.
  - apply Forall_cons in Hdated as [(key_y & Hy & Hoffy) Hdated].
    apply StronglySorted_cons in Hsorted as [Hhead Hsorted].
    cbn [insert_by_date]. rewrite Hy. cbn [mbind option_bind].
    rewrite datetime_lt_same_offset by congruence. cbn [mbind option_bind].
    case_bool_decide as Hlt.
    + destruct (IH Hdated Hsorted) as (s' & -> & Hperm & Hs').
      cbn [mbind option_bind]. exists (y :: s'). split; [done|]. split.
      * rewrite Hperm. apply Permutation_swap.
      * apply StronglySorted_cons. split; [|done].
        rewrite Hperm. apply Forall_cons. split; [|done].
        exists key_y, key_x. eauto using tuple_lt_le.
    + exists (x :: y :: s). split; [done|]. split; [done|].
      assert (article_le x y) as Hxy.
      { exists key_x, key_y. eauto using tuple_le_total. }
      apply StronglySorted_cons. split.
      * apply Forall_cons. split; [done|].
        eapply Forall_impl; [exact Hhead|]. intros z Hz.
        by eapply article_le_trans.
      * by apply StronglySorted_cons.
Qed.

Lemma sorted_by_timeline_date_sorted (offset : option Z) (l : list Article) :
  Forall (dated_with offset) l ->
  exists s,
    sorted_by_timeline_date l = Some s
    /\ s ≡ₚ l
    /\ StronglySorted article_le s.
Proof.
  induction 1 as [|x l (key_x & Hx & Hoff) Hdated IH].
  - exists []. repeat split; [done|constructor].
  - destruct IH as (s & Hs & Hperm & Hsorted).
    cbn [sorted_by_timeline_date]. rewrite Hs, Hx. cbn [mbind option_bind].
    destruct (insert_by_date_sorted offset x key_x s) as (s' & -> & Hperm' & Hs');
      try done.
    { by rewrite Hperm. }
    exists s'. split; [done|]. split; [|done].
    by rewrite Hperm', Hperm.
Qed.

(** When the stable sort returns, it returns a permutation. *)
Lemma insert_by_date_perm (x : Article) (key_x : datetime)
    (s s' : list Article) :
  insert_by_date x key_x s = Some s' -> s' ≡ₚ x :: s.
Proof.
  revert s'. induction s as [|y s IH]; intros s' Hs'.
  - cbn in Hs'. by injection Hs' as <-.
  - cbn [insert_by_date] in Hs'.
    destruct (timeline_date y) as [key_y|]; [|done].
    cbn [mbind option_bind] in Hs'.
    destruct (datetime_lt key_y key_x) as [[]|]; cbn [mbind option_bind] in Hs';
      [| |done].
    + destruct (insert_by_date x key_x s) as [s''|]; [|done].
      cbn in Hs'. injection Hs' as <-.
      rewrite (IH s'' eq_refl). apply Permutation_swap.
    + by injection Hs' as <-.
Qed.

Lemma sorted_by_timeline_date_perm (l s : list Article) :
  sorted_by_timeline_date l = Some s -> s ≡ₚ l.
Proof.
  revert s. induction l as [|x l IH]; intros s Hs.
  - cbn in Hs. by injection Hs as <-.
  - cbn [sorted_by_timeline_date] in Hs.
    destruct (sorted_by_timeline_date l) as [s0|]; [|done].
    cbn [mbind option_bind] in Hs.
    destruct (timeline_date x) as [key_x|]; [|done].
    cbn [mbind option_bind] in Hs.
    apply insert_by_date_perm in Hs. by rewrite Hs, (IH s0 eq_refl).
Qed.

(** *** Grouping *)

Lemma group_append_keys key a groups :
  (group_append key a groups).*1
  = if decide (key ∈ groups.*1) then groups.*1 else groups.*1 ++ [key].
Proof.
  induction groups as [|[k g] groups IH]; [done|].
  cbn [group_append]. destruct (decide (k = key)) as [->|Hne].
  - cbn. rewrite decide_True; [done|]. left.
  - cbn. rewrite IH. destruct (decide (key ∈ groups.*1)) as [Hin|Hout].
    + rewrite decide_True; [done|]. by right.
    + rewrite decide_False; [done|]. intros Hin.
      apply elem_of_cons in Hin as [?|?]; congruence.
Qed.

Lemma group_append_keys_NoDup key a groups :
  NoDup groups.*1 -> NoDup (group_append key a groups).*1.
Proof.
  intros Hnd. rewrite group_append_keys. case_decide; [done|].
  apply NoDup_app. split; [done|]. split; [|apply NoDup_singleton].
  intros k Hk Hk'. apply list_elem_of_singleton in Hk'. by subst.
Qed.

Lemma group_of_append key key' a groups :
  NoDup groups.*1 ->
  group_of key' (group_append key a groups)
  = group_of key' groups ++ (if decide (key = key') then [a] else []).
Proof.
  induction groups as [|[k g] groups IH]; intros Hnd.
  - cbn. by case_decide.
  - apply NoDup_cons in Hnd as [Hk Hnd].
    cbn [group_append]. destruct (decide (k = key)) as [->|Hne].
    + cbn [group_of]. destruct (decide (key = key')) as [->|Hne'].
      * done.
      * by rewrite app_nil_r.
    + cbn [group_of]. destruct (decide (k = key')) as [->|Hne'].
      * rewrite decide_False by congruence. by rewrite app_nil_r.
      * by apply IH.
Qed.

Lemma group_loop_spec (l : list Article)
    (groups : list ((Z * Z * Z) * list Article)) :
  Forall (fun a => is_Some (timeline_date a)) l ->
  NoDup groups.*1 ->
  exists groups',
    group_loop l groups = Some groups'
    /\ NoDup groups'.*1
    /\ (forall key, key ∈ groups'.*1 <->
          key ∈ groups.*1 \/ exists a, a ∈ l /\ article_day a = Some key)
    /\ (forall key, group_of key groups'
          = group_of key groups
            ++ filter (fun a => article_day a = Some key) l).
Proof.
  intros Hdated. revert groups.
  induction Hdated as [|a l [d Hd] _ IH]; intros groups Hnd.
  - exists groups. split; [done|]. split; [done|]. split.
    + intros key. split; [by left|]. intros [?|(a & Ha & _)]; [done|].
      by apply elem_of_nil in Ha.
    + intros key. by rewrite app_nil_r.
  - cbn [group_loop]. rewrite Hd. cbn [mbind option_bind].
    destruct (IH (group_append (strftime_ymd d) a groups))
      as (groups' & -> & Hnd' & Hkeys & Hgroups);
      [by apply group_append_keys_NoDup|].
    exists groups'. split; [done|]. split; [done|]. split.
    + intros key. rewrite Hkeys, group_append_keys.
      assert (article_day a = Some (strftime_ymd d)) as Ha
        by (unfold article_day; by rewrite Hd).
      split.
      * intros [Hin|(b & Hb & Hday)].
        -- case_decide; [by left|].
           apply elem_of_app in Hin as [?|Hin]; [by left|].
           apply list_elem_of_singleton in Hin. subst key.
           right. exists a. split; [left|done].
        -- right. exists b. split; [by right|done].
      * intros [Hin|(b & Hb & Hday)].
        -- left. case_decide; [done|]. apply elem_of_app. by left.
        -- apply elem_of_cons in Hb as [->|Hb].
           ++ left. rewrite Ha in Hday. injection Hday as <-.
              case_decide; [done|]. apply elem_of_app. right. left.
           ++ right. by exists b.
    + intros key. rewrite Hgroups, group_of_append by done.
      rewrite <- app_assoc. f_equal.
      assert (article_day a = Some (strftime_ymd d)) as Ha
        by (unfold article_day; by rewrite Hd).
      rewrite filter_cons, Ha.
      destruct (decide (strftime_ymd d = key)) as [Heq|Hne].
      * rewrite decide_True; [done|]. by rewrite Heq.
      * rewrite decide_False; [done|]. congruence.
Qed.

Lemma group_loop_ascending (l : list Article)
    (groups groups' : list ((Z * Z * Z) * list Article)) :
  StronglySorted article_le l ->
  StronglySorted date_before groups.*1 ->
  (forall key a d, key ∈ groups.*1 -> a ∈ l -> timeline_date a = Some d ->
     day_le key (strftime_ymd d)) ->
  group_loop l groups = Some groups' ->
  StronglySorted date_before groups'.*1.
Proof.
  intros Hsorted. revert groups.
  induction l as [|a l IH]; intros groups Hkeys Hbound Hrun.
  - cbn in Hrun. by injection Hrun as <-.
  - cbn [group_loop] in Hrun.
    destruct (timeline_date a) as [d|] eqn:Hd; [|done].
    cbn [mbind option_bind] in Hrun.
    apply StronglySorted_cons in Hsorted as [Hhead Hsorted].
    eapply (IH Hsorted); [| |exact Hrun].
    + rewrite group_append_keys. case_decide as Hin; [done|].
      apply StronglySorted_app_2; [|done|repeat constructor].
      intros k1 k2 Hk1 Hk2. apply list_elem_of_singleton in Hk2. subst k2.
      apply day_le_neq_before; [|congruence].
      eapply Hbound; [done|left|done].
    + intros key b db Hkey Hb Hdb.
      rewrite group_append_keys in Hkey.
      assert (key ∈ groups.*1 \/ key = strftime_ymd d) as [Hold| ->].
      { case_decide; [by left|].
        apply elem_of_app in Hkey as [?|Hkey]; [by left|].
        apply list_elem_of_singleton in Hkey. by right. }
      * eapply Hbound; [done|by right|done].
      * rewrite Forall_forall in Hhead.
        destruct (Hhead b Hb) as (da & db' & Ha' & Hb' & Hle).
        simplify_eq. by apply fields_le_day_le.
Qed.

Lemma group_of_elem key group groups :
  NoDup groups.*1 -> (key, group) ∈ groups -> group_of key groups = group.
Proof.
  induction groups as [|[k g] groups IH]; intros Hnd Hin.
  - by apply elem_of_nil in Hin.
  - apply NoDup_cons in Hnd as [Hk Hnd]. cbn [group_of].
    apply elem_of_cons in Hin as [Heq|Hin].
    + injection Heq as -> ->. by rewrite decide_True.
    + rewrite decide_False; [by apply IH|].
      intros ->. apply Hk. apply list_elem_of_fmap. by exists (key, group).
Qed.

Lemma events_dates groups :
  date <$> _extract_timeline_events groups = groups.*1.
Proof.
  unfold _extract_timeline_events. rewrite fmap_imap.
  rewrite (imap_ext _ (const fst)); [apply imap_const|].
  by intros i [k g] _.
Qed.

Lemma events_elem e groups :
  e ∈ _extract_timeline_events groups ->
  exists group, (date e, group) ∈ groups /\ article_count e = length group.
Proof.
  unfold _extract_timeline_events. intros He.
  apply list_elem_of_lookup in He as [i Hi].
  rewrite list_lookup_imap in Hi.
  destruct (groups !! i) as [[k g]|] eqn:Eg; [|done].
  cbn in Hi. injection Hi as <-. exists g. cbn. split; [|done].
  by eapply list_elem_of_lookup_2.
Qed.

Lemma stamped_day (a : Article) (d : datetime) :
  article_day (set_timeline_date d a) = Some (strftime_ymd d).
Proof. done. Qed.

Lemma dated_filter_day (key : Z * Z * Z) (l : list Article) :
  length (filter (fun a => article_day a = Some key) (date_articles l).2)
  = length (filter (fun a => resolved_day a = Some key) l).
Proof.
  rewrite date_articles_spec. cbn [snd].
  induction l as [|a l IH]; [done|].
  rewrite (filter_cons _ a l). cbn [omap list_omap].
  destruct (decide (resolved_day a = Some key)) as [Hday|Hday];
    unfold resolved_day in Hday;
    destruct (resolve_date a) as [d|];
    cbn [fmap option_fmap option_map] in Hday |- *; try done.
  - rewrite filter_cons, stamped_day, decide_True by done.
    cbn [length]. by rewrite IH.
  - by rewrite filter_cons, stamped_day, decide_False.
Qed.

Lemma dated_articles_dated (offset : option Z) (l : list Article) :
  same_offset offset l -> Forall (dated_with offset) (date_articles l).2.
Proof.
  intros Hsame. rewrite date_articles_spec. cbn [snd].
  apply Forall_forall. intros b Hb.
  apply list_elem_of_omap in Hb as (a & Ha & Hstamp).
  destruct (resolve_date a) as [d|] eqn:Hd; [|done].
  cbn in Hstamp. injection Hstamp as <-.
  exists d. split; [done|].
  unfold same_offset in Hsame. rewrite Forall_forall in Hsame.
  by apply (Hsame a Ha).
Qed.

Lemma dated_articles_have_date (l : list Article) :
  Forall (fun a => is_Some (timeline_date a)) (date_articles l).2.
Proof.
  rewrite date_articles_spec. cbn [snd].
  apply Forall_forall. intros b Hb.
  apply list_elem_of_omap in Hb as (a & Ha & Hstamp).
  destruct (resolve_date a) as [d|] eqn:Hd; [|done].
  cbn in Hstamp. injection Hstamp as <-. by eexists.
Qed.

(** When the dates the articles resolve to are all naive, or all carry one
    UTC offset, [generate_timeline] returns, and the days of its events
    are in strictly ascending order. *)
Theorem timeline_sorted_same_offset (offset : option Z) (l : list Article) :
  same_offset offset l ->
  exists t,
    (generate_timeline l).2 = Some t
    /\ StronglySorted date_before (date <$> events t).
Proof.
  intros Hsame.
  destruct (sorted_by_timeline_date_sorted offset (date_articles l).2)
    as (s & Hs & Hperm & Hsorted); [by apply dated_articles_dated|].
  assert (Forall (fun a => is_Some (timeline_date a)) s) as Hdated.
  { rewrite Hperm. apply dated_articles_have_date. }
  destruct (group_loop_spec s [] Hdated) as (groups & Hg & _);
    [apply NoDup_nil_2|].
  exists {| events := _extract_timeline_events groups;
            total_articles := length l |}.
  split.
  - unfold generate_timeline, _filter_and_sort_articles.
    destruct (date_articles l) as [l' dated]. cbn [snd] in Hs |- *.
    rewrite Hs. cbn [mbind option_bind].
    unfold _group_articles_by_date. by rewrite Hg.
  - cbn [events]. rewrite events_dates.
    eapply (group_loop_ascending s []); [done|constructor| |exact Hg].
    intros key a d Hkey. by apply elem_of_nil in Hkey.
Qed.

(** When [generate_timeline] returns, no two of its events have the same
    day, each event counts exactly the articles that resolve to its day,
    at least one, and every day an article resolves to has its event. *)
Theorem timeline_groups_by_day (l : list Article) (t : Timeline) :
  (generate_timeline l).2 = Some t ->
  NoDup (date <$> events t)
  /\ (forall e, e ∈ events t ->
        0 < article_count e
        /\ article_count e
           = length (filter (fun a => resolved_day a = Some (date e)) l))
  /\ (forall a key, a ∈ l -> resolved_day a = Some key ->
        key ∈ date <$> events t).
Proof.
  intros Hrun.
  unfold generate_timeline, _filter_and_sort_articles in Hrun.
  pose proof (dated_articles_have_date l) as Hdated.
  pose proof (fun key => dated_filter_day key l) as Hcount.
  pose proof (date_articles_spec l) as Hspec.
  destruct (date_articles l) as [l' dated]. cbn [snd] in *.
  injection Hspec as _ Hspec.
  destruct (sorted_by_timeline_date dated) as [s|] eqn:Hs; [|done].
  cbn [mbind option_bind] in Hrun.
  apply sorted_by_timeline_date_perm in Hs.
  assert (Forall (fun a => is_Some (timeline_date a)) s) as Hdated'
    by (by rewrite Hs).
  destruct (group_loop_spec s [] Hdated') as (groups & Hg & Hnd & Hkeys & Hgroups);
    [apply NoDup_nil_2|].
  unfold _group_articles_by_date in Hrun. rewrite Hg in Hrun.
  cbn in Hrun. injection Hrun as <-. cbn [events].
  rewrite events_dates. split; [done|]. split.
  - intros e He. apply events_elem in He as (group & Hin & ->).
    rewrite <- (group_of_elem _ _ _ Hnd Hin), Hgroups. cbn [group_of app].
    rewrite Hs, Hcount. split; [|done].
    rewrite <- Hcount, <- Hs.
    assert (date e ∈ groups.*1) as Hkey.
    { apply list_elem_of_fmap. by exists (date e, group). }
    apply Hkeys in Hkey as [Hkey|(a & Ha & Hday)]; [by apply elem_of_nil in Hkey|].
    assert (a ∈ filter (fun a => article_day a = Some (date e)) s) as Hf
      by (by apply list_elem_of_filter).
    destruct (filter _ s); [by apply elem_of_nil in Hf|cbn; lia].
  - intros a key Ha Hday. apply Hkeys. right.
    unfold resolved_day in Hday.
    destruct (resolve_date a) as [d|] eqn:Hd; [|done].
    exists (set_timeline_date d a). split; [|done].
    rewrite Hs, Hspec. apply list_elem_of_omap. exists a.
    by rewrite Hd.
Qed.

Lemma naive_articles_same_offset :
  same_offset None [english_article; thai_article; morning_naive;
                    undated_article].
Proof.
  unfold same_offset. repeat (apply Forall_cons; split); [..|done];
    intros d Hd; vm_compute in Hd; by simplify_eq.
Qed.

Lemma timeline_sorted_same_offset_witness :
  exists t,
    (generate_timeline [english_article; thai_article; morning_naive;
                        undated_article]).2 = Some t
    /\ StronglySorted date_before (date <$> events t).
Proof.
  exact (timeline_sorted_same_offset None _ naive_articles_same_offset).
Defined.

Lemma timeline_groups_by_day_witness :
  exists t,
    (generate_timeline [evening_utc; night_utc; midnight_bangkok]).2 = Some t
    /\ NoDup (date <$> events t).
Proof.
  assert (exists t,
            (generate_timeline [evening_utc; night_utc; midnight_bangkok]).2
            = Some t) as [t Ht] by (eexists; by vm_compute).
  exists t. split; [done|].
  by destruct (timeline_groups_by_day
                 [evening_utc; night_utc; midnight_bangkok] t Ht) as [Hnd _].
Defined.

(** C3 fails on dates that carry a UTC offset. Three articles published
    at 20:00 and 21:00 of 1 January 2024, UTC, and at 00:30 of 2 January
    2024, UTC+7, are grouped into two events, that of 2 January, with one
    article, coming before that of 1 January, with two: the sort compares
    instants, the grouping reads local days. And when the date of one
    article carries an offset and that of another does not, the sort raises
    [TypeError] and no event is returned. *)
Theorem timeline_order_failure :
  (fun t => (fun e => (date e, article_count e)) <$> events t)
    <$> (generate_timeline [evening_utc; night_utc; midnight_bangkok]).2
  = Some [((2024, 1, 2)%Z, 1); ((2024, 1, 1)%Z, 2)]
  /\ (generate_timeline [midnight_bangkok; scraped_article]).2 = None.
Proof. split; by vm_compute. Qed.

(** * Properties of the results in full *)

(** ** The comparison of several articles *)

Lemma sum_list_with_const {A} (l : list A) :
  sum_list_with (fun _ => 1) l = length l.
Proof. induction l as [|x l IH]; [done|]. cbn. by rewrite IH. Qed.

Lemma triangle_sum (n k a : nat) :
  a + k = n ->
  2 * sum_list_with (fun i => n - (i + 1)) (seq a k) = k * (k - 1).
Proof.
  revert a. induction k as [|k IH]; intros a Hn; [done|].
  cbn [seq sum_list_with]. specialize (IH (S a) ltac:(lia)).
  replace (n - (a + 1)) with k by lia. nia.
Qed.

Lemma length_index_pairs (n : nat) : 2 * length (index_pairs n) = n * (n - 1).
Proof.
  unfold index_pairs. rewrite length_bind_sum.
  rewrite (sum_list_with_ext _ (fun i => n - (i + 1))).
  - by apply triangle_sum.
  - intros i _. rewrite length_bind_sum, sum_list_with_const.
    apply length_seq.
Qed.

Lemma index_pairs_elem (n i j : nat) :
  (i, j) ∈ index_pairs n <-> i < j /\ j < n.
Proof.
  split; [apply index_pairs_spec|]. intros [Hij Hj].
  unfold index_pairs. apply list_elem_of_bind. exists i.
  split; [|apply elem_of_seq; lia].
  apply list_elem_of_bind. exists j.
  split; [by apply list_elem_of_singleton|]. apply elem_of_seq. lia.
Qed.

Section MultiPairs.
Context `{PyLibs}.

Lemma compare_pairs_spec (articles : list Article) (pairs : list (nat * nat))
    (comps comps' : list PairComparison) (m m' : list (list Q)) :
  compare_pairs articles pairs comps m = Some (comps', m') ->
  exists new,
    comps' = comps ++ new
    /\ pair_indices <$> new = pairs
    /\ Forall (records_pair articles) new.
Proof.
  revert comps m. induction pairs as [|[i j] pairs IH]; intros comps m Hrun.
  - cbn in Hrun. injection Hrun as <- _. exists []. by rewrite app_nil_r.
  - cbn [compare_pairs] in Hrun.
    destruct (articles !! i) as [ai|] eqn:Ei; [|done].
    destruct (articles !! j) as [aj|] eqn:Ej; [|done].
    cbn [mbind option_bind] in Hrun.
    destruct (compare_articles ai aj) as [c|] eqn:Ec; [|done].
    cbn [mbind option_bind] in Hrun.
    apply IH in Hrun as (new & -> & Hidx & Hrec).
    eexists (_ :: new). split; [by rewrite <- app_assoc|].
    split; [by rewrite fmap_cons, Hidx|].
    constructor; [|done]. by exists ai, aj.
Qed.

Lemma compare_multiple_inv (articles : list Article) (r : MultiComparison) :
  compare_multiple_articles articles = Some (MultiOk r) ->
  2 <= length articles
  /\ compare_pairs articles (index_pairs (length articles)) []
       (replicate (length articles) (replicate (length articles) 0%Q))
     = Some (comparisons r, similarity_matrix r)
  /\ (exists k, argmax (pc_similarity_score <$> comparisons r) = Some k
        /\ comparisons r !! k = Some (most_similar_pair r))
  /\ (exists k, argmin (pc_similarity_score <$> comparisons r) = Some k
        /\ comparisons r !! k = Some (most_different_pair r))
  /\ average_similarity r
     = (Qsum (pc_similarity_score <$> comparisons r)
        / Qnat (length (pc_similarity_score <$> comparisons r)))%Q
  /\ similarity_distribution r
     = {| high := length (filter (fun s => Qlt_bool 0.7%Q s)
                            (pc_similarity_score <$> comparisons r));
          medium :=
            length (filter (fun s => Qle_bool 0.3%Q s && Qle_bool s 0.7%Q)
                      (pc_similarity_score <$> comparisons r));
          low := length (filter (fun s => Qlt_bool s 0.3%Q)
                           (pc_similarity_score <$> comparisons r)) |}.
Proof.
  intros Hrun. unfold compare_multiple_articles in Hrun.
  destruct (length articles <? 2) eqn:E; [done|].
  apply Nat.ltb_ge in E.
  destruct (compare_pairs articles (index_pairs (length articles)) []
              (replicate (length articles) (replicate (length articles) 0%Q)))
    as [[comps m]|] eqn:Epairs; [|done].
  cbn [mbind option_bind] in Hrun.
  destruct (argmax _) as [imax|] eqn:Emax; cbn [mbind option_bind] in Hrun;
    [|done].
  destruct (argmin _) as [imin|] eqn:Emin; cbn [mbind option_bind] in Hrun;
    [|done].
  destruct (comps !! imax) eqn:Elmax; cbn [mbind option_bind] in Hrun; [|done].
  destruct (comps !! imin) eqn:Elmin; cbn [mbind option_bind] in Hrun; [|done].
  injection Hrun as <-. cbn.
  split; [done|]. split; [done|].
  split; [by exists imax|]. split; [by exists imin|]. done.
Qed.

(** The comparisons that [compare_multiple_articles] returns are those of
    the pairs of positions [(i, j)] with [i < j], in the order of the two
    loops ([i] ascending, then [j]): one for every two articles, half of
    [n * (n - 1)] for [n] articles; each entry names two positions of the
    list and holds the comparison of the articles there, with its
    similarity score copied beside it. *)
Theorem multiple_comparison_pairs (articles : list Article)
    (r : MultiComparison) :
  compare_multiple_articles articles = Some (MultiOk r) ->
  pair_indices <$> comparisons r = index_pairs (length articles)
  /\ 2 * length (comparisons r) = length articles * (length articles - 1)
  /\ Forall (fun pc => article1_index pc < article2_index pc
                       /\ article2_index pc < length articles
                       /\ records_pair articles pc) (comparisons r).
Proof.
  intros Hrun. apply compare_multiple_inv in Hrun as (_ & Hpairs & _).
  apply compare_pairs_spec in Hpairs as (new & Hnew & Hidx & Hrec).
  cbn in Hnew. rewrite Hnew.
  split; [done|]. split.
  - rewrite <- length_index_pairs, <- Hidx. by rewrite length_fmap.
  - apply Forall_forall. intros pc Hpc.
    assert (pair_indices pc ∈ index_pairs (length articles)) as Hin.
    { rewrite <- Hidx. by apply list_elem_of_fmap_2. }
    apply index_pairs_spec in Hin.
    rewrite Forall_forall in Hrec. split; [tauto|]. split; [tauto|].
    by apply Hrec.
Qed.

End MultiPairs.

Section MultiCells.
Context `{PyLibs}.

Lemma compare_pairs_cells (articles : list Article)
    (pairs : list (nat * nat)) (comps comps' : list PairComparison)
    (m m' : list (list Q)) :
  square (length articles) m ->
  Forall (fun p => p.1 < p.2) pairs ->
  compare_pairs articles pairs comps m = Some (comps', m') ->
  forall i j,
    cell m' i j
    = if decide ((i, j) ∈ pairs) then pair_score articles i j
      else if decide ((j, i) ∈ pairs) then pair_score articles j i
      else cell m i j.
Proof.
  intros Hsq Hpairs. revert comps m Hsq.
  induction Hpairs as [|[a b] pairs Hab Htail IH]; intros comps m Hsq Hrun i j.
  - cbn in Hrun. injection Hrun as _ <-.
    rewrite !decide_False by apply not_elem_of_nil. done.
  - cbn [compare_pairs] in Hrun. cbn in Hab.
    destruct (articles !! a) as [ai|] eqn:Ea; [|done].
    destruct (articles !! b) as [aj|] eqn:Eb; [|done].
    cbn [mbind option_bind] in Hrun.
    destruct (compare_articles ai aj) as [c|] eqn:Ec; [|done].
    cbn [mbind option_bind] in Hrun.
    pose proof (lookup_lt_Some _ _ _ Ea) as Ha.
    pose proof (lookup_lt_Some _ _ _ Eb) as Hb.
    assert (square (length articles) (set_cell m a b (similarity_score c)))
      as Hsq1 by by apply square_set_cell.
    eapply IH in Hrun; [|by apply square_set_cell].
    rewrite Hrun.
    assert (pair_score articles a b = Some (similarity_score c)) as Hscore.
    { unfold pair_score. rewrite Ea, Eb. cbn. by rewrite Ec. }
    rewrite (cell_set_cell (length articles)) by done.
    rewrite (cell_set_cell (length articles)) by done.
    destruct (decide ((i, j) ∈ pairs)) as [Hin|Hin].
    { rewrite decide_True; [done|]. by apply list_elem_of_further. }
    destruct (decide ((j, i) ∈ pairs)) as [Hin'|Hin'].
    { rewrite (decide_False (P := (i, j) ∈ (a, b) :: pairs)).
      - rewrite decide_True; [done|]. by apply list_elem_of_further.
      - intros Hel. apply elem_of_cons in Hel as [Heq|Hel]; [|done].
        injection Heq as -> ->.
        rewrite Forall_forall in Htail. apply Htail in Hin'. cbn in Hin'. lia. }
    destruct (decide (i = b /\ j = a)) as [[-> ->]|Hne1].
    { rewrite (decide_False (P := (b, a) ∈ (a, b) :: pairs)).
      - rewrite decide_True; [done|]. apply list_elem_of_here.
      - intros Hel. apply elem_of_cons in Hel as [Heq|Hel]; [|done].
        injection Heq as ->. lia. }
    destruct (decide (i = a /\ j = b)) as [[-> ->]|Hne2].
    { rewrite decide_True; [done|]. apply list_elem_of_here. }
    rewrite !decide_False; [done| |].
    + intros Hel. apply elem_of_cons in Hel as [Heq|Hel]; [|done].
      injection Heq as -> ->. tauto.
    + intros Hel. apply elem_of_cons in Hel as [Heq|Hel]; [|done].
      injection Heq as -> ->. tauto.
Qed.

(** Every entry of the similarity matrix above the diagonal is the score of
    the comparison of the two articles, the one of lower index first; the
    entry below the diagonal is the same number. *)
Theorem similarity_matrix_cells (articles : list Article)
    (r : MultiComparison) :
  compare_multiple_articles articles = Some (MultiOk r) ->
  forall i j a1 a2,
    i < j -> articles !! i = Some a1 -> articles !! j = Some a2 ->
    exists c,
      compare_articles a1 a2 = Some c
      /\ cell (similarity_matrix r) i j = Some (similarity_score c)
      /\ cell (similarity_matrix r) j i = Some (similarity_score c).
Proof.
  intros Hrun i j a1 a2 Hij E1 E2.
  apply compare_multiple_inv in Hrun as (_ & Hpairs & _).
  pose proof (lookup_lt_Some _ _ _ E2) as Hj.
  assert ((i, j) ∈ index_pairs (length articles)) as Hin
    by by apply index_pairs_elem.
  pose proof Hpairs as Hspec.
  apply compare_pairs_spec in Hspec as (new & Hnew & Hidx & Hrec).
  cbn in Hnew. subst new.
  assert (exists pc, pc ∈ comparisons r /\ pair_indices pc = (i, j))
    as (pc & Hpc & Hpcidx).
  { rewrite <- Hidx in Hin. apply list_elem_of_fmap in Hin as (pc & ? & ?).
    by exists pc. }
  rewrite Forall_forall in Hrec.
  destruct (Hrec pc Hpc) as (b1 & b2 & Eb1 & Eb2 & Ec & _).
  injection Hpcidx as Hi1 Hi2. rewrite Hi1 in Eb1. rewrite Hi2 in Eb2.
  assert (b1 = a1) as -> by congruence.
  assert (b2 = a2) as -> by congruence.
  exists (comparison pc). split; [done|].
  assert (pair_score articles i j = Some (similarity_score (comparison pc)))
    as Hscore.
  { unfold pair_score. rewrite E1, E2. cbn. by rewrite Ec. }
  pose proof (compare_pairs_cells articles _ _ _ _ _
                (proj1 (zeros_invariant (length articles)))
                ltac:(apply Forall_forall; intros [a b] Hab;
                      apply index_pairs_spec in Hab; cbn; lia)
                Hpairs) as Hcells.
  split.
  - rewrite Hcells. by rewrite decide_True.
  - rewrite Hcells. rewrite decide_False.
    + by rewrite decide_True.
    + intros Hji. apply index_pairs_spec in Hji. lia.
Qed.

End MultiCells.

Lemma Qlt_bool_spec (x y : Q) : Qlt_bool x y = true <-> (x < y)%Q.
Proof.
  unfold Qlt_bool. rewrite negb_true_iff. split.
  - intros Hb. apply Qnot_le_lt. intros Hle.
    apply Qle_bool_iff in Hle. congruence.
  - intros Hlt. destruct (Qle_bool y x) eqn:E; [|done].
    apply Qle_bool_iff in E. lra.
Qed.

Section ArgBest.
Variable better : Q -> Q -> bool.
Variable R : Q -> Q -> Prop.
Hypothesis better_spec : forall x best, better x best = true <-> R best x.
Hypothesis R_irrefl : forall a, ~ R a a.
Hypothesis R_trans : forall a b c, R a b -> R b c -> R a c.
Hypothesis R_negtrans : forall a b c, ~ R a b -> ~ R b c -> ~ R a c.
Hypothesis R_dec : forall a b, R a b \/ ~ R a b.

Lemma arg_best_spec (l pre : list Q) (best_i : nat) (best : Q) :
  pre !! best_i = Some best ->
  (forall x, x ∈ pre -> ~ R best x) ->
  (forall k x, k < best_i -> pre !! k = Some x -> R x best) ->
  exists v,
    (pre ++ l) !! arg_best better l (length pre) best_i best = Some v
    /\ (forall x, x ∈ pre ++ l -> ~ R v x)
    /\ (forall k x, k < arg_best better l (length pre) best_i best ->
          (pre ++ l) !! k = Some x -> R x v).
Proof.
  revert pre best_i best.
  induction l as [|x l IH]; intros pre best_i best Hbest Hmax Hfirst.
  - cbn [arg_best]. rewrite app_nil_r. by exists best.
  - cbn [arg_best].
    assert (length (pre ++ [x]) = S (length pre)) as Hlen
      by (rewrite length_app; cbn; lia).
    replace (pre ++ x :: l) with ((pre ++ [x]) ++ l)
      by (by rewrite <- app_assoc).
    rewrite <- Hlen.
    destruct (better x best) eqn:Eb.
    + apply better_spec in Eb. apply IH.
      * rewrite lookup_app_r by lia. by rewrite Nat.sub_diag.
      * intros y Hy Hxy. apply elem_of_app in Hy as [Hy|Hy].
        -- apply (Hmax y Hy). by eapply R_trans.
        -- apply list_elem_of_singleton in Hy as ->. by eapply R_irrefl.
      * intros k y Hk Hy. rewrite lookup_app_l in Hy by done.
        destruct (R_dec y x) as [|Hn]; [done|]. exfalso.
        apply (R_negtrans best y x); [|done..].
        apply Hmax. by eapply list_elem_of_lookup_2.
    + assert (~ R best x) as Hn.
      { intros Hr. apply better_spec in Hr. congruence. }
      apply IH.
      * rewrite lookup_app_l; [done|]. by eapply lookup_lt_Some.
      * intros y Hy. apply elem_of_app in Hy as [Hy|Hy]; [by apply Hmax|].
        by apply list_elem_of_singleton in Hy as ->.
      * intros k y Hk Hy. apply (Hfirst k); [done|].
        rewrite lookup_app_l in Hy; [done|].
        apply lookup_lt_Some in Hbest. lia.
Qed.

End ArgBest.

Lemma argmax_spec (l : list Q) (k : nat) :
  argmax l = Some k ->
  exists v,
    l !! k = Some v
    /\ (forall x, x ∈ l -> (x <= v)%Q)
    /\ (forall k' x, k' < k -> l !! k' = Some x -> (x < v)%Q).
Proof.
  destruct l as [|x l]; [done|]. cbn [argmax]. intros [= <-].
  destruct (arg_best_spec (fun x best => Qlt_bool best x) Qlt
              ltac:(intros; apply Qlt_bool_spec)
              ltac:(intros a; apply Qlt_irrefl)
              ltac:(intros a b c; apply Qlt_trans)
              ltac:(intros a b c ? ?; lra)
              ltac:(intros a b; destruct (Qlt_le_dec a b); [by left|right; lra])
              l [x] 0 x) as (v & Hv & Hmax & Hfirst); [done| | |].
  - intros y Hy. apply list_elem_of_singleton in Hy as ->. apply Qlt_irrefl.
  - intros k x0 Hk. lia.
  - exists v. split; [done|]. split; [|done].
    intros y Hy. apply Qnot_lt_le. by apply Hmax.
Qed.

Lemma argmin_spec (l : list Q) (k : nat) :
  argmin l = Some k ->
  exists v,
    l !! k = Some v
    /\ (forall x, x ∈ l -> (v <= x)%Q)
    /\ (forall k' x, k' < k -> l !! k' = Some x -> (v < x)%Q).
Proof.
  destruct l as [|x l]; [done|]. cbn [argmin]. intros [= <-].
  destruct (arg_best_spec (fun x best => Qlt_bool x best) (fun a b => (b < a)%Q)
              ltac:(intros; apply Qlt_bool_spec)
              ltac:(intros a; apply Qlt_irrefl)
              ltac:(intros a b c; cbn; intros; lra)
              ltac:(intros a b c; cbn; intros; lra)
              ltac:(intros a b; cbn; destruct (Qlt_le_dec b a); [by left|right; lra])
              l [x] 0 x) as (v & Hv & Hmax & Hfirst); [done| | |].
  - intros y Hy. apply list_elem_of_singleton in Hy as ->. apply Qlt_irrefl.
  - intros k x0 Hk. lia.
  - exists v. split; [done|]. split; [|done].
    intros y Hy. apply Qnot_lt_le. by apply Hmax.
Qed.

Lemma Qsum_bounds (l : list Q) (lo hi : Q) :
  Forall (fun x => lo <= x <= hi)%Q l ->
  (lo * Qnat (length l) <= Qsum l <= hi * Qnat (length l))%Q.
Proof.
  induction 1 as [|x l [Hlo Hhi] _ [IHlo IHhi]].
  - cbn [length Qsum foldr]. change (Qnat 0) with 0%Q. lra.
  - cbn [length Qsum foldr].
    assert (Qnat (S (length l)) == 1 + Qnat (length l))%Q as ->.
    { change (S (length l)) with (1 + length l). by rewrite Qnat_add. }
    change (foldr Qplus 0%Q l) with (Qsum l). lra.
Qed.

Lemma mean_bounds (l : list Q) (lo hi : Q) :
  l <> [] ->
  Forall (fun x => lo <= x <= hi)%Q l ->
  (lo <= Qsum l / Qnat (length l) <= hi)%Q.
Proof.
  intros Hne Hall. destruct (Qsum_bounds l lo hi Hall) as [Hlo Hhi].
  assert (0 < Qnat (length l))%Q as Hpos.
  { apply Qnat_pos. destruct l; [done|]. cbn. lia. }
  split.
  - by apply Qle_shift_div_l.
  - by apply Qle_shift_div_r.
Qed.

Lemma distribution_total (l : list Q) :
  length (filter (fun s => Qlt_bool 0.7%Q s) l)
  + length (filter (fun s => Qle_bool 0.3%Q s && Qle_bool s 0.7%Q) l)
  + length (filter (fun s => Qlt_bool s 0.3%Q) l)
  = length l.
Proof.
  induction l as [|x l IH]; [done|].
  rewrite !filter_cons. unfold Qlt_bool in *.
  destruct (Qle_bool x 0.7) eqn:E7, (Qle_bool 0.3 x) eqn:E3; cbn;
    repeat case_decide; try tauto; cbn; try lia.
  exfalso.
  assert (~ (x <= 0.7)%Q) by (intros Hle; apply Qle_bool_iff in Hle; congruence).
  assert (~ (0.3 <= x)%Q) by (intros Hle; apply Qle_bool_iff in Hle; congruence).
  lra.
Qed.

Section MultiSummary.
Context `{PyLibs}.

Lemma compare_pairs_scores (articles : list Article) (r : MultiComparison) :
  compare_multiple_articles articles = Some (MultiOk r) ->
  comparisons r <> []
  /\ Forall (fun pc => 0 <= pc_similarity_score pc <= 1)%Q (comparisons r).
Proof.
  intros Hrun. pose proof Hrun as Hinv.
  apply compare_multiple_inv in Hinv as (Hlen & Hpairs & _).
  apply compare_pairs_spec in Hpairs as (new & Hnew & Hidx & Hrec).
  cbn in Hnew. subst new. split.
  - intros Hnil. rewrite Hnil in Hidx. cbn in Hidx.
    by apply (index_pairs_nonempty _ Hlen).
  - eapply Forall_impl; [exact Hrec|]. intros pc (a1 & a2 & _ & _ & Hc & ->).
    apply compare_articles_inv in Hc as (_ & _ & _ & _ & ->).
    apply overall_similarity_range.
Qed.

(** The pair reported as most similar is the first entry of [comparisons]
    with the greatest score, the pair reported as most different the first
    one with the least score. *)
Theorem most_similar_and_most_different (articles : list Article)
    (r : MultiComparison) :
  compare_multiple_articles articles = Some (MultiOk r) ->
  (exists k,
     comparisons r !! k = Some (most_similar_pair r)
     /\ (forall pc, pc ∈ comparisons r ->
           (pc_similarity_score pc
            <= pc_similarity_score (most_similar_pair r))%Q)
     /\ (forall k' pc, k' < k -> comparisons r !! k' = Some pc ->
           (pc_similarity_score pc
            < pc_similarity_score (most_similar_pair r))%Q))
  /\ (exists k,
        comparisons r !! k = Some (most_different_pair r)
        /\ (forall pc, pc ∈ comparisons r ->
              (pc_similarity_score (most_different_pair r)
               <= pc_similarity_score pc)%Q)
        /\ (forall k' pc, k' < k -> comparisons r !! k' = Some pc ->
              (pc_similarity_score (most_different_pair r)
               < pc_similarity_score pc)%Q)).
Proof.
  intros Hrun.
  apply compare_multiple_inv in Hrun
    as (_ & _ & (kmax & Hmax & Emax) & (kmin & Hmin & Emin) & _).
  split.
  - exists kmax. split; [done|].
    apply argmax_spec in Hmax as (v & Hv & Hall & Hfirst).
    rewrite list_lookup_fmap, Emax in Hv. injection Hv as <-.
    split.
    + intros pc Hpc. apply Hall. by apply list_elem_of_fmap_2.
    + intros k' pc Hk Hpc. apply (Hfirst k'); [done|].
      by rewrite list_lookup_fmap, Hpc.
  - exists kmin. split; [done|].
    apply argmin_spec in Hmin as (v & Hv & Hall & Hfirst).
    rewrite list_lookup_fmap, Emin in Hv. injection Hv as <-.
    split.
    + intros pc Hpc. apply Hall. by apply list_elem_of_fmap_2.
    + intros k' pc Hk Hpc. apply (Hfirst k'); [done|].
      by rewrite list_lookup_fmap, Hpc.
Qed.

(** The three classes of [similarity_distribution] (above 0.7, from 0.3 to
    0.7, below 0.3) together count every comparison once, and the average
    similarity lies between 0 and 1. *)
Theorem similarity_summary (articles : list Article) (r : MultiComparison) :
  compare_multiple_articles articles = Some (MultiOk r) ->
  high (similarity_distribution r) + medium (similarity_distribution r)
  + low (similarity_distribution r) = length (comparisons r)
  /\ (average_similarity r
      == Qsum (pc_similarity_score <$> comparisons r)
         / Qnat (length (comparisons r)))%Q
  /\ (0 <= average_similarity r <= 1)%Q.
Proof.
  intros Hrun. destruct (compare_pairs_scores _ _ Hrun) as [Hne Hscores].
  apply compare_multiple_inv in Hrun as (_ & _ & _ & _ & Havg & Hdist).
  split; [|split].
  - rewrite Hdist. cbn [high medium low].
    rewrite distribution_total. apply length_fmap.
  - rewrite Havg. by rewrite length_fmap.
  - rewrite Havg. apply mean_bounds.
    + intros Hnil. by apply fmap_nil_inv in Hnil.
    + by apply Forall_fmap.
Qed.


End MultiSummary.

(** ** Entity and keyword comparison *)

Lemma size_list_to_set_le (l : list str) :
  size (list_to_set l : gset str) <= length l.
Proof.
  induction l as [|x l IH]; [by rewrite list_to_set_nil, size_empty|].
  rewrite list_to_set_cons, size_union_alt, size_singleton. cbn.
  pose proof (subseteq_size (list_to_set l ∖ {[x]}) (list_to_set l : gset str)
                ltac:(set_solver)).
  lia.
Qed.

Lemma size_inter_diff (X Y : gset str) :
  size (X ∩ Y) + size (X ∖ Y) = size X.
Proof.
  rewrite <- size_union by set_solver. f_equal.
  apply set_eq. intros x. destruct (decide (x ∈ Y)); set_solver.
Qed.

Lemma length_elements_size (X : gset str) : length (elements X) = size X.
Proof. done. Qed.

Lemma spec_entity_count_le (e : gmap str (list str)) :
  spec_entity_count e <= total_entities e.
Proof.
  rewrite total_entities_dom. unfold spec_entity_count.
  induction (elements (dom e)) as [|t l IH]; [done|].
  cbn. unfold entity_set at 1.
  pose proof (size_list_to_set_le (default [] (e !! t))). lia.
Qed.

Lemma common_and_different (e1 e2 : gmap str (list str)) :
  let ec := _compare_entities e1 e2 in
  ec_total_common ec + ec_total_different_1 ec = spec_entity_count e1
  /\ ec_total_common ec + ec_total_different_2 ec = spec_entity_count e2
  /\ ec_total_common ec = spec_common_entities e1 e2.
Proof.
  cbn. rewrite !length_bind_sum. unfold spec_entity_count, spec_common_entities.
  split; [|split; [|done]].
  - rewrite <- (sum_over_union_l _ (dom e1) (dom e2)).
    + induction (elements (dom e1 ∪ dom e2)) as [|t l IH]; [done|].
      cbn. rewrite !length_elements_size.
      pose proof (size_inter_diff (entity_set e1 t) (entity_set e2 t)). lia.
    + intros t Ht. by rewrite entity_set_outside, size_empty.
  - rewrite <- (sum_over_union_l _ (dom e2) (dom e1)).
    + rewrite (union_comm_L (dom e2) (dom e1)).
      induction (elements (dom e1 ∪ dom e2)) as [|t l IH]; [done|].
      cbn. rewrite !length_elements_size.
      pose proof (size_inter_diff (entity_set e2 t) (entity_set e1 t)).
      rewrite (intersection_comm_L (entity_set e1 t) (entity_set e2 t)). lia.
    + intros t Ht. by rewrite entity_set_outside, size_empty.
Qed.

Lemma share_range (c n : nat) :
  c <= n -> (0 <= (if 0 <? n then Qnat c / Qnat n else 0) <= 1)%Q.
Proof.
  intros Hle. destruct (0 <? n) eqn:E; [|lra].
  apply Nat.ltb_lt in E. pose proof (Qnat_pos n E) as Hn.
  pose proof (Qnat_nonneg c) as Hc.
  split.
  - apply Qle_shift_div_l; [done|]. lra.
  - apply Qle_shift_div_r; [done|].
    unfold Qnat. rewrite Qmult_1_l, <- Zle_Qle. lia.
Qed.

Lemma entity_similarity_range (e1 e2 : gmap str (list str)) :
  (0 <= entity_similarity (_compare_entities e1 e2) <= 1)%Q.
Proof.
  destruct (common_and_different e1 e2) as (H1 & H2 & _).
  pose proof (spec_entity_count_le e1). pose proof (spec_entity_count_le e2).
  cbn in H1, H2 |- *. apply share_range. lia.
Qed.

Lemma keyword_similarity_range (k1 k2 : list Keyword) :
  (0 <= keyword_similarity (_compare_keywords k1 k2) <= 1)%Q.
Proof.
  cbn. apply share_range. rewrite length_elements_size.
  pose proof (size_inter_diff (keyword_set k1) (keyword_set k2)).
  pose proof (size_inter_diff (keyword_set k2) (keyword_set k1)).
  rewrite (intersection_comm_L (keyword_set k2)) in H0. lia.
Qed.

Lemma elem_of_per_type (e1 e2 : gmap str (list str))
    (f : str -> gset str) (x : str) :
  (forall t, t ∉ dom e1 ∪ dom e2 -> f t = ∅) ->
  x ∈ elements (dom e1 ∪ dom e2) ≫= (fun t => elements (f t))
  <-> exists t, x ∈ f t.
Proof.
  intros Hout. rewrite list_elem_of_bind. split.
  - intros (t & Hx & _). exists t. by apply elem_of_elements.
  - intros (t & Hx). exists t. split; [by apply elem_of_elements|].
    apply elem_of_elements. destruct (decide (t ∈ dom e1 ∪ dom e2)); [done|].
    rewrite Hout in Hx by done. set_solver.
Qed.

(** The entity comparison, for any two entity tables. An entity is listed
    as common when the two articles have it under one same type, as
    different for an article when the article has it under a type under
    which the other has not; the common and the different entities of an
    article together are its entities, counted once per type; and the
    similarity lies between 0 and 1. *)
Theorem entity_comparison_accounts (e1 e2 : gmap str (list str)) :
  let ec := _compare_entities e1 e2 in
  (forall x, x ∈ common_entities ec
     <-> exists t, x ∈ entity_set e1 t /\ x ∈ entity_set e2 t)
  /\ (forall x, x ∈ different_entities1 ec
        <-> exists t, x ∈ entity_set e1 t /\ x ∉ entity_set e2 t)
  /\ (forall x, x ∈ different_entities2 ec
        <-> exists t, x ∈ entity_set e2 t /\ x ∉ entity_set e1 t)
  /\ ec_total_common ec + ec_total_different_1 ec = spec_entity_count e1
  /\ ec_total_common ec + ec_total_different_2 ec = spec_entity_count e2
  /\ (0 <= entity_similarity ec <= 1)%Q.
Proof.
  intros ec.
  assert (forall t, t ∉ dom e1 ∪ dom e2 ->
            entity_set e1 t = ∅ /\ entity_set e2 t = ∅) as Hout.
  { intros t Ht. split; apply entity_set_outside; set_solver. }
  destruct (common_and_different e1 e2) as (H1 & H2 & _).
  split; [|split; [|split; [|split; [|split]]]]; try done.
  - intros x. unfold ec, _compare_entities. cbn [common_entities].
    rewrite elem_of_per_type.
    + by setoid_rewrite elem_of_intersection.
    + intros t Ht. destruct (Hout t Ht) as [-> ->]. set_solver.
  - intros x. unfold ec, _compare_entities. cbn [different_entities1].
    rewrite elem_of_per_type.
    + by setoid_rewrite elem_of_difference.
    + intros t Ht. destruct (Hout t Ht) as [-> ->]. set_solver.
  - intros x. unfold ec, _compare_entities. cbn [different_entities2].
    rewrite elem_of_per_type.
    + by setoid_rewrite elem_of_difference.
    + intros t Ht. destruct (Hout t Ht) as [-> ->]. set_solver.
  - apply entity_similarity_range.
Qed.

Lemma elem_of_keyword_set (kws : list Keyword) (x : str) :
  x ∈ keyword_set kws
  <-> strip x <> [] /\ exists kw, kw ∈ kws /\ keyword_string kw = x.
Proof.
  unfold keyword_set. rewrite elem_of_filter, elem_of_list_to_set.
  rewrite list_elem_of_fmap. naive_solver.
Qed.

Lemma share_one (c n : nat) :
  ((if 0 <? n then Qnat (2 * c) / Qnat n else 0) == 1)%Q
  <-> 0 < n /\ 2 * c = n.
Proof.
  destruct (0 <? n) eqn:E.
  - apply Nat.ltb_lt in E. pose proof (Qnat_pos n E) as Hn. split.
    + intros Heq. split; [done|].
      assert (Qnat (2 * c) == Qnat n)%Q as Hq.
      { rewrite <- (Qmult_1_l (Qnat n)), <- Heq. field. lra. }
      unfold Qnat in Hq. apply (proj1 (inject_Z_injective _ _)) in Hq. lia.
    + intros [_ <-]. field. lra.
  - apply Nat.ltb_ge in E.
    split; [intros Heq; exfalso; lra|intros [Hpos _]; exfalso; lia].
Qed.

Lemma share_zero (c n : nat) :
  c <= n ->
  ((if 0 <? n then Qnat (2 * c) / Qnat n else 0) == 0)%Q <-> c = 0.
Proof.
  intros Hle. destruct (0 <? n) eqn:E.
  - apply Nat.ltb_lt in E. pose proof (Qnat_pos n E) as Hn. split.
    + intros Heq.
      assert (Qnat (2 * c) == Qnat 0)%Q as Hq.
      { change (Qnat 0) with 0%Q. rewrite <- (Qmult_0_l (Qnat n)), <- Heq.
        field. lra. }
      unfold Qnat in Hq. apply (proj1 (inject_Z_injective _ _)) in Hq. lia.
    + intros ->. change (Qnat (2 * 0)) with 0%Q. field. lra.
  - apply Nat.ltb_ge in E. split; [intros _; lia|reflexivity].
Qed.

(** The keyword comparison, for any two keyword lists. The keywords
    compared are the keyword strings that are not blank; the common ones
    and those of one article only together are the keywords of that
    article; the similarity lies between 0 and 1, is 1 exactly when the two
    sets are equal and not empty, and 0 exactly when no keyword is
    common. *)
Theorem keyword_comparison_accounts (k1 k2 : list Keyword) :
  let kc := _compare_keywords k1 k2 in
  (forall x, x ∈ keyword_set k1
     <-> strip x <> [] /\ exists kw, kw ∈ k1 /\ keyword_string kw = x)
  /\ (forall x, x ∈ common_keywords kc
        <-> x ∈ keyword_set k1 /\ x ∈ keyword_set k2)
  /\ (forall x, x ∈ different_keywords1 kc
        <-> x ∈ keyword_set k1 /\ x ∉ keyword_set k2)
  /\ (forall x, x ∈ different_keywords2 kc
        <-> x ∈ keyword_set k2 /\ x ∉ keyword_set k1)
  /\ kc_total_common kc + kc_total_different_1 kc = size (keyword_set k1)
  /\ kc_total_common kc + kc_total_different_2 kc = size (keyword_set k2)
  /\ (0 <= keyword_similarity kc <= 1)%Q
  /\ ((keyword_similarity kc == 1)%Q
      <-> keyword_set k1 = keyword_set k2 /\ keyword_set k1 <> ∅)
  /\ ((keyword_similarity kc == 0)%Q <-> common_keywords kc = []).
Proof.
  intros kc.
  pose proof (size_inter_diff (keyword_set k1) (keyword_set k2)) as H1.
  pose proof (size_inter_diff (keyword_set k2) (keyword_set k1)) as H2.
  rewrite (intersection_comm_L (keyword_set k2)) in H2.
  split; [apply elem_of_keyword_set|].
  split; [intros x; cbn; by rewrite elem_of_elements, elem_of_intersection|].
  split; [intros x; cbn; by rewrite elem_of_elements, elem_of_difference|].
  split; [intros x; cbn; by rewrite elem_of_elements, elem_of_difference|].
  split; [by cbn; rewrite !length_elements_size|].
  split; [by cbn; rewrite !length_elements_size|].
  split; [apply keyword_similarity_range|].
  split.
  - unfold kc, _compare_keywords. cbn [keyword_similarity].
    rewrite share_one, length_elements_size. split.
    + intros [Hpos Heq].
      assert (keyword_set k1 ∩ keyword_set k2 = keyword_set k1) as Ha.
      { apply set_subseteq_size_eq; [set_solver|lia]. }
      assert (keyword_set k1 ∩ keyword_set k2 = keyword_set k2) as Hb.
      { apply set_subseteq_size_eq; [set_solver|lia]. }
      split; [congruence|]. intros Hempty.
      assert (keyword_set k2 = ∅) as Hempty2 by congruence.
      rewrite Hempty, Hempty2, size_empty in Hpos. lia.
    + intros [Heq Hne]. rewrite <- Heq.
      assert (keyword_set k1 ∩ keyword_set k1 = keyword_set k1) as ->
        by set_solver.
      assert (size (keyword_set k1) <> 0) as Hsize.
      { intros Hz. by apply size_empty_iff, leibniz_equiv in Hz. }
      lia.
  - unfold kc, _compare_keywords. cbn [keyword_similarity common_keywords].
    rewrite share_zero by (rewrite length_elements_size; lia).
    split.
    + intros Hz. by apply nil_length_inv.
    + by intros ->.
Qed.

(** ** Sentiment comparison *)

Section SentimentRange.
Context `{PyLibs}.

Lemma analyze_sentiment_range (content : str) (lang : Language)
    (s : Sentiment) :
  _analyze_sentiment content lang = Some s -> shares_in_unit s.
Proof.
  unfold _analyze_sentiment, shares_in_unit.
  destruct content as [|c content].
  { intros [= <-]. cbn. lra. }
  set (text := lower (c :: content)).
  destruct lang; [| |done]; cbn [sentiment_keywords mbind option_bind].
  all: match goal with
       | |- context [count_keywords ?pk ?t + count_keywords ?nk ?t
                     + count_keywords ?uk ?t =? 0] =>
           set (p := count_keywords pk t);
           set (n := count_keywords nk t);
           set (u := count_keywords uk t)
       end.
  all: destruct (p + n + u =? 0) eqn:E.
  all: intros [= <-]; cbn [positive neutral negative]; try lra.
  all: apply Nat.eqb_neq in E.
  all: repeat split; apply hit_share_range; lia.
Qed.

Lemma Qabs_diff_range (x y : Q) :
  (0 <= x <= 1)%Q -> (0 <= y <= 1)%Q -> (0 <= Qabs_diff x y <= 1)%Q.
Proof.
  intros Hx Hy. unfold Qabs_diff. split; [apply Qabs_nonneg|].
  apply Qabs_Qle_condition. lra.
Qed.

Lemma Qabs_diff_same (x : Q) : (Qabs_diff x x == 0)%Q.
Proof.
  unfold Qabs_diff. assert (x - x == 0)%Q as -> by ring. reflexivity.
Qed.

(** The sentiment comparison holds the sentiment of each content, and
    every share in it (those of the two contents and the three
    differences) lies between 0 and 1; the differences are those of the
    shares in absolute value, 0 when the two contents are the same. *)
Theorem sentiment_comparison_range (content1 content2 : str)
    (lang : Language) (sc : SentimentComparison) :
  _analyze_sentiment_comparison content1 content2 lang = Some sc ->
  _analyze_sentiment content1 lang = Some (sc_article1 sc)
  /\ _analyze_sentiment content2 lang = Some (sc_article2 sc)
  /\ shares_in_unit (sc_article1 sc)
  /\ shares_in_unit (sc_article2 sc)
  /\ shares_in_unit (sentiment_difference sc)
  /\ (content1 = content2 ->
      (positive (sentiment_difference sc) == 0)%Q
      /\ (neutral (sentiment_difference sc) == 0)%Q
      /\ (negative (sentiment_difference sc) == 0)%Q).
Proof.
  unfold _analyze_sentiment_comparison. intros Hrun.
  destruct (_analyze_sentiment content1 lang) as [s1|] eqn:E1; [|done].
  destruct (_analyze_sentiment content2 lang) as [s2|] eqn:E2; [|done].
  cbn in Hrun. injection Hrun as <-. cbn.
  pose proof (analyze_sentiment_range _ _ _ E1) as Hr1.
  pose proof (analyze_sentiment_range _ _ _ E2) as Hr2.
  split; [done|]. split; [done|].
  split; [done|]. split; [done|].
  destruct Hr1 as (Hp1 & Hu1 & Hn1), Hr2 as (Hp2 & Hu2 & Hn2).
  split.
  - unfold shares_in_unit. cbn.
    split; [|split]; by apply Qabs_diff_range.
  - intros ->. assert (s1 = s2) as -> by congruence.
    repeat split; apply Qabs_diff_same.
Qed.

End SentimentRange.

(** ** Stripping *)

Lemma dropwhile_snoc (p : N -> bool) (l : str) (c : N) :
  p c = false -> dropwhile p (l ++ [c]) = dropwhile p l ++ [c].
Proof.
  intros Hc. induction l as [|x l IH]; cbn; [by rewrite Hc|].
  by destruct (p x).
Qed.

Lemma dropwhile_fixed (p : N -> bool) (l : str) :
  (forall c, head l = Some c -> p c = false) -> dropwhile p l = l.
Proof.
  destruct l as [|x l]; [done|]. intros Hhead. cbn.
  by rewrite (Hhead x).
Qed.

Lemma dropwhile_head (p : N -> bool) (l : str) (c : N) :
  head (dropwhile p l) = Some c -> p c = false.
Proof.
  induction l as [|x l IH]; [done|]. cbn.
  destruct (p x) eqn:E; [done|]. cbn. by intros [= <-].
Qed.

Lemma dropwhile_suffix (p : N -> bool) (l : str) :
  exists dropped, l = dropped ++ dropwhile p l.
Proof.
  induction l as [|x l [d IH]]; [by exists []|]. cbn.
  destruct (p x).
  - exists (x :: d). cbn. by rewrite <- IH.
  - by exists [].
Qed.

Lemma head_reverse (l : str) : head (reverse l) = last l.
Proof.
  induction l as [|x l IH] using rev_ind; [done|].
  by rewrite reverse_snoc, last_snoc.
Qed.

Lemma strip_head (s : str) (c : N) :
  head (strip s) = Some c -> isspace c = false.
Proof.
  unfold strip, rstrip, lstrip.
  destruct (dropwhile isspace s) as [|x t] eqn:E; [done|].
  assert (isspace x = false) as Hx.
  { apply (dropwhile_head isspace s). by rewrite E. }
  rewrite reverse_cons, dropwhile_snoc, reverse_snoc by done.
  cbn. by intros [= <-].
Qed.

Lemma strip_last (s : str) (c : N) :
  last (strip s) = Some c -> isspace c = false.
Proof.
  unfold strip, rstrip. rewrite <- head_reverse, reverse_involutive.
  apply dropwhile_head.
Qed.

Lemma strip_fixed (s : str) :
  (forall c, head s = Some c -> isspace c = false) ->
  (forall c, last s = Some c -> isspace c = false) ->
  strip s = s.
Proof.
  intros Hhead Hlast. unfold strip, rstrip, lstrip.
  rewrite (dropwhile_fixed isspace s) by done.
  rewrite dropwhile_fixed; [apply reverse_involutive|].
  intros c. rewrite head_reverse. apply Hlast.
Qed.

Lemma strip_idemp (s : str) : strip (strip s) = strip s.
Proof. apply strip_fixed; [apply strip_head|apply strip_last]. Qed.

Lemma strip_occurs (s : str) : occurs_in (strip s) s.
Proof.
  unfold strip, rstrip, lstrip.
  destruct (dropwhile_suffix isspace s) as [d Hd].
  destruct (dropwhile_suffix isspace (reverse (dropwhile isspace s)))
    as [d' Hd'].
  exists d, (reverse d').
  rewrite <- reverse_app, <- Hd', reverse_involutive. done.
Qed.

Lemma occurs_in_trans (a b c : str) :
  occurs_in a b -> occurs_in b c -> occurs_in a c.
Proof.
  intros (b1 & a1 & ->) (b2 & a2 & ->).
  exists (b2 ++ b1), (a1 ++ a2). by rewrite <- !app_assoc.
Qed.

Lemma Forall_occurs (P : N -> Prop) (a b : str) :
  occurs_in a b -> Forall P b -> Forall P a.
Proof.
  intros (b1 & a1 & ->) Hall.
  apply Forall_app in Hall as [_ Hall]. by apply Forall_app in Hall as [Hall _].
Qed.

(** ** Sentences *)

Lemma split_each_pieces (s cur piece : str) :
  Forall (fun c => is_terminator c = false) cur ->
  piece ∈ split_each cur s ->
  Forall (fun c => is_terminator c = false) piece
  /\ occurs_in piece (reverse cur ++ s).
Proof.
  revert cur. induction s as [|c s IH]; intros cur Hcur Hin.
  - cbn in Hin. apply list_elem_of_singleton in Hin as ->.
    split; [by apply Forall_reverse|]. exists [], []. by rewrite !app_nil_r.
  - cbn [split_each] in Hin. destruct (is_terminator c) eqn:Ec.
    + apply elem_of_cons in Hin as [->|Hin].
      * split; [by apply Forall_reverse|]. by exists [], (c :: s).
      * apply (IH []) in Hin as [Hp (b & a & Hs)]; [|done].
        split; [done|]. cbn in Hs. exists (reverse cur ++ c :: b), a.
        rewrite Hs. by rewrite <- app_assoc.
    + apply (IH (c :: cur)) in Hin as [Hp Hocc]; [|by constructor].
      split; [done|].
      by rewrite reverse_cons, <- app_assoc in Hocc.
Qed.

Lemma split_filter_eq (P : str -> Prop) `{!forall s, Decision (P s)}
    (s : str) :
  ~ P [] ->
  (forall cur, filter P (split_each cur s) = filter P (split_runs false cur s))
  /\ filter P (split_each [] s) = filter P (split_runs true [] s).
Proof.
  intros Hnil. induction s as [|c s [IH1 IH2]]; [by split|].
  split.
  - intros cur. cbn [split_each split_runs].
    destruct (is_terminator c).
    + by rewrite !filter_cons, IH2.
    + apply IH1.
  - cbn [split_each split_runs].
    destruct (is_terminator c).
    + cbn [reverse rev_append]. rewrite filter_cons_False by done. apply IH2.
    + apply IH1.
Qed.

Lemma split_sentences_language (content : str) (language : Language) :
  _split_sentences content language = _split_sentences content th.
Proof.
  unfold _split_sentences. rewrite (bool_decide_eq_true_2 (th = th)) by done.
  case_bool_decide; [done|]. f_equal. symmetry.
  refine (proj1 (split_filter_eq _ content _) []).
  intros Hfalse. by vm_compute in Hfalse.
Qed.

(** Every sentence that [_split_sentences] returns is longer than 10
    characters, has no white space at either end and none of the
    characters [.], [!] and [?], and occurs in the content; and the
    sentences are the same whatever the language: the pieces on which the
    two splitting rules differ are empty, and are dropped for being too
    short. *)
Theorem split_sentences_clean (content : str) (language : Language) :
  Forall (fun s => 10 < length s
                   /\ strip s = s
                   /\ Forall (fun c => is_terminator c = false) s
                   /\ occurs_in s content)
    (_split_sentences content language)
  /\ _split_sentences content language = _split_sentences content th.
Proof.
  split; [|apply split_sentences_language].
  rewrite split_sentences_language. unfold _split_sentences.
  rewrite (bool_decide_eq_true_2 (th = th)) by done.
  apply Forall_fmap, Forall_forall. intros piece Hin.
  apply list_elem_of_filter in Hin as [Hlen Hin]. cbn.
  apply (split_each_pieces content []) in Hin as [Hterm Hocc]; [|done].
  cbn in Hocc.
  split; [by apply Nat.ltb_lt, Is_true_true|].
  split; [apply strip_idemp|].
  split.
  - eapply Forall_occurs; [apply strip_occurs|done].
  - eapply occurs_in_trans; [apply strip_occurs|done].
Qed.

(** ** Content differences *)

Lemma filter_all {A} (P : A -> Prop) `{!forall x, Decision (P x)}
    (l : list A) :
  Forall P l -> filter P l = l.
Proof.
  induction 1 as [|x l Hx _ IH]; [done|].
  by rewrite filter_cons_True, IH.
Qed.

Lemma filter_none {A} (P : A -> Prop) `{!forall x, Decision (P x)}
    (l : list A) :
  Forall (fun x => ~ P x) l -> filter P l = [].
Proof.
  induction 1 as [|x l Hx _ IH]; [done|].
  by rewrite filter_cons_False.
Qed.

Lemma split_sentences_stripped (content s : str) (language : Language) :
  s ∈ _split_sentences content language -> strip s = s.
Proof.
  unfold _split_sentences. intros Hin.
  apply list_elem_of_fmap in Hin as (piece & -> & _). apply strip_idemp.
Qed.

Lemma significant_spec `{PyLibs} (kind : difference_type) (article : nat)
    (only_in : gset str) :
  length (significant kind article only_in) <= 5
  /\ Forall (fun d => d_type d = kind /\ d_article d = article
                      /\ 30 < length (d_text d)
                      /\ exists sentence,
                           sentence ∈ only_in /\ d_text d = strip sentence)
       (significant kind article only_in).
Proof.
  unfold significant. split.
  - rewrite length_fmap.
    etransitivity; [apply length_filter|]. rewrite length_take. lia.
  - apply Forall_fmap, Forall_forall. intros sentence Hin.
    apply list_elem_of_filter in Hin as [Hlen Hin]. cbn.
    split; [done|]. split; [done|].
    split; [by apply Nat.ltb_lt, Is_true_true|].
    exists sentence. split; [|done].
    apply list_elem_of_lookup_1 in Hin as [i Hi].
    apply lookup_take_Some in Hi as [Hi _].
    rewrite <- elem_of_elements, <- (set_iteration_perm only_in).
    by eapply list_elem_of_lookup_2.
Qed.

(** The content differences: at most five sentences of each article, hence
    at most ten entries, ['removed'] ones first; each entry is a sentence
    of one article, longer than 30 characters, that is not a sentence of
    the other, marked ['removed'] and 1 for the first article, ['added']
    and 2 for the second; and the language has no effect on them. *)
Theorem content_differences_bounds `{PyLibs} (content1 content2 : str)
    (language : Language) :
  let differences := _find_content_differences content1 content2 language in
  length differences <= 10
  /\ length (filter (fun d => d_type d = removed) differences) <= 5
  /\ length (filter (fun d => d_type d = added) differences) <= 5
  /\ Forall (fun d => 30 < length (d_text d)
                      /\ difference_of (_split_sentences content1 language)
                           (_split_sentences content2 language) d)
       differences
  /\ differences = _find_content_differences content1 content2 th.
Proof.
  intros differences. unfold differences, _find_content_differences.
  set (set1 := list_to_set (_split_sentences content1 language) : gset str).
  set (set2 := list_to_set (_split_sentences content2 language) : gset str).
  destruct (significant_spec removed 1 (set1 ∖ set2)) as [Hlen1 Hall1].
  destruct (significant_spec added 2 (set2 ∖ set1)) as [Hlen2 Hall2].
  assert (filter (fun d => d_type d = removed)
            (significant removed 1 (set1 ∖ set2)
             ++ significant added 2 (set2 ∖ set1))
          = significant removed 1 (set1 ∖ set2)) as Hremoved.
  { rewrite filter_app, filter_all, filter_none; [by rewrite app_nil_r| |].
    - eapply Forall_impl; [exact Hall2|]. intros d (-> & _). done.
    - eapply Forall_impl; [exact Hall1|]. by intros d (-> & _). }
  assert (filter (fun d => d_type d = added)
            (significant removed 1 (set1 ∖ set2)
             ++ significant added 2 (set2 ∖ set1))
          = significant added 2 (set2 ∖ set1)) as Hadded.
  { rewrite filter_app, filter_none, filter_all; [done| |].
    - eapply Forall_impl; [exact Hall2|]. by intros d (-> & _).
    - eapply Forall_impl; [exact Hall1|]. intros d (-> & _). done. }
  split; [rewrite length_app; lia|].
  split; [by rewrite Hremoved|]. split; [by rewrite Hadded|].
  split.
  - apply Forall_app. split.
    + eapply Forall_impl; [exact Hall1|].
      intros d (Hkind & Hart & Hlen & sentence & Hin & Htext).
      split; [done|]. unfold difference_of. rewrite Hkind.
      apply elem_of_difference in Hin as [Hin Hout].
      unfold set1 in Hin. unfold set2 in Hout.
      rewrite elem_of_list_to_set in Hin, Hout.
      rewrite (split_sentences_stripped _ _ _ Hin) in Htext.
      by rewrite Htext.
    + eapply Forall_impl; [exact Hall2|].
      intros d (Hkind & Hart & Hlen & sentence & Hin & Htext).
      split; [done|]. unfold difference_of. rewrite Hkind.
      apply elem_of_difference in Hin as [Hin Hout].
      unfold set2 in Hin. unfold set1 in Hout.
      rewrite elem_of_list_to_set in Hin, Hout.
      rewrite (split_sentences_stripped _ _ _ Hin) in Htext.
      by rewrite Htext.
  - unfold set1, set2.
    by rewrite (split_sentences_language content1),
      (split_sentences_language content2).
Qed.

(** ** Text cleaning and the overall score *)

Lemma strip_spaces (l : str) :
  Forall (fun c => isspace c = true) l -> strip l = [].
Proof.
  intros Hall. unfold strip, lstrip.
  assert (dropwhile isspace l = []) as ->; [|done].
  induction Hall as [|c l Hc _ IH]; [done|]. cbn. by rewrite Hc.
Qed.

Section Preprocess.
Context `{PyLibs}.

Lemma collapse_spaces_blank (text : str) (in_run : bool) :
  Forall (fun c => is_word c = false) text ->
  Forall (fun c => c = 32%N)
    (map (fun c => if negb (is_word c || isspace c) then 32%N else c)
       (collapse_spaces in_run text)).
Proof.
  intros Hall. revert in_run.
  induction Hall as [|c text Hc _ IH]; intros in_run; [done|].
  cbn [collapse_spaces]. destruct (isspace c) eqn:Es.
  - destruct in_run; [apply IH|]. cbn [map]. constructor; [|apply IH].
    assert (is_word 32%N = false) as -> by done. done.
  - cbn [map]. rewrite Hc, Es. cbn. constructor; [done|apply IH].
Qed.

Lemma preprocess_blank (text : str) (language : Language) :
  Forall (fun c => is_word c = false) text -> _preprocess_text text language = [].
Proof.
  intros Hall. unfold _preprocess_text. destruct text as [|c text]; [done|].
  pose proof (collapse_spaces_blank (c :: text) false Hall) as Hblank.
  set (cleaned := map _ _) in *. clearbody cleaned.
  assert (lower cleaned = cleaned) as ->.
  { unfold lower.
    assert (forallb is_ascii cleaned = true) as ->.
    { apply forallb_forall. intros x Hx. apply list_elem_of_In in Hx.
      rewrite Forall_forall in Hblank. by rewrite (Hblank x Hx). }
    induction Hblank as [|x l -> _ IH]; [done|]. cbn. by rewrite IH. }
  apply strip_spaces. eapply Forall_impl; [exact Hblank|]. by intros x ->.
Qed.

Lemma collapse_spaces_ascii (text : str) (in_run : bool) :
  Forall (fun c => is_ascii c = true) text ->
  Forall (fun c => is_ascii c = true /\ (isspace c = true -> c = 32%N))
    (collapse_spaces in_run text).
Proof.
  intros Hall. revert in_run.
  induction Hall as [|c text Hc _ IH]; intros in_run; [done|].
  cbn [collapse_spaces]. destruct (isspace c) eqn:Es.
  - destruct in_run; [apply IH|]. constructor; [done|apply IH].
  - constructor; [|apply IH]. split; [done|]. congruence.
Qed.

Lemma ascii_lower_clean (c : N) :
  is_ascii c = true ->
  is_word c = true \/ c = 32%N ->
  is_clean_char (ascii_lower c) = true.
Proof.
  intros Hascii Hc. unfold is_word in Hc. rewrite Hascii in Hc.
  unfold is_clean_char, ascii_lower, ascii_isalnum, is_ascii in *.
  destruct (in_range 65 90 c) eqn:Eupper; unfold in_range in *;
    repeat match goal with
           | H : _ \/ _ |- _ => destruct H
           | H : _ || _ = true |- _ => apply orb_true_iff in H
           | H : _ && _ = true |- _ => apply andb_true_iff in H as [? ?]
           | H : _ && _ = false |- _ => apply andb_false_iff in H
           | H : (_ <=? _)%N = true |- _ => apply N.leb_le in H
           | H : (_ <=? _)%N = false |- _ => apply N.leb_gt in H
           | H : (_ <? _)%N = true |- _ => apply N.ltb_lt in H
           | H : (_ =? _)%N = true |- _ => apply N.eqb_eq in H
           end;
    repeat rewrite orb_true_iff; repeat rewrite andb_true_iff;
    repeat rewrite N.leb_le; repeat rewrite N.eqb_eq; lia.
Qed.

Lemma preprocess_ascii (text : str) (language : Language) :
  forallb is_ascii text = true ->
  Forall (fun c => is_clean_char c = true) (_preprocess_text text language).
Proof.
  intros Hascii. unfold _preprocess_text.
  destruct text as [|c0 text0]; [done|].
  assert (Forall (fun c => is_ascii c = true) (c0 :: text0)) as Hall.
  { apply Forall_forall. intros x Hx. apply list_elem_of_In in Hx.
    by apply (proj1 (forallb_forall _ _) Hascii). }
  pose proof (collapse_spaces_ascii _ false Hall) as Hcollapsed.
  set (collapsed := collapse_spaces false (c0 :: text0)) in *.
  clearbody collapsed.
  assert (Forall (fun c => is_ascii c = true /\ (is_word c = true \/ c = 32%N))
            (map (fun c => if negb (is_word c || isspace c) then 32%N else c)
               collapsed)) as Hmapped.
  { apply Forall_forall. intros x Hx. apply list_elem_of_In, in_map_iff in Hx
      as (c & <- & Hc).
    apply list_elem_of_In in Hc. rewrite Forall_forall in Hcollapsed.
    destruct (Hcollapsed c Hc) as [Hca Hcs].
    destruct (is_word c) eqn:Ew; cbn; [by split; [|left]|].
    destruct (isspace c) eqn:Es; cbn; [|by split; [|right]].
    split; [done|]. right. by apply Hcs. }
  set (mapped := map _ collapsed) in *. clearbody mapped.
  eapply Forall_occurs; [apply strip_occurs|].
  unfold lower.
  assert (forallb is_ascii mapped = true) as ->.
  { apply forallb_forall. intros x Hx. apply list_elem_of_In in Hx.
    rewrite Forall_forall in Hmapped. by apply Hmapped. }
  apply Forall_forall. intros x Hx. apply list_elem_of_In, in_map_iff in Hx
    as (c & <- & Hc).
  apply list_elem_of_In in Hc. rewrite Forall_forall in Hmapped.
  destruct (Hmapped c Hc) as [Hca Hcw]. by apply ascii_lower_clean.
Qed.

Lemma preprocess_stripped (text : str) (language : Language) :
  strip (_preprocess_text text language) = _preprocess_text text language.
Proof.
  unfold _preprocess_text. destruct text; [done|]. apply strip_idemp.
Qed.

Lemma content_similarity_blank (text other : str) (language : Language) :
  _preprocess_text text language = [] ->
  _calculate_content_similarity text other language = 0%Q
  /\ _calculate_content_similarity other text language = 0%Q.
Proof.
  intros Hblank. unfold _calculate_content_similarity. rewrite Hblank.
  split.
  - destruct text, other; try done.
  - destruct other, text; try done.
    by destruct (_preprocess_text (n :: other) language).
Qed.

(** The text that [_preprocess_text] hands to the vectoriser has no white
    space at either end; for an ASCII text it is made of lower-case
    letters, digits, underscores and single-character spaces only; and a
    text without any word character (punctuation and white space only) is
    cleaned to the empty string, so that its content similarity with any
    text is 0. *)
Theorem preprocess_text_clean (text : str) (language : Language) :
  strip (_preprocess_text text language) = _preprocess_text text language
  /\ (forallb is_ascii text = true ->
      Forall (fun c => is_clean_char c = true)
        (_preprocess_text text language))
  /\ (Forall (fun c => is_word c = false) text ->
      _preprocess_text text language = []
      /\ forall other,
           _calculate_content_similarity text other language = 0%Q
           /\ _calculate_content_similarity other text language = 0%Q).
Proof.
  split; [apply preprocess_stripped|]. split; [apply preprocess_ascii|].
  intros Hblank. pose proof (preprocess_blank text language Hblank) as Hnil.
  split; [done|]. intros other. by apply content_similarity_blank.
Qed.

(** With a cosine between 0 and 1, the three similarities of a comparison
    lie between 0 and 1 and the overall score is exactly their weighted sum
    [0.5 * content + 0.3 * entities + 0.2 * keywords]: the final clamp to
    the range 0 to 1 never changes the value. *)
Theorem similarity_score_weighted (a b : Article) (r : ComparisonResult) :
  (forall flag d1 d2 q, tfidf_cosine flag d1 d2 = Some q -> (0 <= q <= 1)%Q) ->
  compare_articles a b = Some r ->
  (0 <= content_similarity r <= 1)%Q
  /\ (0 <= entity_similarity (entity_comparison r) <= 1)%Q
  /\ (0 <= keyword_similarity (keyword_comparison r) <= 1)%Q
  /\ (similarity_score r
      == 0.5 * content_similarity r
         + 0.3 * entity_similarity (entity_comparison r)
         + 0.2 * keyword_similarity (keyword_comparison r))%Q.
Proof.
  intros Hcos Hrun.
  apply compare_articles_inv in Hrun as (Hc & He & Hk & _ & Hs).
  assert (0 <= content_similarity r <= 1)%Q as Hcr
    by (rewrite Hc; by apply content_similarity_range).
  assert (0 <= entity_similarity (entity_comparison r) <= 1)%Q as Her
    by (rewrite He; apply entity_similarity_range).
  assert (0 <= keyword_similarity (keyword_comparison r) <= 1)%Q as Hkr
    by (rewrite Hk; apply keyword_similarity_range).
  split; [done|]. split; [done|]. split; [done|].
  rewrite Hs. unfold _calculate_overall_similarity.
  rewrite Q.min_l.
  - rewrite Q.max_l; lra.
  - rewrite Q.max_l; lra.
Qed.

End Preprocess.

(** ** The events and the totals of a timeline *)

Lemma event_intensity_range (group : list Article) :
  (0 <= _calculate_event_intensity group <= 10)%Q.
Proof.
  destruct (decide (group = [])) as [->|Hne]; [cbn; lra|].
  rewrite (intensity_unfold group Hne).
  split; [|eapply Qle_trans; [apply Q.le_min_r|lra]].
  apply Q.min_glb; [|lra].
  rewrite foldl_score_sum.
  assert (0 <= Qsum (article_score <$> group))%Q as Hs.
  { apply Qsum_nonneg, Forall_fmap, Forall_forall.
    intros a _. apply article_score_nonneg. }
  assert (0 < Qnat (length group))%Q as Hn.
  { apply Qnat_pos. destruct group; [done|cbn; lia]. }
  assert (0 <= (0.0 + Qsum (article_score <$> group)) / Qnat (length group))%Q.
  { apply Qle_shift_div_l; [done|]. lra. }
  lra.
Qed.

Lemma generate_timeline_inv (l : list Article) (t : Timeline) :
  (generate_timeline l).2 = Some t ->
  exists s groups,
    sorted_by_timeline_date (date_articles l).2 = Some s
    /\ s ≡ₚ (date_articles l).2
    /\ group_loop s [] = Some groups
    /\ NoDup groups.*1
    /\ (forall key, group_of key groups
          = filter (fun a => article_day a = Some key) s)
    /\ t = {| events := _extract_timeline_events groups;
              total_articles := length l |}.
Proof.
  intros Hrun.
  unfold generate_timeline, _filter_and_sort_articles in Hrun.
  pose proof (dated_articles_have_date l) as Hdated.
  destruct (date_articles l) as [l' dated]. cbn [snd] in *.
  destruct (sorted_by_timeline_date dated) as [s|] eqn:Hs; [|done].
  cbn [mbind option_bind] in Hrun.
  pose proof (sorted_by_timeline_date_perm _ _ Hs) as Hperm.
  assert (Forall (fun a => is_Some (timeline_date a)) s) as Hdated'
    by (by rewrite Hperm).
  destruct (group_loop_spec s [] Hdated')
    as (groups & Hg & Hnd & Hkeys & Hgroups); [apply NoDup_nil_2|].
  unfold _group_articles_by_date in Hrun. rewrite Hg in Hrun.
  cbn in Hrun. injection Hrun as <-.
  exists s, groups. repeat split; try done.
Qed.

Lemma imap_index {A B} (f : nat -> B) (l : list A) :
  imap (fun i _ => f i) l = f <$> seq 0 (length l).
Proof.
  revert f. induction l as [|x l IH]; intros f; [done|].
  cbn [imap length seq fmap list_fmap]. f_equal.
  change (imap ((fun i _ => f i) ∘ S) l) with (imap (fun i _ => f (S i)) l).
  rewrite (IH (fun i => f (S i))).
  rewrite <- (fmap_S_seq 0), <- list_fmap_compose. done.
Qed.

Lemma events_ids groups :
  event_id <$> _extract_timeline_events groups = seq 1 (length groups).
Proof.
  unfold _extract_timeline_events. rewrite fmap_imap.
  rewrite (imap_ext _ (fun i _ => S i)).
  - rewrite imap_index. apply fmap_S_seq.
  - by intros i [k g] _.
Qed.

Lemma events_elem_inv e groups :
  e ∈ _extract_timeline_events groups ->
  exists i key group,
    groups !! i = Some (key, group) /\ e = timeline_event i (key, group).
Proof.
  unfold _extract_timeline_events. intros He.
  apply list_elem_of_lookup in He as [i Hi].
  rewrite list_lookup_imap in Hi.
  destruct (groups !! i) as [[k g]|] eqn:Eg; [|done].
  cbn in Hi. injection Hi as <-. by exists i, k, g.
Qed.

Lemma refs_fields (group : list Article) :
  ref_fields <$> imap article_ref group = article_fields <$> group.
Proof.
  rewrite fmap_imap. rewrite (imap_ext _ (const article_fields)); [apply imap_const|].
  done.
Qed.

Lemma dated_fields_day (key : Z * Z * Z) (l : list Article) :
  article_fields <$> filter (fun a => article_day a = Some key) (date_articles l).2
  = article_fields <$> filter (fun a => resolved_day a = Some key) l.
Proof.
  rewrite date_articles_spec. cbn [snd].
  induction l as [|a l IH]; [done|].
  rewrite (filter_cons _ a l). cbn [omap list_omap].
  destruct (decide (resolved_day a = Some key)) as [Hday|Hday];
    unfold resolved_day in Hday;
    destruct (resolve_date a) as [d|];
    cbn [fmap option_fmap option_map] in Hday |- *; try done.
  - rewrite filter_cons, stamped_day, decide_True by done.
    rewrite !fmap_cons. by rewrite IH.
  - by rewrite filter_cons, stamped_day, decide_False.
Qed.

(** When [generate_timeline] returns, its events are numbered 1, 2, 3, ...
    in the order of the list; each has an intensity between 0 and 10,
    counts the articles it lists, lists (by title, source and url) exactly
    the articles given that resolve to its day, and names each of their
    sources once. *)
Theorem timeline_events_shape (l : list Article) (t : Timeline) :
  (generate_timeline l).2 = Some t ->
  event_id <$> events t = seq 1 (length (events t))
  /\ Forall (fun e =>
       (0 <= intensity e <= 10)%Q
       /\ article_count e = length (articles e)
       /\ ref_fields <$> articles e
          ≡ₚ article_fields
               <$> filter (fun a => resolved_day a = Some (date e)) l
       /\ NoDup (sources e)
       /\ (forall src, src ∈ sources e <-> src ∈ ref_source <$> articles e))
     (events t).
Proof.
  intros Hrun.
  apply generate_timeline_inv in Hrun
    as (s & groups & _ & Hperm & _ & Hnd & Hgroups & ->).
  cbn [events]. split.
  - rewrite events_ids. unfold _extract_timeline_events.
    by rewrite length_imap.
  - apply Forall_forall. intros e He.
    apply events_elem_inv in He as (i & key & group & Hi & ->).
    cbn [timeline_event intensity article_count articles sources date].
    split; [apply event_intensity_range|].
    split; [by rewrite length_imap|].
    split.
    + rewrite refs_fields.
      assert ((key, group) ∈ groups) as Hin
        by (by eapply list_elem_of_lookup_2).
      rewrite <- (group_of_elem _ _ _ Hnd Hin), Hgroups.
      rewrite <- dated_fields_day. by rewrite Hperm.
    + split; [apply NoDup_elements|].
      intros src. rewrite elem_of_elements, elem_of_list_to_set.
      assert (ref_source <$> imap article_ref group = source <$> group) as ->.
      { rewrite fmap_imap.
        rewrite (imap_ext _ (const source)); [apply imap_const|done]. }
      done.
Qed.

Lemma group_append_total key a groups :
  sum_list (length <$> (group_append key a groups).*2)
  = S (sum_list (length <$> groups.*2)).
Proof.
  induction groups as [|[k g] groups IH]; [done|].
  cbn [group_append]. case_decide.
  - cbn. rewrite length_app. cbn. lia.
  - cbn. cbn in IH. rewrite IH. lia.
Qed.

Lemma group_loop_total (l : list Article) groups groups' :
  group_loop l groups = Some groups' ->
  sum_list (length <$> groups'.*2)
  = sum_list (length <$> groups.*2) + length l.
Proof.
  revert groups. induction l as [|a l IH]; intros groups Hrun.
  - cbn in Hrun. injection Hrun as <-. cbn. lia.
  - cbn [group_loop] in Hrun.
    destruct (timeline_date a) as [d|]; [|done]. cbn in Hrun.
    apply IH in Hrun. rewrite Hrun, group_append_total. cbn. lia.
Qed.

Lemma events_counts groups :
  article_count <$> _extract_timeline_events groups = length <$> groups.*2.
Proof.
  unfold _extract_timeline_events. rewrite fmap_imap.
  rewrite (imap_ext _ (const (fun g => length g.2))).
  - rewrite imap_const. by rewrite <- list_fmap_compose.
  - by intros i [k g] _.
Qed.

Lemma length_dated (l : list Article) :
  length (date_articles l).2
  = length (filter (fun a => is_Some (resolve_date a)) l).
Proof.
  rewrite date_articles_spec. cbn [snd].
  induction l as [|a l IH]; [done|].
  rewrite filter_cons. cbn [omap list_omap].
  destruct (resolve_date a) as [d|]; cbn.
  - rewrite decide_True by by eexists. cbn. by rewrite IH.
  - rewrite decide_False by by intros [? ?]. done.
Qed.

(** When [generate_timeline] returns, [total_articles] is the number of
    articles given, and the article counts of the events add up to the
    number of those that have a date, which is all of them when every
    article carries its time of scraping; there is no event exactly when no
    article has a date. *)
Theorem timeline_counts_total (l : list Article) (t : Timeline) :
  (generate_timeline l).2 = Some t ->
  total_articles t = length l
  /\ sum_list (article_count <$> events t)
     = length (filter (fun a => is_Some (resolve_date a)) l)
  /\ sum_list (article_count <$> events t) <= total_articles t
  /\ (Forall (fun a => is_Some (scraped_at a)) l ->
      sum_list (article_count <$> events t) = total_articles t)
  /\ (events t = [] <-> Forall (fun a => resolve_date a = None) l).
Proof.
  intros Hrun.
  apply generate_timeline_inv in Hrun
    as (s & groups & _ & Hperm & Hloop & Hnd & Hgroups & ->).
  cbn [events total_articles].
  assert (sum_list (article_count <$> _extract_timeline_events groups)
          = length (filter (fun a => is_Some (resolve_date a)) l)) as Hsum.
  { rewrite events_counts, (group_loop_total _ _ _ Hloop). cbn.
    by rewrite Hperm, length_dated. }
  split; [done|]. split; [done|].
  split; [rewrite Hsum; apply length_filter|].
  split.
  - intros Hscraped. rewrite Hsum. f_equal. apply filter_all.
    eapply Forall_impl; [exact Hscraped|]. intros a [d Hd].
    unfold resolve_date. destruct (published_date a); [by eexists|].
    destruct (content_dates a); [|by eexists]. by rewrite Hd.
  - split.
    + intros Hnil. rewrite Hnil in Hsum. cbn in Hsum.
      apply Forall_forall. intros a Ha.
      destruct (resolve_date a) as [d|] eqn:Hd; [|done]. exfalso.
      assert (a ∈ filter (fun a => is_Some (resolve_date a)) l) as Hf.
      { apply list_elem_of_filter. split; [by rewrite Hd; eexists|done]. }
      destruct (filter _ l); [by apply elem_of_nil in Hf|done].
    + intros Hnone.
      assert (filter (fun a => is_Some (resolve_date a)) l = []) as Hf.
      { apply filter_none. eapply Forall_impl; [exact Hnone|].
        intros a -> [? ?]. done. }
      rewrite Hf in Hsum. cbn in Hsum.
      rewrite events_counts, (group_loop_total _ _ _ Hloop) in Hsum.
      cbn in Hsum. assert (s = []) as -> by (destruct s; [done|cbn in Hsum; lia]).
      cbn in Hloop. by injection Hloop as <-.
Qed.

Lemma same_fields_stamp (a a' : Article) :
  same_but_timeline_date a a' ->
  (fun d => set_timeline_date d a') <$> resolve_date a'
  = (fun d => set_timeline_date d a) <$> resolve_date a.
Proof.
  intros (Hid & Hurl & Hsrc & Htitle & Hc & Hp & Hs & Hl & Htok & He & Hk
          & Hcd & Hw).
  unfold resolve_date, set_timeline_date.
  rewrite <- Hid, <- Hurl, <- Hsrc, <- Htitle, <- Hc, <- Hp, <- Hs, <- Hl,
    <- Htok, <- He, <- Hk, <- Hcd, <- Hw. done.
Qed.

Lemma dated_same_fields (l l' : list Article) :
  Forall2 same_but_timeline_date l l' ->
  (date_articles l').2 = (date_articles l).2.
Proof.
  intros Hsame. rewrite !date_articles_spec. cbn [snd].
  induction Hsame as [|a a' l l' Ha _ IH]; [done|].
  cbn [omap list_omap]. by rewrite (same_fields_stamp a a' Ha), IH.
Qed.

Lemma generate_timeline_snd (l : list Article) :
  (generate_timeline l).2
  = (dated ← sorted_by_timeline_date (date_articles l).2;
     groups ← _group_articles_by_date dated;
     Some {| events := _extract_timeline_events groups;
             total_articles := length l |}).
Proof.
  unfold generate_timeline, _filter_and_sort_articles.
  by destruct (date_articles l) as [l0 dated].
Qed.

Lemma stamped_same_fields (a : Article) : same_but_timeline_date a (stamped a).
Proof. unfold stamped. destruct (resolve_date a); by repeat split. Qed.

Lemma stamped_idemp (a : Article) : stamped (stamped a) = stamped a.
Proof.
  unfold stamped. destruct (resolve_date a) as [d|] eqn:Hd.
  - change (resolve_date (set_timeline_date d a)) with (resolve_date a).
    by rewrite Hd.
  - by rewrite Hd.
Qed.

Lemma group_of_lookup (key : Z * Z * Z) (x : Article)
    (groups : list ((Z * Z * Z) * list Article)) :
  x ∈ group_of key groups ->
  exists i, groups !! i = Some (key, group_of key groups).
Proof.
  induction groups as [|[k g] groups IH]; intros Hx.
  - by apply elem_of_nil in Hx.
  - cbn [group_of] in Hx |- *. destruct (decide (k = key)) as [->|Hk].
    + by exists 0.
    + destruct (IH Hx) as [i Hi]. by exists (S i).
Qed.

(** An article with a date is listed by the event of the day of that
    date. *)
Lemma resolved_article_listed (l : list Article) (t : Timeline)
    (a : Article) (d : datetime) :
  (generate_timeline l).2 = Some t -> a ∈ l -> resolve_date a = Some d ->
  exists e,
    e ∈ events t /\ date e = strftime_ymd d
    /\ article_fields a ∈ ref_fields <$> articles e.
Proof.
  intros Hrun Ha Hd.
  destruct (generate_timeline_inv l t Hrun)
    as (s & groups & _ & Hperm & _ & Hnd & Hgroups & ->).
  assert (set_timeline_date d a ∈ s) as Hs.
  { rewrite Hperm, date_articles_spec. cbn [snd].
    apply list_elem_of_omap. exists a. split; [done|]. by rewrite Hd. }
  assert (set_timeline_date d a ∈ group_of (strftime_ymd d) groups) as Hg.
  { rewrite Hgroups. apply list_elem_of_filter. split; [apply stamped_day|done]. }
  destruct (group_of_lookup _ _ _ Hg) as [i Hi].
  exists (timeline_event i (strftime_ymd d, group_of (strftime_ymd d) groups)).
  split; [|split; [done|]].
  - cbn [events]. unfold _extract_timeline_events.
    apply list_elem_of_lookup. exists i. by rewrite list_lookup_imap, Hi.
  - cbn [articles timeline_event]. rewrite refs_fields.
    apply list_elem_of_fmap. by exists (set_timeline_date d a).
Qed.

(** The date given to an article is the first present of its published
    date, the first date found in its content and its time of scraping;
    an article with one is kept, stamped with it, among the dated articles,
    and the event of the day of that date lists it whenever the timeline
    can be built; an article with none is left out of them, so that the
    events are those of the list without it; and the comparison reads no
    date, its outcome being the same for two articles that differ in their
    dates only, and it returns a result for any article of language ['th']
    or ['en'], dated or not. *)
Theorem date_resolution `{PyLibs} (a : Article)
    (before after : list Article) :
  resolve_date a = spec_resolved_date a
  /\ (forall d, spec_resolved_date a = Some d ->
      set_timeline_date d a ∈ (date_articles (before ++ a :: after)).2
      /\ forall t, (generate_timeline (before ++ a :: after)).2 = Some t ->
           exists e,
             e ∈ events t /\ date e = strftime_ymd d
             /\ article_fields a ∈ ref_fields <$> articles e)
  /\ (spec_resolved_date a = None ->
      (date_articles (before ++ a :: after)).2
      = (date_articles (before ++ after)).2
      /\ events <$> (generate_timeline (before ++ a :: after)).2
         = events <$> (generate_timeline (before ++ after)).2)
  /\ (forall a' b,
        same_but_dates a a' ->
        compare_articles a' b = compare_articles a b
        /\ compare_articles b a' = compare_articles b a)
  /\ (language a <> mixed -> forall b, is_Some (compare_articles a b)).
Proof.
  split; [apply resolve_date_spec|]. split; [|split; [|split]].
  - intros d Hd. rewrite <- resolve_date_spec in Hd. split.
    + rewrite date_articles_spec. cbn [snd].
      apply list_elem_of_omap. exists a. split; [set_solver|].
      by rewrite Hd.
    + intros t Hrun.
      apply (resolved_article_listed _ t a d Hrun); [set_solver | done].
  - intros Hnone. rewrite <- resolve_date_spec in Hnone.
    pose proof (dated_articles_skip a before after Hnone) as Hskip.
    split; [done|]. by rewrite !generate_timeline_events, Hskip.
  - intros a' b Hsame.
    assert (same_but_dates b b) as Hb by (by repeat split).
    split; by apply compare_ignores_dates.
  - intros Hlang b. by apply compare_articles_returns.
Qed.

(** The timeline does not depend on the [timeline_date] the articles come
    with; and a second call on the articles that a first call has stamped
    returns the same timeline and changes no article any further. *)
Theorem timeline_second_run (l : list Article) :
  generate_timeline (generate_timeline l).1 = generate_timeline l
  /\ forall l', Forall2 same_but_timeline_date l l' ->
       (generate_timeline l').2 = (generate_timeline l).2.
Proof.
  assert (forall l', Forall2 same_but_timeline_date l l' ->
            (generate_timeline l').2 = (generate_timeline l).2) as Hsame.
  { intros l' Hl'. rewrite !generate_timeline_snd.
    by rewrite (dated_same_fields l l' Hl'), (Forall2_length _ _ _ Hl'). }
  split; [|done].
  rewrite (surjective_pairing (generate_timeline (generate_timeline l).1)).
  rewrite (surjective_pairing (generate_timeline l)) at 3.
  f_equal.
  - rewrite !generate_timeline_store, <- list_fmap_compose.
    apply list_fmap_ext. intros i a _. apply stamped_idemp.
  - apply Hsame. rewrite generate_timeline_store.
    apply Forall2_fmap_r, Forall_Forall2_diag, Forall_forall.
    intros a _. apply stamped_same_fields.
Qed.

(** ** Counters *)

Section Counters.
Context {V : Type} (plus : V -> V -> V) (zero : V).

Lemma add_to_keys key amount (counts : list (str * V)) :
  (add_to plus zero key amount counts).*1
  = if decide (key ∈ counts.*1) then counts.*1 else counts.*1 ++ [key].
Proof.
  induction counts as [|[k v] counts IH]; [done|].
  cbn [add_to]. destruct (decide (k = key)) as [->|Hne].
  - cbn. rewrite decide_True; [done|]. left.
  - cbn. rewrite IH.
    destruct (decide (key ∈ counts.*1)) as [Hin|Hin].
    + rewrite decide_True; [done|]. by right.
    + rewrite decide_False; [done|].
      intros Hel. apply elem_of_cons in Hel as [Heq|Hel]; [congruence|done].
Qed.

Lemma add_to_NoDup key amount (counts : list (str * V)) :
  NoDup counts.*1 -> NoDup (add_to plus zero key amount counts).*1.
Proof.
  intros Hnd. rewrite add_to_keys. case_decide; [done|].
  apply NoDup_app. split; [done|]. split; [|apply NoDup_singleton].
  intros x Hx Hx'. apply list_elem_of_singleton in Hx'. by subst.
Qed.

Lemma add_to_elem key amount (counts : list (str * V)) (x : str) :
  x ∈ (add_to plus zero key amount counts).*1 <-> x ∈ counts.*1 \/ x = key.
Proof.
  rewrite add_to_keys. case_decide.
  - split; [by left|]. by intros [?| ->].
  - rewrite elem_of_app, list_elem_of_singleton. done.
Qed.

Lemma entry_add_to key amount (counts : list (str * V)) (key' : str) :
  entry zero key' (add_to plus zero key amount counts)
  = if decide (key = key') then plus (entry zero key counts) amount
    else entry zero key' counts.
Proof.
  induction counts as [|[k v] counts IH].
  - cbn. by case_decide.
  - cbn [add_to]. destruct (decide (k = key)) as [->|Hne].
    + cbn [entry]. rewrite (decide_True (P := key = key)) by done.
      by case_decide.
    + cbn [entry]. rewrite IH. rewrite (decide_False (P := k = key)) by done.
      destruct (decide (k = key')) as [->|Hne'].
      * by rewrite decide_False by congruence.
      * done.
Qed.

Lemma entry_elem (counts : list (str * V)) (k : str) (v : V) :
  NoDup counts.*1 -> (k, v) ∈ counts -> entry zero k counts = v.
Proof.
  induction counts as [|[k' v'] counts IH]; intros Hnd Hin.
  - by apply elem_of_nil in Hin.
  - apply NoDup_cons in Hnd as [Hk Hnd]. cbn [entry].
    apply elem_of_cons in Hin as [Heq|Hin].
    + injection Heq as -> ->. by rewrite decide_True.
    + rewrite decide_False; [by apply IH|].
      intros ->. apply Hk. apply list_elem_of_fmap. by exists (k, v).
Qed.

End Counters.

Lemma foldl_bind {A B C} (f : A -> C -> A) (g : B -> list C) (a : A)
    (l : list B) :
  foldl f a (l ≫= g) = foldl (fun a x => foldl f a (g x)) a l.
Proof.
  revert a. induction l as [|x l IH]; intros a; [done|].
  by rewrite bind_cons, foldl_app, IH.
Qed.

(** ** Stable sorting *)

Section Sorting.
Context {A : Type} (precedes : A -> A -> bool).
Let le (a b : A) : Prop := precedes b a = false.
Hypothesis precedes_asym : forall a b, precedes a b = true -> le a b.
Hypothesis le_trans : forall a b c, le a b -> le b c -> le a c.

Lemma insert_stable_perm (x : A) (s : list A) :
  insert_stable precedes x s ≡ₚ x :: s.
Proof.
  induction s as [|y s IH]; [done|]. cbn.
  destruct (precedes y x); [|done]. rewrite IH. apply Permutation_swap.
Qed.

Lemma sorted_stable_perm (l : list A) : sorted_stable precedes l ≡ₚ l.
Proof.
  induction l as [|x l IH]; [done|]. cbn.
  by rewrite insert_stable_perm, IH.
Qed.

Lemma insert_stable_sorted (x : A) (s : list A) :
  StronglySorted le s -> StronglySorted le (insert_stable precedes x s).
Proof.
  induction 1 as [|y s Hs IH Hy]; [repeat constructor|]. cbn.
  destruct (precedes y x) eqn:E.
  - constructor; [done|]. rewrite insert_stable_perm.
    constructor; [by apply precedes_asym|done].
  - constructor; [by constructor|].
    constructor; [done|].
    eapply Forall_impl; [exact Hy|]. intros z Hz. by eapply le_trans.
Qed.

Lemma sorted_stable_sorted (l : list A) :
  StronglySorted le (sorted_stable precedes l).
Proof.
  induction l as [|x l IH]; [constructor|]. by apply insert_stable_sorted.
Qed.

End Sorting.

Lemma StronglySorted_mono {A} (R S : A -> A -> Prop) (l : list A) :
  (forall a b, R a b -> S a b) -> StronglySorted R l -> StronglySorted S l.
Proof.
  intros HRS. induction 1 as [|x l _ IH Hx]; constructor; [done|].
  eapply Forall_impl; [exact Hx|]. intros y. apply HRS.
Qed.

Lemma sorted_by_count (counts : list (str * nat)) :
  sorted_stable higher_count counts ≡ₚ counts
  /\ StronglySorted (fun a b => b.2 <= a.2) (sorted_stable higher_count counts).
Proof.
  split; [apply sorted_stable_perm|].
  eapply StronglySorted_mono;
    [|apply (sorted_stable_sorted higher_count)].
  - intros a b Hab. unfold higher_count in Hab. cbn in Hab.
    by apply Nat.ltb_ge in Hab.
  - intros a b Hab. unfold higher_count in *. apply Nat.ltb_lt in Hab.
    apply Nat.ltb_ge. lia.
  - intros a b c Hab Hbc. unfold higher_count in *.
    apply Nat.ltb_ge in Hab, Hbc. apply Nat.ltb_ge. lia.
Qed.

Lemma sorted_by_score (scores : list (str * Q)) :
  sorted_stable higher_score scores ≡ₚ scores
  /\ StronglySorted (fun a b => b.2 <= a.2)%Q (sorted_stable higher_score scores).
Proof.
  assert (forall x y : Q, Qlt_bool x y = false <-> (y <= x)%Q) as Hge.
  { intros x y. rewrite <- not_true_iff_false, Qlt_bool_spec. split; lra. }
  split; [apply sorted_stable_perm|].
  eapply StronglySorted_mono;
    [|apply (sorted_stable_sorted higher_score)].
  - intros a b Hab. unfold higher_score in Hab. by apply Hge in Hab.
  - intros a b Hab. unfold higher_score in *. apply Qlt_bool_spec in Hab.
    apply Hge. lra.
  - intros a b c Hab Hbc. unfold higher_score in *.
    apply Hge in Hab, Hbc. apply Hge. lra.
Qed.

(** ** Merged entities *)

Lemma count_entities_fold (articles : list Article)
    (counts : list (str * nat)) :
  foldl count_article_entities counts articles
  = foldl (fun c e => add_to Nat.add 0 e 1 c) counts (entity_mentions articles).
Proof.
  unfold entity_mentions. rewrite foldl_bind.
  revert counts. induction articles as [|a articles IH]; intros counts; [done|].
  cbn [foldl]. rewrite <- IH. f_equal.
  unfold count_article_entities. rewrite foldl_bind, foldl_fmap.
  generalize (map_to_list (entities a)). intros l. revert counts.
  induction l as [|[t el] l IHl]; intros counts; [done|]. cbn [foldl].
  by rewrite IHl.
Qed.

Lemma counted (l : list str) (counts : list (str * nat)) :
  NoDup counts.*1 ->
  NoDup (foldl (fun c e => add_to Nat.add 0 e 1 c) counts l).*1
  /\ (forall x, x ∈ (foldl (fun c e => add_to Nat.add 0 e 1 c) counts l).*1
        <-> x ∈ counts.*1 \/ x ∈ l)
  /\ (forall x, entry 0 x (foldl (fun c e => add_to Nat.add 0 e 1 c) counts l)
        = entry 0 x counts + length (filter (fun e => e = x) l)).
Proof.
  revert counts. induction l as [|e l IH]; intros counts Hnd.
  - cbn. split; [done|]. split; [|intros x; lia].
    intros x. split; [by left|]. intros [?|Hx]; [done|].
    by apply elem_of_nil in Hx.
  - cbn [foldl].
    destruct (IH (add_to Nat.add 0 e 1 counts)) as (Hnd' & Hkeys & Hentry);
      [by apply add_to_NoDup|].
    split; [done|]. split.
    + intros x. rewrite Hkeys, add_to_elem, elem_of_cons. naive_solver.
    + intros x. rewrite Hentry, entry_add_to, filter_cons.
      repeat case_decide; subst; cbn; try done; lia.
Qed.

Lemma entity_counts_spec (articles : list Article) :
  let counts := foldl count_article_entities [] articles in
  NoDup counts.*1
  /\ (forall x, x ∈ counts.*1 <-> x ∈ entity_mentions articles)
  /\ (forall x v, (x, v) ∈ counts -> v = mentions articles x).
Proof.
  intros counts. unfold counts. rewrite count_entities_fold.
  destruct (counted (entity_mentions articles) []) as (Hnd & Hkeys & Hentry);
    [constructor|].
  split; [done|]. split.
  - intros x. rewrite Hkeys. split; [|by right].
    intros [Hx|Hx]; [by apply elem_of_nil in Hx|done].
  - intros x v Hin. rewrite <- (entry_elem 0 _ x v Hnd Hin).
    by rewrite Hentry.
Qed.

Lemma elem_of_take_full {A} (n : nat) (l : list A) (x : A) :
  x ∈ take n l -> x ∈ l.
Proof. intros Hx. rewrite <- (take_drop n l). apply elem_of_app. by left. Qed.

Lemma elem_of_drop_full {A} (n : nat) (l : list A) (x : A) :
  x ∈ drop n l -> x ∈ l.
Proof. intros Hx. rewrite <- (take_drop n l). apply elem_of_app. by right. Qed.

Lemma StronglySorted_mono_elem {A} (R S : A -> A -> Prop) (l : list A) :
  (forall a b, a ∈ l -> b ∈ l -> R a b -> S a b) ->
  StronglySorted R l -> StronglySorted S l.
Proof.
  intros HRS Hs. induction Hs as [|x l _ IH Hx]; constructor.
  - apply IH. intros a b Ha Hb. apply HRS; by right.
  - apply Forall_forall. intros y Hy. rewrite Forall_forall in Hx.
    apply HRS; [left|by right|by apply Hx].
Qed.

Section Ranking.
Context {V : Type} (precedes : str * V -> str * V -> bool)
  (weight : str -> V) (ge eqv : V -> V -> Prop).
Hypothesis ge_proper :
  forall a a' b b', eqv a a' -> eqv b b' -> ge a b -> ge a' b'.

Lemma ranking_spec (counts : list (str * V)) (n : nat) :
  NoDup counts.*1 ->
  (forall x v, (x, v) ∈ counts -> eqv v (weight x)) ->
  sorted_stable precedes counts ≡ₚ counts ->
  StronglySorted (fun a b => ge a.2 b.2) (sorted_stable precedes counts) ->
  let ranked := (take n (sorted_stable precedes counts)).*1 in
  NoDup ranked
  /\ length ranked <= n
  /\ (forall x, x ∈ ranked -> x ∈ counts.*1)
  /\ StronglySorted (fun x y => ge (weight x) (weight y)) ranked
  /\ (forall x z, x ∈ ranked -> z ∈ counts.*1 -> z ∉ ranked ->
        ge (weight x) (weight z))
  /\ (length counts <= n -> forall x, x ∈ counts.*1 -> x ∈ ranked).
Proof.
  intros Hnd Hweight Hperm Hsorted ranked.
  set (s := sorted_stable precedes counts) in *.
  assert (forall p, p ∈ s -> eqv p.2 (weight p.1)) as Hw.
  { intros [x v] Hin. apply Hweight. by rewrite <- Hperm. }
  assert (NoDup s.*1) as Hnds by (by rewrite Hperm).
  rewrite <- (take_drop n s) in Hsorted.
  apply StronglySorted_app in Hsorted as (Hcross & Hhead & _).
  split.
  { unfold ranked. rewrite fmap_take.
    eapply sublist_NoDup; [exact Hnds|apply sublist_take]. }
  split.
  { unfold ranked. rewrite length_fmap, length_take. lia. }
  split.
  { intros x Hx. unfold ranked in Hx.
    apply list_elem_of_fmap in Hx as (p & -> & Hin).
    rewrite <- Hperm. apply list_elem_of_fmap. exists p.
    split; [done|]. by eapply elem_of_take_full. }
  split.
  { unfold ranked.
    eapply (StronglySorted_fmap fst (fun a b => ge (weight a.1) (weight b.1)));
      [done|].
    eapply StronglySorted_mono_elem; [|exact Hhead].
    intros a b Ha Hb Hab. cbn beta in Hab.
    eapply ge_proper; [| |exact Hab]; apply Hw; by eapply elem_of_take_full. }
  split.
  { intros x z Hx Hz Hout. unfold ranked in Hx, Hout.
    apply list_elem_of_fmap in Hx as (px & -> & Hpx).
    rewrite <- Hperm in Hz. apply list_elem_of_fmap in Hz as (pz & -> & Hpz).
    rewrite <- (take_drop n s) in Hpz. apply elem_of_app in Hpz as [Hpz|Hpz].
    { exfalso. apply Hout. apply list_elem_of_fmap. by exists pz. }
    specialize (Hcross px pz Hpx Hpz). cbn beta in Hcross.
    eapply ge_proper; [| |exact Hcross]; apply Hw;
      [by eapply elem_of_take_full|by eapply elem_of_drop_full]. }
  intros Hlen x Hx. unfold ranked. rewrite take_ge.
  - by rewrite Hperm.
  - by rewrite Hperm.
Qed.

End Ranking.

(** The entities that [_merge_entities] returns for a list of articles: at
    most 15 of the entities the articles list, none twice, in the order of
    how often they are listed, the most frequent first; an entity that is
    left out is listed no more often than any that is returned, and none
    is left out when the articles list at most 15 different ones. *)
Theorem merge_entities_ranking (articles : list Article) :
  let merged := _merge_entities articles in
  NoDup merged
  /\ length merged <= 15
  /\ (forall x, x ∈ merged -> x ∈ entity_mentions articles)
  /\ StronglySorted
       (fun x y => mentions articles y <= mentions articles x) merged
  /\ (forall x z, x ∈ merged -> z ∈ entity_mentions articles -> z ∉ merged ->
        mentions articles z <= mentions articles x)
  /\ (size (list_to_set (entity_mentions articles) : gset str) <= 15 ->
      forall x, x ∈ entity_mentions articles -> x ∈ merged).
Proof.
  intros merged. unfold merged, _merge_entities.
  destruct (entity_counts_spec articles) as (Hnd & Hkeys & Hentry).
  destruct (sorted_by_count (foldl count_article_entities [] articles))
    as [Hperm Hsorted].
  destruct (ranking_spec higher_count (mentions articles) ge eq
              ltac:(by intros a a' b b' -> ->) _ 15
              Hnd Hentry Hperm Hsorted)
    as (H1 & H2 & H3 & H4 & H5 & H6).
  split; [done|]. split; [done|].
  split; [intros x Hx; by apply Hkeys, H3|].
  split; [done|].
  split; [intros x z Hx Hz; apply H5; [done|by apply Hkeys]|].
  intros Hsize x Hx. apply H6; [|by apply Hkeys].
  rewrite <- (length_fmap fst), <- (size_list_to_set (C := gset str))
    by done.
  assert (list_to_set (foldl count_article_entities [] articles).*1
          = (list_to_set (entity_mentions articles) : gset str)) as ->;
    [|done].
  apply set_eq. intros y. rewrite !elem_of_list_to_set. apply Hkeys.
Qed.

(** ** Merged keywords *)

Lemma score_keywords_fold (articles : list Article)
    (scores : list (str * Q)) :
  foldl score_article_keywords scores articles
  = foldl (fun s p => add_to Qplus 0.0%Q p.1 p.2 s) scores
      (keyword_mentions articles).
Proof.
  unfold keyword_mentions. rewrite foldl_bind.
  revert scores. induction articles as [|a articles IH]; intros scores; [done|].
  cbn [foldl]. rewrite <- IH. f_equal.
  unfold score_article_keywords. rewrite foldl_fmap.
  generalize (keywords a). intros l. revert scores.
  induction l as [|kd l IHl]; intros scores; [done|]. cbn [foldl].
  rewrite IHl. by destruct (keyword_and_score kd).
Qed.

Lemma scored (l : list (str * Q)) (scores : list (str * Q)) :
  NoDup scores.*1 ->
  NoDup (foldl (fun s p => add_to Qplus 0.0%Q p.1 p.2 s) scores l).*1
  /\ (forall x,
        x ∈ (foldl (fun s p => add_to Qplus 0.0%Q p.1 p.2 s) scores l).*1
        <-> x ∈ scores.*1 \/ x ∈ l.*1)
  /\ (forall x,
        (entry 0.0%Q x (foldl (fun s p => add_to Qplus 0.0%Q p.1 p.2 s) scores l)
         == entry 0.0%Q x scores
            + Qsum (snd <$> filter (fun p => p.1 = x) l))%Q).
Proof.
  revert scores. induction l as [|[k v] l IH]; intros scores Hnd.
  - cbn. split; [done|]. split; [|intros x; ring].
    intros x. split; [by left|]. intros [?|Hx]; [done|].
    by apply elem_of_nil in Hx.
  - cbn [foldl fst snd].
    destruct (IH (add_to Qplus 0.0%Q k v scores)) as (Hnd' & Hkeys & Hentry);
      [by apply add_to_NoDup|].
    split; [done|]. split.
    + intros x. rewrite Hkeys, add_to_elem, fmap_cons, elem_of_cons. cbn.
      naive_solver.
    + intros x. rewrite Hentry, entry_add_to, filter_cons. cbn [fst].
      repeat case_decide; subst; try done.
      rewrite fmap_cons. cbn [snd].
      match goal with
      | |- context [Qsum (v :: ?l)] =>
          change (Qsum (v :: l)) with (v + Qsum l)%Q
      end.
      ring.
Qed.

Lemma keyword_scores_spec (articles : list Article) :
  let scores := foldl score_article_keywords [] articles in
  NoDup scores.*1
  /\ (forall x, x ∈ scores.*1 <-> x ∈ (keyword_mentions articles).*1)
  /\ (forall x v, (x, v) ∈ scores -> (v == total_score articles x)%Q).
Proof.
  intros scores. unfold scores. rewrite score_keywords_fold.
  destruct (scored (keyword_mentions articles) []) as (Hnd & Hkeys & Hentry);
    [constructor|].
  split; [done|]. split.
  - intros x. rewrite Hkeys. split; [|by right].
    intros [Hx|Hx]; [by apply elem_of_nil in Hx|done].
  - intros x v Hin. rewrite <- (entry_elem 0.0%Q _ x v Hnd Hin).
    rewrite Hentry. unfold total_score. cbn [entry]. ring.
Qed.

(** The keywords that [_merge_keywords] returns for a list of articles:
    every keyword string of the articles once, white space and empty
    strings included, with the sum of the scores it has in the articles (1
    each time it is given as a bare string), in the order of these sums,
    the greatest first. *)
Theorem merge_keywords_scores (articles : list Article) :
  let merged := _merge_keywords articles in
  NoDup (keyword_string <$> merged)
  /\ (forall k, k ∈ keyword_string <$> merged
        <-> k ∈ (keyword_mentions articles).*1)
  /\ Forall (fun kw => exists k s,
               kw = KwDict k s /\ (s == total_score articles k)%Q) merged
  /\ StronglySorted
       (fun a b => ((keyword_and_score b).2 <= (keyword_and_score a).2)%Q)
       merged.
Proof.
  intros merged. unfold merged, _merge_keywords.
  destruct (keyword_scores_spec articles) as (Hnd & Hkeys & Hentry).
  destruct (sorted_by_score (foldl score_article_keywords [] articles))
    as [Hperm Hsorted].
  set (s := sorted_stable higher_score _) in *.
  assert (keyword_string <$> ((fun '(keyword, score) => KwDict keyword score) <$> s)
          = s.*1) as Hstrings.
  { rewrite <- list_fmap_compose. apply list_fmap_ext. by intros i [k v] _. }
  rewrite Hstrings.
  split; [by rewrite Hperm|].
  split; [intros k; by rewrite Hperm|].
  split.
  - apply Forall_fmap, Forall_forall. intros [k v] Hin. cbn.
    exists k, v. split; [done|]. apply Hentry. by rewrite <- Hperm.
  - eapply StronglySorted_fmap; [|exact Hsorted]. by intros [k v] [k' v'].
Qed.

(** ** The order of the date strings *)

Lemma str_lt_irrefl (a : str) : str_lt a a = false.
Proof.
  induction a as [|x a IH]; [done|]. cbn.
  by rewrite N.ltb_irrefl, N.eqb_refl, IH.
Qed.

Lemma str_lt_asym (a b : str) : str_lt a b = true -> str_lt b a = false.
Proof.
  revert b. induction a as [|x a IH]; intros [|y b]; cbn; try done.
  intros Hab. apply orb_true_iff in Hab as [Hlt|Heq].
  - apply N.ltb_lt in Hlt.
    rewrite (proj2 (N.ltb_ge y x)) by lia.
    rewrite (proj2 (N.eqb_neq y x)) by lia. done.
  - apply andb_true_iff in Heq as [Heq Hab]. apply N.eqb_eq in Heq as ->.
    rewrite N.ltb_irrefl, N.eqb_refl. cbn. by apply IH.
Qed.

Lemma str_lt_negtrans (a b c : str) :
  str_lt b a = false -> str_lt c b = false -> str_lt c a = false.
Proof.
  revert b c. induction a as [|x a IH]; intros [|y b] [|z c]; cbn; try done.
  intros Hba Hcb.
  apply orb_false_iff in Hba as [Hyx Hba], Hcb as [Hzy Hcb].
  apply N.ltb_ge in Hyx, Hzy.
  destruct (N.ltb_spec z x) as [Hlt|Hge]; [lia|]. cbn.
  destruct (N.eqb_spec z x) as [->|Hne]; [|done]. cbn.
  assert (y = x) as -> by lia.
  rewrite N.eqb_refl in Hba, Hcb. cbn in Hba, Hcb. by eapply IH.
Qed.

Lemma str_lt_app (p a b : str) : str_lt (p ++ a) (p ++ b) = str_lt a b.
Proof.
  induction p as [|x p IH]; [done|]. cbn.
  by rewrite N.ltb_irrefl, N.eqb_refl, IH.
Qed.

Lemma decimal_four (y : Z) :
  (1000 <= y <= 9999)%Z ->
  decimal y = two_digits (y / 100) ++ two_digits (y mod 100).
Proof.
  intros Hy. unfold decimal.
  assert (9 <= Z.log2 y)%Z as Hlog by (apply Z.log2_le_pow2; lia).
  pose proof (Z.div_mod y 10 ltac:(lia)) as E0.
  pose proof (Z.mod_pos_bound y 10 ltac:(lia)) as B0.
  pose proof (Z.div_mod (y / 10) 10 ltac:(lia)) as E1.
  pose proof (Z.mod_pos_bound (y / 10) 10 ltac:(lia)) as B1.
  pose proof (Z.div_mod (y / 10 / 10) 10 ltac:(lia)) as E2.
  pose proof (Z.mod_pos_bound (y / 10 / 10) 10 ltac:(lia)) as B2.
  set (q1 := (y / 10)%Z) in *. set (r0 := (y mod 10)%Z) in *.
  set (q2 := (q1 / 10)%Z) in *. set (r1 := (q1 mod 10)%Z) in *.
  set (q3 := (q2 / 10)%Z) in *. set (r2 := (q2 mod 10)%Z) in *.
  assert (y / 100 = q2)%Z as ->.
  { symmetry. apply (Z.div_unique_pos y 100 q2 (10 * r1 + r0)); lia. }
  assert (y mod 100 = 10 * r1 + r0)%Z as ->.
  { symmetry. apply (Z.mod_unique_pos y 100 q2 (10 * r1 + r0)); lia. }
  assert ((10 * r1 + r0) / 10 = r1)%Z as Hd.
  { symmetry. apply (Z.div_unique_pos _ 10 r1 r0); lia. }
  assert ((10 * r1 + r0) mod 10 = r0)%Z as Hm.
  { symmetry. apply (Z.mod_unique_pos _ 10 r1 r0); lia. }
  unfold two_digits. rewrite Hd, Hm. fold q3 r2.
  destruct (Z.to_nat (Z.log2 y)) as [|[|[|f]]] eqn:E; try lia.
  cbn [decimal_digits app]. fold q1 r0. fold q2 r1. fold q3 r2.
  rewrite (proj2 (Z.eqb_neq q1 0)) by lia.
  rewrite (proj2 (Z.eqb_neq q2 0)) by lia.
  rewrite (proj2 (Z.eqb_neq q3 0)) by lia.
  rewrite (Z.div_small q3 10) by lia. cbn.
  by rewrite (Z.mod_small q3 10) by lia.
Qed.

Lemma two_digits_order (a b : Z) (ra rb : str) :
  (0 <= a <= 99)%Z -> (0 <= b <= 99)%Z ->
  str_lt (two_digits a ++ ra) (two_digits b ++ rb)
  = ((a <? b)%Z || ((a =? b)%Z && str_lt ra rb)).
Proof.
  intros Ha Hb.
  pose proof (Z.div_mod a 10 ltac:(lia)).
  pose proof (Z.div_mod b 10 ltac:(lia)).
  pose proof (Z.mod_pos_bound a 10 ltac:(lia)).
  pose proof (Z.mod_pos_bound b 10 ltac:(lia)).
  assert (0 <= a / 10)%Z by (apply Z.div_pos; lia).
  assert (0 <= b / 10)%Z by (apply Z.div_pos; lia).
  cbn [two_digits app str_lt]. unfold digit.
  destruct (N.ltb_spec (48 + Z.to_N (a / 10)) (48 + Z.to_N (b / 10))),
    (N.eqb_spec (48 + Z.to_N (a / 10)) (48 + Z.to_N (b / 10))),
    (N.ltb_spec (48 + Z.to_N (a mod 10)) (48 + Z.to_N (b mod 10))),
    (N.eqb_spec (48 + Z.to_N (a mod 10)) (48 + Z.to_N (b mod 10))),
    (Z.ltb_spec a b), (Z.eqb_spec a b); cbn; try done; lia.
Qed.

Lemma date_string_four (key : Z * Z * Z) :
  four_digit_day key ->
  date_string key
  = two_digits (key.1.1 / 100)
    ++ (two_digits (key.1.1 mod 100)
        ++ ([45%N] ++ (two_digits key.1.2 ++ ([45%N] ++ two_digits key.2 ++ [])))).
Proof.
  destruct key as [[y m] d]. intros (Hy & _). cbn in Hy.
  unfold date_string. rewrite decimal_four by done.
  by rewrite <- !app_assoc, app_nil_r.
Qed.

Lemma date_string_order (k1 k2 : Z * Z * Z) :
  four_digit_day k1 -> four_digit_day k2 ->
  str_lt (date_string k1) (date_string k2) = true <-> date_before k1 k2.
Proof.
  intros H1 H2. rewrite !date_string_four by done.
  destruct k1 as [[y1 m1] d1], k2 as [[y2 m2] d2].
  destruct H1 as (Hy1 & Hm1 & Hd1), H2 as (Hy2 & Hm2 & Hd2).
  cbn [fst snd] in *. unfold date_before. cbn [fst snd].
  pose proof (Z.div_mod y1 100 ltac:(lia)).
  pose proof (Z.div_mod y2 100 ltac:(lia)).
  pose proof (Z.mod_pos_bound y1 100 ltac:(lia)).
  pose proof (Z.mod_pos_bound y2 100 ltac:(lia)).
  assert (0 <= y1 / 100 < 100)%Z
    by (split; [apply Z.div_pos|apply Z.div_lt_upper_bound]; lia).
  assert (0 <= y2 / 100 < 100)%Z
    by (split; [apply Z.div_pos|apply Z.div_lt_upper_bound]; lia).
  rewrite two_digits_order by lia.
  rewrite two_digits_order by lia.
  rewrite (str_lt_app [45%N]).
  rewrite two_digits_order by lia.
  rewrite (str_lt_app [45%N]).
  rewrite two_digits_order by lia.
  cbn [str_lt]. rewrite andb_false_r, orb_false_r.
  rewrite !orb_true_iff, !andb_true_iff, !Z.ltb_lt, !Z.eqb_eq.
  split; intros; lia.
Qed.

(** ** The chart *)

Lemma generate_timeline_report_inv (l : list Article) (report : TimelineReport) :
  (generate_timeline_report l).2 = Some report ->
  exists dated,
    sorted_by_timeline_date (date_articles l).2 = Some dated
    /\ (generate_timeline l).2 = Some (report_timeline report)
    /\ chart_data report = _generate_chart_data (events (report_timeline report))
    /\ statistics report
       = _generate_statistics (generate_timeline l).1
           (events (report_timeline report))
    /\ _get_date_range dated = Some (date_range report).
Proof.
  unfold generate_timeline_report, generate_timeline,
    _filter_and_sort_articles.
  destruct (date_articles l) as [l' dated]. cbn [fst snd].
  destruct (sorted_by_timeline_date dated) as [s|]; [|done].
  cbn [mbind option_bind].
  destruct (_group_articles_by_date s) as [groups|]; [|done].
  cbn [mbind option_bind].
  destruct (_get_date_range s) as [range|] eqn:Hrange; [|done].
  cbn [mbind option_bind]. intros [= <-]. exists s. by repeat split.
Qed.

Lemma earlier_date_sorted (timeline_events : list TimelineEvent) :
  sorted_stable earlier_date timeline_events ≡ₚ timeline_events
  /\ StronglySorted (fun a b => earlier_date b a = false)
       (sorted_stable earlier_date timeline_events).
Proof.
  split; [apply sorted_stable_perm|].
  apply (sorted_stable_sorted earlier_date).
  - intros a b. apply str_lt_asym.
  - intros a b c. unfold earlier_date. apply str_lt_negtrans.
Qed.

Lemma date_before_total (k1 k2 : Z * Z * Z) :
  ~ date_before k2 k1 -> k1 <> k2 -> date_before k1 k2.
Proof.
  destruct k1 as [[y1 m1] d1], k2 as [[y2 m2] d2]. unfold date_before.
  cbn [fst snd]. intros Hnot Hne.
  assert (y1 <> y2 \/ m1 <> m2 \/ d1 <> d2)%Z as Hdiff.
  { destruct (decide (y1 = y2)) as [->|]; [|by left].
    destruct (decide (m1 = m2)) as [->|]; [|by right; left].
    destruct (decide (d1 = d2)) as [->|]; [done|by right; right]. }
  lia.
Qed.

Lemma sorted_dates (l : list TimelineEvent) :
  Forall four_digit_day (date <$> l) ->
  NoDup (date <$> l) ->
  StronglySorted (fun a b => earlier_date b a = false) l ->
  StronglySorted date_before (date <$> l).
Proof.
  intros Hvalid Hnd Hsorted.
  induction Hsorted as [|e l _ IH He]; [constructor|].
  rewrite fmap_cons in Hvalid, Hnd.
  apply Forall_cons in Hvalid as [Hve Hvalid].
  apply NoDup_cons in Hnd as [Hfresh Hnd].
  rewrite fmap_cons. constructor; [by apply IH|].
  apply Forall_fmap, Forall_forall. intros e' He'. cbn.
  rewrite Forall_forall in He. specialize (He e' He').
  rewrite Forall_forall in Hvalid.
  assert (date e' ∈ date <$> l) as Hin by (by apply list_elem_of_fmap_2).
  apply date_before_total.
  - intros Hbefore. apply date_string_order in Hbefore; [|by apply Hvalid|done].
    unfold earlier_date in He. congruence.
  - intros Heq. apply Hfresh. by rewrite Heq.
Qed.

(** The chart of a timeline whose days are of years written with four
    digits: its labels are the days of the events in ascending order,
    whatever the order of the events, and its two datasets hold the
    intensities and the article counts of the events in the order of the
    labels; the chart of a timeline without events has no label and no
    dataset. *)
Theorem chart_data_sorted (l : list Article) (report : TimelineReport) :
  (generate_timeline_report l).2 = Some report ->
  Forall four_digit_day (date <$> events (report_timeline report)) ->
  exists sorted_events,
    sorted_events ≡ₚ events (report_timeline report)
    /\ StronglySorted date_before (date <$> sorted_events)
    /\ labels (chart_data report) = date <$> sorted_events
    /\ ds_data <$> datasets (chart_data report)
       = match sorted_events with
         | [] => []
         | _ => [Intensities (intensity <$> sorted_events);
                 ArticleCounts (article_count <$> sorted_events)]
         end.
Proof.
  intros Hrun Hvalid.
  apply generate_timeline_report_inv in Hrun
    as (dated & _ & Htimeline & Hchart & _).
  apply generate_timeline_inv in Htimeline
    as (s & groups & _ & _ & _ & Hnd & _ & Ht).
  rewrite Hchart. rewrite Ht in Hvalid |- *. cbn [events] in *.
  set (evs := _extract_timeline_events groups) in *.
  destruct (earlier_date_sorted evs) as [Hperm Hsorted].
  exists (sorted_stable earlier_date evs).
  split; [done|]. split.
  - apply sorted_dates; [by rewrite Hperm| |done].
    rewrite Hperm. unfold evs. by rewrite events_dates.
  - destruct evs as [|e evs'] eqn:E; [done|].
    cbn [_generate_chart_data labels datasets]. split; [done|].
    assert (sorted_stable earlier_date (e :: evs') <> []) as Hne.
    { intros Hnil. rewrite Hnil in Hperm.
      by apply Permutation_nil_cons in Hperm. }
    by destruct (sorted_stable earlier_date (e :: evs')).
Qed.

(** ** Statistics *)

Lemma statistics_fold (articles : list Article)
    (e : list (str * nat)) (k : list (str * Q)) (s : list (str * nat)) :
  foldl (fun '(all_entities, all_keywords, sources) article =>
           (count_article_entities all_entities article,
            score_article_keywords all_keywords article,
            add_to Nat.add 0 (source article) 1 sources))
    (e, k, s) articles
  = (foldl count_article_entities e articles,
     foldl score_article_keywords k articles,
     foldl (fun c src => add_to Nat.add 0 src 1 c) s (source <$> articles)).
Proof.
  revert e k s. induction articles as [|a articles IH]; intros e k s; [done|].
  cbn [foldl fmap list_fmap]. by rewrite IH.
Qed.

Lemma stamped_reads (a : Article) :
  entities (stamped a) = entities a
  /\ keywords (stamped a) = keywords a
  /\ source (stamped a) = source a.
Proof. unfold stamped. by destruct (resolve_date a). Qed.

Lemma stamped_folds (l : list Article)
    (e : list (str * nat)) (k : list (str * Q)) :
  foldl count_article_entities e (stamped <$> l)
  = foldl count_article_entities e l
  /\ foldl score_article_keywords k (stamped <$> l)
     = foldl score_article_keywords k l
  /\ source <$> (stamped <$> l) = source <$> l.
Proof.
  revert e k. induction l as [|a l IH]; intros e k; [done|].
  destruct (stamped_reads a) as (He & Hk & Hs).
  cbn [foldl fmap list_fmap].
  unfold count_article_entities at 2 4, score_article_keywords at 2 4.
  rewrite He, Hk, Hs.
  fold (count_article_entities e a). fold (score_article_keywords k a).
  destruct (IH (count_article_entities e a) (score_article_keywords k a))
    as (-> & -> & Hsrc).
  split; [done|]. split; [done|]. f_equal. exact Hsrc.
Qed.

Lemma add_to_total key (counts : list (str * nat)) :
  sum_list (add_to Nat.add 0 key 1 counts).*2 = S (sum_list counts.*2).
Proof.
  induction counts as [|[k v] counts IH]; [done|].
  cbn [add_to]. case_decide; cbn; [lia|]. cbn in IH. rewrite IH. lia.
Qed.

Lemma counted_total (l : list str) (counts : list (str * nat)) :
  sum_list (foldl (fun c e => add_to Nat.add 0 e 1 c) counts l).*2
  = sum_list counts.*2 + length l.
Proof.
  revert counts. induction l as [|e l IH]; intros counts; [cbn; lia|].
  cbn [foldl length]. rewrite IH, add_to_total. lia.
Qed.

Lemma length_filter_fmap {A B} (f : A -> B) `{EqDecision B} (y : B)
    (l : list A) :
  length (filter (fun e => e = y) (f <$> l))
  = length (filter (fun a => f a = y) l).
Proof.
  induction l as [|a l IH]; [done|].
  rewrite fmap_cons, !filter_cons. case_decide; cbn; by rewrite IH.
Qed.

Lemma foldl_Qplus (l : list Q) (acc : Q) :
  (foldl Qplus acc l == acc + Qsum l)%Q.
Proof.
  revert acc. induction l as [|x l IH]; intros acc; cbn; [ring|].
  rewrite IH. change (foldr Qplus 0%Q l) with (Qsum l). ring.
Qed.

Lemma events_intensity_range groups :
  Forall (fun q => 0 <= q <= 10)%Q (intensity <$> _extract_timeline_events groups).
Proof.
  apply Forall_fmap, Forall_forall. intros e He.
  apply events_elem_inv in He as (i & key & group & _ & ->). cbn.
  apply event_intensity_range.
Qed.

Lemma entry_positive_sum (counts : list (str * nat)) :
  Forall (fun p => 0 < p.2) counts -> length counts <= sum_list counts.*2.
Proof.
  induction 1 as [|[k v] counts Hv _ IH]; [done|]. cbn in *. lia.
Qed.

Lemma generate_statistics_unfold (articles : list Article)
    (timeline_events : list TimelineEvent) :
  articles <> [] ->
  _generate_statistics articles timeline_events
  = SomeStatistics
      {| total_events := length timeline_events;
         stat_total_articles := length articles;
         unique_sources :=
           length (foldl (fun c src => add_to Nat.add 0 src 1 c) []
                     (source <$> articles));
         top_entities :=
           take 10 (sorted_stable higher_count
                      (foldl count_article_entities [] articles));
         top_keywords :=
           take 10 (sorted_stable higher_score
                      (foldl score_article_keywords [] articles));
         source_distribution :=
           foldl (fun c src => add_to Nat.add 0 src 1 c) []
             (source <$> articles);
         average_intensity :=
           match timeline_events with
           | [] => 0%Q
           | _ =>
               (foldl Qplus 0%Q (intensity <$> timeline_events)
                / Qnat (length timeline_events))%Q
           end |}.
Proof.
  intros Hne. unfold _generate_statistics.
  destruct articles as [|a articles]; [done|].
  by rewrite statistics_fold.
Qed.

(** The statistics of a timeline. None are given for an empty list of
    articles. Otherwise the source distribution names every source of the
    articles once, with the number of the articles from it, these numbers
    adding up to the number of articles; the top entities are the first ten
    of the entities merged over all the articles, with how often each is
    listed; the top keywords are at most ten, each with the sum of its
    scores; and the average intensity lies between 0 and 10. *)
Theorem statistics_summary (l : list Article) (report : TimelineReport) :
  (generate_timeline_report l).2 = Some report ->
  match statistics report with
  | NoStatistics => l = []
  | SomeStatistics s =>
      l <> []
      /\ total_events s = length (events (report_timeline report))
      /\ stat_total_articles s = length l
      /\ NoDup (source_distribution s).*1
      /\ (forall src n, (src, n) ∈ source_distribution s ->
            n = length (filter (fun a => source a = src) l) /\ 0 < n)
      /\ (forall a, a ∈ l -> source a ∈ (source_distribution s).*1)
      /\ sum_list (source_distribution s).*2 = length l
      /\ unique_sources s = length (source_distribution s)
      /\ 1 <= unique_sources s <= length l
      /\ (top_entities s).*1 = take 10 (_merge_entities l)
      /\ Forall (fun p => p.2 = mentions l p.1) (top_entities s)
      /\ length (top_keywords s) <= 10
      /\ Forall (fun p => p.2 == total_score l p.1)%Q (top_keywords s)
      /\ (0 <= average_intensity s <= 10)%Q
  end.
Proof.
  intros Hrun.
  apply generate_timeline_report_inv in Hrun
    as (dated & _ & Htimeline & _ & Hstats & _).
  rewrite Hstats, generate_timeline_store.
  apply generate_timeline_inv in Htimeline
    as (s0 & groups & _ & _ & _ & _ & _ & ->). cbn [events].
  destruct (decide (l = [])) as [->|Hne]; [done|].
  rewrite generate_statistics_unfold
    by (intros Hnil; by apply fmap_nil_inv in Hnil).
  destruct (stamped_folds l [] []) as (-> & -> & ->).
  cbn [total_events stat_total_articles unique_sources top_entities
         top_keywords source_distribution average_intensity].
  set (sources := foldl _ [] (source <$> l)).
  destruct (counted (source <$> l) []) as (Hnd & Hkeys & Hentry);
    [constructor|]. fold sources in Hnd, Hkeys, Hentry.
  pose proof (counted_total (source <$> l) []) as Htotal.
  fold sources in Htotal. cbn in Htotal. rewrite length_fmap in Htotal.
  assert (forall src n, (src, n) ∈ sources ->
            n = length (filter (fun a => source a = src) l) /\ 0 < n) as Hdist.
  { intros src n Hin.
    rewrite <- (entry_elem 0 _ src n Hnd Hin), Hentry. cbn [entry plus].
    rewrite length_filter_fmap. split; [done|].
    assert (src ∈ sources.*1) as Hkey
      by (apply list_elem_of_fmap; by exists (src, n)).
    apply Hkeys in Hkey as [Hkey|Hkey]; [by apply elem_of_nil in Hkey|].
    apply list_elem_of_fmap in Hkey as (a & -> & Ha).
    assert (a ∈ filter (fun a' => source a' = source a) l) as Hf
      by (by apply list_elem_of_filter).
    destruct (filter _ l); [by apply elem_of_nil in Hf|cbn; lia]. }
  split; [done|]. split; [done|].
  split; [by rewrite length_fmap|]. split; [done|]. split; [done|].
  split.
  { intros a Ha. apply Hkeys. right. by apply list_elem_of_fmap_2. }
  split; [done|]. split; [done|].
  split.
  { split.
    - destruct l as [|a0 l0]; [done|].
      assert (source a0 ∈ sources.*1) as Hin.
      { apply Hkeys. right. apply list_elem_of_fmap_2. left. }
      destruct sources; [by apply elem_of_nil in Hin|cbn; lia].
    - rewrite <- Htotal. apply entry_positive_sum.
      apply Forall_forall. intros [src n] Hin. cbn. by apply (Hdist src n). }
  destruct (entity_counts_spec l) as (Hnde & Hkeyse & Hentrye).
  destruct (keyword_scores_spec l) as (Hndk & Hkeysk & Hentryk).
  split.
  { unfold _merge_entities. rewrite !fmap_take, take_take. done. }
  split.
  { apply Forall_forall. intros [x v] Hin. cbn. apply Hentrye.
    apply elem_of_take_full in Hin.
    by rewrite (proj1 (sorted_by_count _)) in Hin. }
  split; [rewrite length_take; lia|].
  split.
  { apply Forall_forall. intros [x v] Hin. cbn. apply Hentryk.
    apply elem_of_take_full in Hin.
    by rewrite (proj1 (sorted_by_score _)) in Hin. }
  pose proof (events_intensity_range groups) as Hrange.
  destruct (_extract_timeline_events groups) as [|e evs] eqn:E; [lra|].
  rewrite foldl_Qplus, <- (length_fmap intensity (e :: evs)).
  assert (0 + Qsum (intensity <$> e :: evs)
          == Qsum (intensity <$> e :: evs))%Q as -> by ring.
  apply mean_bounds; [done|exact Hrange].
Qed.

(** ** The date range *)

Lemma datetime_cmp_kind (a b : datetime) (c : Datatypes.comparison) :
  datetime_cmp a b = Some c -> aware_date a = aware_date b.
Proof.
  unfold datetime_cmp, aware_date. case_decide as Hoff.
  - by rewrite Hoff.
  - by destruct (utcoffset a), (utcoffset b).
Qed.

Lemma datetime_cmp_defined (a b : datetime) :
  aware_date a = aware_date b -> is_Some (datetime_cmp a b).
Proof.
  unfold datetime_cmp, aware_date. case_decide as Hoff; [by eexists|].
  destruct (utcoffset a), (utcoffset b); done.
Qed.

Lemma sort_same_kind (l s : list Article) :
  sorted_by_timeline_date l = Some s ->
  exists kind,
    Forall (fun a => forall d, timeline_date a = Some d -> aware_date d = kind) l.
Proof.
  revert s. induction l as [|x l IH]; intros s Hs; [by exists true|].
  cbn [sorted_by_timeline_date] in Hs.
  destruct (sorted_by_timeline_date l) as [s0|] eqn:Hs0; [|done].
  cbn [mbind option_bind] in Hs.
  destruct (timeline_date x) as [key_x|] eqn:Hx; [|done].
  cbn [mbind option_bind] in Hs.
  destruct (IH s0 eq_refl) as [kind Hkind].
  apply sorted_by_timeline_date_perm in Hs0.
  destruct s0 as [|y s0].
  - apply Permutation_nil_l in Hs0. subst l. exists (aware_date key_x).
    constructor; [|done]. intros d Hd. congruence.
  - exists kind. constructor; [|done]. intros d Hd.
    assert (d = key_x) as -> by congruence.
    cbn [insert_by_date] in Hs.
    destruct (timeline_date y) as [key_y|] eqn:Hy; [|done].
    cbn [mbind option_bind] in Hs. unfold datetime_lt in Hs.
    destruct (datetime_cmp key_y key_x) as [c|] eqn:Hc; [|done].
    apply datetime_cmp_kind in Hc. rewrite <- Hc.
    rewrite Forall_forall in Hkind. apply (Hkind y); [|done].
    rewrite <- Hs0. left.
Qed.

Lemma min_date_returns (kind : bool) (dates : list datetime) (m : datetime) :
  aware_date m = kind -> Forall (fun d => aware_date d = kind) dates ->
  is_Some (min_date m dates).
Proof.
  intros Hm Hall. revert m Hm.
  induction Hall as [|d dates Hd _ IH]; intros m Hm; [by eexists|].
  cbn [min_date].
  destruct (datetime_cmp_defined d m) as [c ->]; [congruence|].
  cbn [mbind option_bind]. apply IH. by case_bool_decide.
Qed.

Lemma max_date_returns (kind : bool) (dates : list datetime) (m : datetime) :
  aware_date m = kind -> Forall (fun d => aware_date d = kind) dates ->
  is_Some (max_date m dates).
Proof.
  intros Hm Hall. revert m Hm.
  induction Hall as [|d dates Hd _ IH]; intros m Hm; [by eexists|].
  cbn [max_date].
  destruct (datetime_cmp_defined d m) as [c ->]; [congruence|].
  cbn [mbind option_bind]. apply IH. by case_bool_decide.
Qed.

Lemma get_date_range_returns (l s : list Article) :
  sorted_by_timeline_date l = Some s ->
  Forall (fun a => is_Some (timeline_date a)) l ->
  is_Some (_get_date_range s).
Proof.
  intros Hs Hdated.
  pose proof (sorted_by_timeline_date_perm _ _ Hs) as Hperm.
  destruct (sort_same_kind _ _ Hs) as [kind Hkind].
  rewrite <- Hperm in Hdated, Hkind.
  unfold _get_date_range. destruct s as [|a s']; [by eexists|].
  set (s := a :: s') in *.
  destruct (mapM_is_Some_2 timeline_date s) as [dates Hdates].
  { eapply Forall_impl; [exact Hdated|]. done. }
  rewrite Hdates. cbn [mbind option_bind].
  apply mapM_Some_1 in Hdates.
  assert (Forall (fun d => aware_date d = kind) dates) as Hk.
  { apply Forall_forall. intros d Hd.
    apply list_elem_of_lookup_1 in Hd as [i Hi].
    destruct (Forall2_lookup_r _ _ _ _ _ Hdates Hi) as (b & Hb & Hbd).
    rewrite Forall_forall in Hkind. apply (Hkind b); [|done].
    by eapply list_elem_of_lookup_2. }
  destruct dates as [|d dates].
  { apply Forall2_length in Hdates. done. }
  apply Forall_cons in Hk as [Hd Hk].
  destruct (min_date_returns kind dates d Hd Hk) as [lo ->].
  destruct (max_date_returns kind dates d Hd Hk) as [hi ->].
  by eexists.
Qed.

Lemma report_returns (l : list Article) (t : Timeline) :
  (generate_timeline l).2 = Some t ->
  exists report,
    generate_timeline_report l = ((generate_timeline l).1, Some report)
    /\ report_timeline report = t.
Proof.
  intros Hrun. pose proof (dated_articles_have_date l) as Hdated.
  unfold generate_timeline_report, generate_timeline,
    _filter_and_sort_articles in *.
  destruct (date_articles l) as [l' dated]. cbn [fst snd] in *.
  destruct (sorted_by_timeline_date dated) as [s|] eqn:Hs; [|done].
  cbn [mbind option_bind] in *.
  destruct (_group_articles_by_date s) as [groups|]; [|done].
  cbn [mbind option_bind] in *. injection Hrun as <-.
  destruct (get_date_range_returns dated s Hs Hdated) as [range ->].
  cbn [mbind option_bind]. by eexists.
Qed.

Lemma tuple_cmp_eq (a b : list Z) : tuple_cmp a b = Eq -> a = b.
Proof.
  revert b. induction a as [|x a IH]; intros [|y b]; try done.
  cbn [tuple_cmp]. destruct (Z.compare_spec x y); try done.
  intros Hab. subst. f_equal. by apply IH.
Qed.

Lemma strftime_fields (d1 d2 : datetime) :
  fields d1 = fields d2 -> strftime_ymd d1 = strftime_ymd d2.
Proof. unfold fields, strftime_ymd. by intros [= -> -> ->]. Qed.

Lemma datetime_cmp_same_offset (d1 d2 : datetime) :
  utcoffset d1 = utcoffset d2 ->
  datetime_cmp d1 d2 = Some (tuple_cmp (fields d1) (fields d2)).
Proof. intros Hoff. unfold datetime_cmp. by rewrite decide_True. Qed.

Lemma min_date_sorted (dates : list datetime) (m : datetime) :
  Forall (fun d => utcoffset d = utcoffset m
                   /\ tuple_le (fields m) (fields d)) dates ->
  min_date m dates = Some m.
Proof.
  induction 1 as [|d dates [Hoff Hle] _ IH]; [done|].
  cbn [min_date]. rewrite datetime_cmp_same_offset by done.
  cbn [mbind option_bind]. rewrite bool_decide_eq_false_2; [done|].
  intros Hlt. apply Hle. rewrite (tuple_cmp_antisym (fields d) (fields m)).
  by rewrite Hlt.
Qed.

Lemma max_date_sorted (dates : list datetime) (g : datetime) :
  Forall (fun d => utcoffset d = utcoffset g) dates ->
  StronglySorted tuple_le (fields g :: (fields <$> dates)) ->
  exists r,
    max_date g dates = Some r
    /\ Some (fields r) = last (fields g :: (fields <$> dates)).
Proof.
  revert g. induction dates as [|d dates IH]; intros g Hoff Hsorted.
  - by exists g.
  - apply Forall_cons in Hoff as [Hd Hoff].
    rewrite fmap_cons in Hsorted.
    apply StronglySorted_cons in Hsorted as [Hhead Hsorted].
    apply Forall_cons in Hhead as [Hgd Hhead].
    cbn [max_date]. rewrite datetime_cmp_same_offset by done.
    cbn [mbind option_bind]. rewrite fmap_cons.
    case_bool_decide as Hgt.
    + destruct (IH d) as (r & Hr & Hlast); [|done|].
      { eapply Forall_impl; [exact Hoff|]. intros d'. congruence. }
      exists r. by split.
    + assert (fields g = fields d) as Heq.
      { apply tuple_cmp_eq. unfold tuple_le in Hgd.
        rewrite (tuple_cmp_antisym (fields g) (fields d)) in Hgt.
        by destruct (tuple_cmp (fields g) (fields d)). }
      destruct (IH g) as (r & Hr & Hlast); [done|by rewrite Heq|].
      exists r. split; [done|]. rewrite Hlast.
      change (last (fields g :: fields d :: (fields <$> dates)))
        with (last (fields d :: (fields <$> dates))).
      by rewrite Heq.
Qed.

Lemma sorted_dates_of (offset : option Z) (s : list Article)
    (dates : list datetime) :
  Forall2 (fun a d => timeline_date a = Some d) s dates ->
  Forall (dated_with offset) s ->
  StronglySorted article_le s ->
  Forall (fun d => utcoffset d = offset) dates
  /\ StronglySorted tuple_le (fields <$> dates).
Proof.
  induction 1 as [|a d s dates Ha Hrest IH]; intros Hdated Hsorted.
  - split; constructor.
  - apply Forall_cons in Hdated as [(d' & Hd' & Hoff) Hdated].
    apply StronglySorted_cons in Hsorted as [Hhead Hsorted].
    destruct (IH Hdated Hsorted) as [Hoffs Hs].
    assert (d' = d) as -> by congruence.
    split; [by constructor|]. rewrite fmap_cons. constructor; [done|].
    apply Forall_fmap, Forall_forall. intros d2 Hd2. cbn.
    apply list_elem_of_lookup_1 in Hd2 as [i Hi].
    destruct (Forall2_lookup_r _ _ _ _ _ Hrest Hi) as (b & Hb & Hbd).
    rewrite Forall_forall in Hhead.
    destruct (Hhead b) as (da & db & Hda & Hdb & Hle);
      [by eapply list_elem_of_lookup_2|].
    by simplify_eq.
Qed.

Lemma group_loop_head (s : list Article)
    (groups groups' : list ((Z * Z * Z) * list Article)) :
  group_loop s groups = Some groups' ->
  head groups'.*1
  = match head groups.*1 with
    | Some key => Some key
    | None => head s ≫= article_day
    end.
Proof.
  revert groups. induction s as [|a s IH]; intros groups Hrun.
  - cbn in Hrun. injection Hrun as <-. by destruct (head groups.*1).
  - cbn [group_loop] in Hrun.
    destruct (timeline_date a) as [d|] eqn:Hd; [|done].
    cbn [mbind option_bind] in Hrun. apply IH in Hrun. rewrite Hrun.
    rewrite group_append_keys. cbn [head mbind option_bind].
    unfold article_day. rewrite Hd. cbn.
    destruct groups.*1 as [|k keys] eqn:E.
    + by rewrite decide_False by apply not_elem_of_nil.
    + by case_decide.
Qed.

Lemma date_before_not_le (k1 k2 : Z * Z * Z) :
  date_before k1 k2 -> day_le k2 k1 -> False.
Proof.
  destruct k1 as [[y1 m1] d1], k2 as [[y2 m2] d2].
  unfold day_le, date_before. cbn [fst snd].
  intros H1 [[= -> -> ->]|H2]; lia.
Qed.

Lemma last_key_greatest (keys : list (Z * Z * Z)) (top : Z * Z * Z) :
  StronglySorted date_before keys ->
  top ∈ keys ->
  (forall k, k ∈ keys -> day_le k top) ->
  last keys = Some top.
Proof.
  intros Hsorted Hin Hle.
  destruct keys as [|k0 keys0] using rev_ind; [by apply elem_of_nil in Hin|].
  clear IHkeys0. rewrite last_snoc. f_equal.
  apply elem_of_app in Hin as [Hin|Hin].
  - exfalso.
    pose proof (StronglySorted_app_1_elem_of _ _ _ top k0 Hsorted Hin
                  ltac:(left)) as Hbefore.
    apply (date_before_not_le top k0 Hbefore). apply Hle.
    apply elem_of_app. right. left.
  - by apply list_elem_of_singleton in Hin.
Qed.

(** Whenever the events of a timeline can be built, so can the rest of the
    result, which has no date range for a timeline without events; and when
    the dates the articles resolve to are all naive, or all carry one UTC
    offset, the date range starts on the day of the first event and ends
    on the day of the last. *)
Theorem date_range_bounds (l : list Article) (t : Timeline) :
  (generate_timeline l).2 = Some t ->
  exists report,
    generate_timeline_report l = ((generate_timeline l).1, Some report)
    /\ report_timeline report = t
    /\ (events t = [] ->
        date_range report = {| range_start := None; range_end := None |})
    /\ (forall offset, same_offset offset l ->
          range_start (date_range report) = head (date <$> events t)
          /\ range_end (date_range report) = last (date <$> events t)).
Proof.
  intros Hrun.
  destruct (report_returns l t Hrun) as (report & Hreport & Ht).
  exists report. split; [done|]. split; [done|].
  assert ((generate_timeline_report l).2 = Some report) as Hsnd
    by (by rewrite Hreport).
  apply generate_timeline_report_inv in Hsnd
    as (dated & Hsorted & _ & _ & _ & Hrange).
  apply generate_timeline_inv in Hrun
    as (s & groups & Hs & Hperm & Hloop & Hnd & Hgroups & Hevents).
  assert (dated = s) as -> by congruence.
  rewrite Hevents. cbn [events]. rewrite events_dates.
  split.
  - intros Hnil.
    assert (groups = []) as ->.
    { unfold _extract_timeline_events in Hnil.
      apply (f_equal length) in Hnil. rewrite length_imap in Hnil.
      by destruct groups. }
    pose proof (group_loop_total _ _ _ Hloop) as Htotal. cbn in Htotal.
    assert (s = []) as -> by (destruct s; [done|cbn in Htotal; lia]).
    cbn in Hrange. by injection Hrange as <-.
  - intros offset Hsame.
    destruct (sorted_by_timeline_date_sorted offset (date_articles l).2)
      as (s' & Hs' & _ & Hss); [by apply dated_articles_dated|].
    assert (s' = s) as -> by congruence.
    assert (Forall (dated_with offset) s) as Hdated.
    { rewrite Hperm. by apply dated_articles_dated. }
    assert (Forall (fun a => is_Some (timeline_date a)) s) as Hhas.
    { eapply Forall_impl; [exact Hdated|]. intros a (d & -> & _). by eexists. }
    destruct (group_loop_spec s [] Hhas) as (groups' & Hg & _ & Hkeys & _);
      [apply NoDup_nil_2|].
    assert (groups' = groups) as -> by congruence.
    pose proof (group_loop_ascending s [] groups Hss ltac:(constructor)
                  ltac:(intros key a d Hkey; by apply elem_of_nil in Hkey)
                  Hloop) as Hascending.
    pose proof (group_loop_head _ _ _ Hloop) as Hhead. cbn [head fmap] in Hhead.
    unfold _get_date_range in Hrange.
    destruct s as [|a0 s0].
    { cbn in Hloop. injection Hloop as <-. cbn in Hrange.
      by injection Hrange as <-. }
    set (s := a0 :: s0) in *.
    destruct (mapM timeline_date s) as [dates|] eqn:Hdates; [|done].
    cbn [mbind option_bind] in Hrange.
    apply mapM_Some_1 in Hdates.
    destruct (sorted_dates_of offset s dates Hdates Hdated Hss)
      as [Hoffs Hsd].
    destruct dates as [|d0 dates0]; [done|].
    apply Forall_cons in Hoffs as [Hoff0 Hoffs].
    rewrite fmap_cons in Hsd.
    pose proof Hsd as Hsd'.
    apply StronglySorted_cons in Hsd' as [Hhd _].
    rewrite (min_date_sorted dates0 d0) in Hrange.
    2:{ apply Forall_forall. intros d Hd. split.
        - rewrite Forall_forall in Hoffs. rewrite (Hoffs d Hd). done.
        - rewrite Forall_forall in Hhd. apply Hhd.
          by apply list_elem_of_fmap_2. }
    destruct (max_date_sorted dates0 d0) as (r & Hr & Hlast); [|done|].
    { eapply Forall_impl; [exact Hoffs|]. intros d. congruence. }
    rewrite Hr in Hrange. cbn [mbind option_bind] in Hrange.
    injection Hrange as <-. cbn [range_start range_end].
    pose proof Hdates as Hall. unfold s in Hdates.
    apply Forall2_cons in Hdates as [Ha0 Hdates].
    split.
    + rewrite Hhead. unfold s. cbn. unfold article_day. by rewrite Ha0.
    + symmetry. apply last_key_greatest; [done| |].
      * (* the day of the greatest date is a key *)
        apply Hkeys. right.
        assert (exists z dz, z ∈ s /\ timeline_date z = Some dz
                             /\ fields dz = fields r) as (z & dz & Hz & Hdz & Hf).
        { rewrite <- fmap_cons in Hlast.
          rewrite fmap_last in Hlast.
          destruct (last (d0 :: dates0)) as [dz|] eqn:Elast; [|done].
          cbn in Hlast. assert (fields dz = fields r) as Hf by congruence.
          apply last_Some_elem_of in Elast.
          apply list_elem_of_lookup_1 in Elast as [i Hi].
          destruct (Forall2_lookup_r _ _ _ _ _ Hall Hi) as (z & Hz & Hzd).
          exists z, dz. split; [by eapply list_elem_of_lookup_2|]. done. }
        exists z. split; [done|]. unfold article_day. rewrite Hdz. cbn.
        f_equal. by apply strftime_fields.
      * intros k Hk. apply Hkeys in Hk as [Hk|(a & Ha & Hday)];
          [by apply elem_of_nil in Hk|].
        unfold article_day in Hday.
        destruct (timeline_date a) as [da|] eqn:Hda; [|done].
        cbn in Hday. injection Hday as <-.
        apply fields_le_day_le.
        (* every date is at most the last one *)
        assert (da ∈ d0 :: dates0) as Hin.
        { apply list_elem_of_lookup_1 in Ha as [i Hi].
          destruct (Forall2_lookup_l _ _ _ _ _ Hall Hi) as (d & Hd & Had).
          assert (d = da) as -> by congruence.
          by eapply list_elem_of_lookup_2. }
        assert (fields da ∈ fields d0 :: (fields <$> dates0)) as Hfin.
        { rewrite <- fmap_cons. by apply list_elem_of_fmap_2. }
        clear -Hfin Hsd Hlast.
        revert Hfin Hsd Hlast.
        generalize (fields d0 :: (fields <$> dates0)). intros fs Hfin Hsd Hlast.
        destruct fs as [|f0 fs0] using rev_ind; [by apply elem_of_nil in Hfin|].
        clear IHfs0. rewrite last_snoc in Hlast. injection Hlast as ->.
        apply elem_of_app in Hfin as [Hfin|Hfin].
        -- eapply (StronglySorted_app_1_elem_of _ _ _ _ _ Hsd Hfin). left.
        -- apply list_elem_of_singleton in Hfin as ->.
           unfold tuple_le. intros Hgt.
           pose proof (tuple_cmp_antisym f0 f0) as Hanti.
           rewrite Hgt in Hanti. done.
Qed.

(** ** Examples *)

Lemma three_articles_compared :
  exists r, @compare_multiple_articles demo_libs three_articles = Some (MultiOk r).
Proof.
  apply (@compare_multiple_returns demo_libs); [cbn; lia|].
  repeat constructor; done.
Qed.

Lemma multiple_comparison_pairs_witness :
  exists r,
    @compare_multiple_articles demo_libs three_articles = Some (MultiOk r)
    /\ pair_indices <$> comparisons r = [(0, 1); (0, 2); (1, 2)]
    /\ length (comparisons r) = 3.
Proof.
  destruct three_articles_compared as [r Hr]. exists r. split; [exact Hr|].
  destruct (@multiple_comparison_pairs demo_libs three_articles r Hr)
    as (Hidx & Hlen & _).
  split; [exact Hidx|].
  change (2 * length (comparisons r) = 6) in Hlen. lia.
Defined.

Lemma similarity_matrix_cells_witness :
  exists r c,
    @compare_multiple_articles demo_libs three_articles = Some (MultiOk r)
    /\ @compare_articles demo_libs english_article thai_article = Some c
    /\ cell (similarity_matrix r) 0 1 = Some (similarity_score c)
    /\ cell (similarity_matrix r) 1 0 = Some (similarity_score c).
Proof.
  destruct three_articles_compared as [r Hr].
  destruct (@similarity_matrix_cells demo_libs three_articles r Hr 0 1
              english_article thai_article) as (c & Hc & H01 & H10);
    [lia | reflexivity | reflexivity|].
  exists r, c. repeat split; assumption.
Defined.

Lemma most_similar_and_most_different_witness :
  exists r,
    @compare_multiple_articles demo_libs three_articles = Some (MultiOk r)
    /\ most_similar_pair r ∈ comparisons r
    /\ most_different_pair r ∈ comparisons r.
Proof.
  destruct three_articles_compared as [r Hr]. exists r. split; [exact Hr|].
  destruct (@most_similar_and_most_different demo_libs three_articles r Hr)
    as [(k & Hk & _) (k' & Hk' & _)].
  split; eapply list_elem_of_lookup_2; eassumption.
Defined.

Lemma similarity_summary_witness :
  exists r,
    @compare_multiple_articles demo_libs three_articles = Some (MultiOk r)
    /\ high (similarity_distribution r) + medium (similarity_distribution r)
       + low (similarity_distribution r) = length (comparisons r)
    /\ (0 <= average_similarity r <= 1)%Q.
Proof.
  destruct three_articles_compared as [r Hr]. exists r. split; [exact Hr|].
  destruct (@similarity_summary demo_libs three_articles r Hr)
    as (Hdist & _ & Havg).
  split; assumption.
Defined.

Lemma sentiment_comparison_range_witness :
  exists sc,
    @_analyze_sentiment_comparison demo_libs
      (content english_article) (content blank_keyword_article) en = Some sc
    /\ shares_in_unit (sentiment_difference sc).
Proof.
  destruct (@sentiment_comparison_returns demo_libs
              (content english_article) (content blank_keyword_article) en)
    as [sc Hsc]; [discriminate|].
  exists sc. split; [exact Hsc|].
  destruct (@sentiment_comparison_range demo_libs _ _ _ sc Hsc)
    as (_ & _ & _ & _ & Hdiff & _).
  exact Hdiff.
Defined.

Lemma demo_cosine_range (flag : bool) (d1 d2 : str) (q : Q) :
  @tfidf_cosine demo_libs flag d1 d2 = Some q -> (0 <= q <= 1)%Q.
Proof. cbn. intros [= <-]. case_bool_decide; lra. Qed.

Lemma similarity_score_weighted_witness :
  exists r,
    @compare_articles demo_libs thai_article english_article = Some r
    /\ (similarity_score r
        == 0.5 * content_similarity r
           + 0.3 * entity_similarity (entity_comparison r)
           + 0.2 * keyword_similarity (keyword_comparison r))%Q.
Proof.
  destruct (@compare_articles_returns demo_libs thai_article english_article)
    as [r Hr]; [discriminate|].
  exists r. split; [exact Hr|].
  destruct (@similarity_score_weighted demo_libs thai_article
              english_article r demo_cosine_range Hr) as (_ & _ & _ & Hs).
  exact Hs.
Defined.

Lemma offset_articles_timeline :
  exists t,
    (generate_timeline offset_articles).2 = Some t
    /\ date <$> events t = [(2024, 1, 2)%Z; (2024, 1, 1)%Z].
Proof.
  assert ((fun t => date <$> events t) <$> (generate_timeline offset_articles).2
          = Some [(2024, 1, 2)%Z; (2024, 1, 1)%Z]) as Hdates
    by (vm_compute; reflexivity).
  destruct (generate_timeline offset_articles).2 as [t|]; [|discriminate].
  exists t. split; [reflexivity|]. by injection Hdates.
Qed.

Lemma timeline_events_shape_witness :
  exists t,
    (generate_timeline offset_articles).2 = Some t
    /\ event_id <$> events t = seq 1 (length (events t))
    /\ Forall (fun e => (0 <= intensity e <= 10)%Q) (events t).
Proof.
  destruct offset_articles_timeline as (t & Ht & _).
  exists t. split; [exact Ht|].
  destruct (timeline_events_shape offset_articles t Ht) as [Hids Hall].
  split; [exact Hids|]. eapply Forall_impl; [exact Hall|].
  intros e (Hrange & _). exact Hrange.
Defined.

Lemma naive_articles_timeline :
  exists t, (generate_timeline naive_articles).2 = Some t.
Proof.
  assert (is_Some (generate_timeline naive_articles).2) as [t Ht]
    by (vm_compute; eexists; reflexivity).
  by exists t.
Qed.

Lemma timeline_counts_total_witness :
  exists t,
    (generate_timeline naive_articles).2 = Some t
    /\ total_articles t = 4
    /\ sum_list (article_count <$> events t) = 3.
Proof.
  destruct naive_articles_timeline as [t Ht].
  exists t. split; [exact Ht|].
  destruct (timeline_counts_total naive_articles t Ht) as (Htotal & Hsum & _).
  split; [exact Htotal|]. rewrite Hsum. clear. vm_compute. reflexivity.
Defined.

Lemma offset_articles_report :
  exists report,
    (generate_timeline_report offset_articles).2 = Some report
    /\ date <$> events (report_timeline report)
       = [(2024, 1, 2)%Z; (2024, 1, 1)%Z].
Proof.
  assert ((fun report => date <$> events (report_timeline report))
            <$> (generate_timeline_report offset_articles).2
          = Some [(2024, 1, 2)%Z; (2024, 1, 1)%Z]) as Hdates
    by (vm_compute; reflexivity).
  destruct (generate_timeline_report offset_articles).2 as [report|];
    [|discriminate].
  exists report. split; [reflexivity|]. by injection Hdates.
Qed.

Lemma chart_data_sorted_witness :
  exists report,
    (generate_timeline_report offset_articles).2 = Some report
    /\ StronglySorted date_before (labels (chart_data report))
    /\ labels (chart_data report) ≡ₚ date <$> events (report_timeline report).
Proof.
  destruct offset_articles_report as (report & Hr & Hdates).
  exists report. split; [exact Hr|].
  destruct (chart_data_sorted offset_articles report Hr)
    as (sorted_events & Hperm & Hsorted & -> & _).
  - rewrite Hdates. clear. repeat constructor; cbn; lia.
  - split; [exact Hsorted|]. clear - Hperm. by rewrite Hperm.
Defined.

Lemma statistics_summary_witness :
  exists report s,
    (generate_timeline_report offset_articles).2 = Some report
    /\ statistics report = SomeStatistics s
    /\ sum_list (source_distribution s).*2 = 3
    /\ (0 <= average_intensity s <= 10)%Q.
Proof.
  destruct offset_articles_report as (report & Hr & _).
  pose proof (statistics_summary offset_articles report Hr) as Hs.
  destruct (statistics report) as [|s] eqn:Hstat; [discriminate Hs|].
  exists report, s. split; [exact Hr|]. split; [exact Hstat|].
  destruct Hs as (_ & _ & _ & _ & _ & _ & Hsum & _ & _ & _ & _ & _ & _ & Havg).
  split; assumption.
Defined.

Lemma date_range_bounds_witness :
  exists t report,
    (generate_timeline naive_articles).2 = Some t
    /\ (generate_timeline_report naive_articles).2 = Some report
    /\ range_start (date_range report) = head (date <$> events t)
    /\ range_end (date_range report) = last (date <$> events t).
Proof.
  destruct naive_articles_timeline as [t Ht].
  destruct (date_range_bounds naive_articles t Ht)
    as (report & Hreport & _ & _ & Hrange).
  exists t, report. split; [exact Ht|].
  split; [rewrite Hreport; reflexivity|].
  apply (Hrange None). exact naive_articles_same_offset.
Defined.
